(** * ClawFi SDK: the signal utilities of [signals.ts] and the market
    utilities of [market.ts]

    A shallow embedding of the risk-scoring functions
    ([calculateRiskScore], [isHighRisk], [getRiskLevel]), of the signal
    views ([filterBySeverity], [filterByType], [getCriticalSignals],
    [sortBySeverity], [groupByType]), of [formatSignal] and of the market
    utilities, over IEEE-754 binary64 numbers as the Standard Library
    specifies them ([SpecFloat]). *)

From Stdlib Require Import ZArith List String Ascii Bool Lia.
From Stdlib Require Import Permutation Sorted.
From Stdlib Require Import Floats.SpecFloat.
Import ListNotations.

Local Open Scope Z_scope.

(** ** JavaScript numbers *)

(** A JavaScript [number] is a binary64 value: 53 bits of precision,
    exponents below 1024, round to nearest with ties to even.  [SpecFloat]
    has one NaN, as JavaScript has. *)
Module Number.

Definition prec : Z := 53.
Definition emax : Z := 1024.

Definition number : Type := spec_float.

Definition NaN : number := S754_nan.

(** An integer literal (exact below 2^53). *)
Definition of_Z (z : Z) : number := binary_normalize prec emax z 0 false.

(** A decimal literal with one fractional digit, [n/10]: the binary64
    value nearest to it, which the correctly rounded quotient of the two
    exact integers is. *)
Definition tenths (n : Z) : number := SFdiv prec emax (of_Z n) (of_Z 10).

Definition add : number -> number -> number := SFadd prec emax.
Definition sub : number -> number -> number := SFsub prec emax.
Definition mul : number -> number -> number := SFmul prec emax.
Definition div : number -> number -> number := SFdiv prec emax.

(** [x < y], [x <= y] and [x >= y]; each is false when an operand is NaN. *)
Definition ltb : number -> number -> bool := SFltb.
Definition leb : number -> number -> bool := SFleb.
Definition geb (x y : number) : bool := SFleb y x.
Definition gtb (x y : number) : bool := SFltb y x.

(** ToBoolean on a number: 0, -0 and NaN are falsy. *)
Definition truthy (x : number) : bool :=
  match x with
  | S754_zero _ | S754_nan => false
  | _ => true
  end.

(** [Math.max] and [Math.min] of two numbers: NaN if either is NaN, and
    -0 is smaller than +0. *)
Definition Math_max (x y : number) : number :=
  match SFcompare x y with
  | None => NaN
  | Some Lt => y
  | Some Gt => x
  | Some Eq => match x with S754_zero false => x | _ => y end
  end.

Definition Math_min (x y : number) : number :=
  match SFcompare x y with
  | None => NaN
  | Some Lt => x
  | Some Gt => y
  | Some Eq => match x with S754_zero true => x | _ => y end
  end.

(** [Math.round]: the integer nearest to [x], the larger one on a tie;
    NaN, the infinities and the zeros are returned as they are, and a
    result of zero keeps the sign of [x].  For [x = n * 2^e] with
    [e < 0] the integer is [floor ((2n + 2^-e) / 2^(1-e))]. *)
Definition Math_round (x : number) : number :=
  match x with
  | S754_finite s m e =>
      if 0 <=? e then x
      else
        let n := cond_Zopp s (Zpos m) in
        let k := Z.shiftr (2 * n + Z.shiftl 1 (- e)) (1 - e) in
        if k =? 0 then S754_zero s else of_Z k
  | _ => x
  end.

End Number.
Import Number.

(** A number or [undefined], as a number: [None] is [undefined]. *)
Definition ToNumber (v : option number) : number :=
  match v with
  | Some x => x
  | None => NaN
  end.

(** [v || d] for a number or [undefined] on the left. *)
Definition or_default (v : option number) (d : number) : number :=
  match v with
  | Some x => if truthy x then x else d
  | None => d
  end.

(** ** Types ([types.ts]) *)

Inductive SignalType : Type :=
  | whale_movement
  | liquidity_change
  | holder_concentration
  | contract_risk
  | price_manipulation
  | rugpull_risk
  | honeypot
  | mint_authority
  | social_sentiment.

Inductive SignalSeverity : Type :=
  | info
  | low
  | medium
  | high
  | critical.

(** The value a field of a union-of-literals type holds at run time: a
    member of the union, or, since nothing checks a deserialized record, a
    string that is none of them.  Every string is one or the other: the
    name of a member is written [known], and [unknown raw] is written for
    any other string [raw], also for one that names a property every
    object inherits, such as ["constructor"]. *)
Variant field (A : Type) : Type :=
  | known (a : A)
  | unknown (raw : string).
Arguments known {A} a.
Arguments unknown {A} raw.

Record Signal : Type := mkSignal {
  id : string;
  type : field SignalType;
  severity : field SignalSeverity;
  title : string;
  summary : string;
  details : option string;
  timestamp : number;
  metadata : option (list (string * string))
}.

Definition SignalType_eqb (a b : SignalType) : bool :=
  match a, b with
  | whale_movement, whale_movement
  | liquidity_change, liquidity_change
  | holder_concentration, holder_concentration
  | contract_risk, contract_risk
  | price_manipulation, price_manipulation
  | rugpull_risk, rugpull_risk
  | honeypot, honeypot
  | mint_authority, mint_authority
  | social_sentiment, social_sentiment => true
  | _, _ => false
  end.

Definition SignalSeverity_eqb (a b : SignalSeverity) : bool :=
  match a, b with
  | info, info | low, low | medium, medium | high, high
  | critical, critical => true
  | _, _ => false
  end.

(** The string of a severity, as [toUpperCase] and the template see it. *)
Definition SignalSeverity_name (s : SignalSeverity) : string :=
  match s with
  | info => "info"
  | low => "low"
  | medium => "medium"
  | high => "high"
  | critical => "critical"
  end.

(** [x === 'literal'] on a field. *)
Definition field_is {A : Type} (eqb : A -> A -> bool) (x : field A) (lit : A)
  : bool :=
  match x with
  | known a => eqb a lit
  | unknown _ => false
  end.

(** ** Lookup tables *)

(** An object literal keyed by the members of a union, as the list of its
    entries; [table_get] finds the table's own property of a key, of which
    there is none for a string outside the union, and [get], below, is the
    property read [table[key]]. *)
Definition table (K V : Type) : Type := list (K * V).

Fixpoint table_get {K V : Type} (eqb : K -> K -> bool) (t : table K V)
  (key : field K) : option V :=
  match key with
  | unknown _ => None
  | known k =>
      match t with
      | [] => None
      | (k', v) :: rest =>
          if eqb k k' then Some v else table_get eqb rest key
      end
  end.

Definition SEVERITY_WEIGHTS : table SignalSeverity number :=
  [ (info, of_Z 0);
    (low, of_Z 1);
    (medium, of_Z 2);
    (high, of_Z 3);
    (critical, of_Z 5) ].

Definition TYPE_RISK_FACTORS : table SignalType number :=
  [ (whale_movement, tenths 12);
    (liquidity_change, tenths 15);
    (holder_concentration, tenths 13);
    (contract_risk, tenths 20);
    (price_manipulation, tenths 18);
    (rugpull_risk, tenths 30);
    (honeypot, tenths 30);
    (mint_authority, tenths 25);
    (social_sentiment, tenths 8) ].

(** The table's own entry for a severity, and for a type. *)
Definition severity_weight (s : field SignalSeverity) : option number :=
  table_get SignalSeverity_eqb SEVERITY_WEIGHTS s.

Definition type_risk_factor (t : field SignalType) : option number :=
  table_get SignalType_eqb TYPE_RISK_FACTORS t.

(** ** Property reads and the prototype

    The tables are object literals, whose prototype is [Object.prototype]:
    a read [table[key]] that finds no property of the table's own goes on
    to the prototype, and yields [undefined] only if the prototype has no
    property of that name either.  These are the properties of
    [Object.prototype].  Each holds a function, but [__proto__], which reads
    as the prototype itself.  The code uses what it reads as a number, in a
    comparison or in a template literal, and all of these see of an object
    only the string ToPrimitive makes of it: for a function its source
    text (given as V8 prints it), for the prototype [[object Object]]. *)
Definition Object_prototype : list (string * string) :=
  [ ("constructor", "function Object() { [native code] }");
    ("__defineGetter__", "function __defineGetter__() { [native code] }");
    ("__defineSetter__", "function __defineSetter__() { [native code] }");
    ("hasOwnProperty", "function hasOwnProperty() { [native code] }");
    ("__lookupGetter__", "function __lookupGetter__() { [native code] }");
    ("__lookupSetter__", "function __lookupSetter__() { [native code] }");
    ("isPrototypeOf", "function isPrototypeOf() { [native code] }");
    ("propertyIsEnumerable",
     "function propertyIsEnumerable() { [native code] }");
    ("toString", "function toString() { [native code] }");
    ("valueOf", "function valueOf() { [native code] }");
    ("__proto__", "[object Object]");
    ("toLocaleString", "function toLocaleString() { [native code] }")
  ]%string.

(** [Object.prototype[name]], if there is such a property. *)
Definition inherited (name : string) : option string :=
  option_map snd (find (fun p => String.eqb (fst p) name) Object_prototype).

(** No member of the two unions names a property of the prototype. *)
Definition field_inherited {A : Type} (key : field A) : option string :=
  match key with
  | known _ => None
  | unknown raw => inherited raw
  end.

(** What a read yields: a property of the object's own or, [own None],
    [undefined]; or else an object from the prototype. *)
Variant lookup (V : Type) : Type :=
  | own (v : option V)
  | from_prototype (text : string).
Arguments own {V} v.
Arguments from_prototype {V} text.

(** The read of [key], given what the object itself has under it. *)
Definition through_prototype {A V : Type} (v : option V) (key : field A)
  : lookup V :=
  match v with
  | Some _ => own v
  | None =>
      match field_inherited key with
      | Some text => from_prototype text
      | None => own None
      end
  end.

(** [table[key]]. *)
Definition get {K V : Type} (eqb : K -> K -> bool) (t : table K V)
  (key : field K) : lookup V :=
  through_prototype (table_get eqb t key) key.

(** [v || d] on what a read of a table of numbers yields: an object is
    truthy. *)
Definition lookup_or (v : lookup number) (d : number) : lookup number :=
  match v with
  | own p => own (Some (or_default p d))
  | from_prototype text => from_prototype text
  end.

(** ToNumber: the source text of a function and [[object Object]] are no
    numeric literals, so an object is NaN. *)
Definition lookup_number (v : lookup number) : number :=
  match v with
  | own p => ToNumber p
  | from_prototype _ => NaN
  end.

(** [x >= y] on two reads: two objects are compared as the strings
    ToPrimitive makes of them, by code units; an object against a number
    or [undefined] is compared as NaN. *)
Definition lookup_geb (x y : lookup number) : bool :=
  match x, y with
  | own p, own q => geb (ToNumber p) (ToNumber q)
  | from_prototype a, from_prototype b => negb (String.ltb a b)
  | _, _ => false
  end.

(** A read inside a template literal: ToString. *)
Definition lookup_string (v : lookup string) : string :=
  match v with
  | own (Some s) => s
  | own None => "undefined"
  | from_prototype text => text
  end.

(** ** Risk score *)

(** The score of one signal, [severityWeight * typeFactor], each read with
    its [|| 1]; the product takes each as a number. *)
Definition signalScore (signal : Signal) : number :=
  let severityWeight :=
    lookup_or (get SignalSeverity_eqb SEVERITY_WEIGHTS (severity signal))
      (of_Z 1) in
  let typeFactor :=
    lookup_or (get SignalType_eqb TYPE_RISK_FACTORS (type signal))
      (of_Z 1) in
  mul (lookup_number severityWeight) (lookup_number typeFactor).

(** One turn of the [for ... of] loop on [(totalScore, maxScore)]. *)
Definition score_step (acc : number * number) (signal : Signal)
  : number * number :=
  let '(totalScore, maxScore) := acc in
  (add totalScore (signalScore signal), Math_max maxScore (signalScore signal)).

Definition score_loop (signals : list Signal) : number * number :=
  fold_left score_step signals (of_Z 0, of_Z 0).

Definition calculateRiskScore (signals : list Signal) : number :=
  if (List.length signals =? 0)%nat then of_Z 0
  else
    let '(totalScore, maxScore) := score_loop signals in
    let avgScore := div totalScore (of_Z (Z.of_nat (List.length signals))) in
    let combinedScore :=
      add (mul avgScore (tenths 6)) (mul maxScore (tenths 4)) in
    Math_min (of_Z 100) (Math_round (mul combinedScore (of_Z 10))).

(** ** Views over a signal collection *)

Definition filterBySeverity (signals : list Signal)
  (minSeverity : field SignalSeverity) : list Signal :=
  let minWeight := get SignalSeverity_eqb SEVERITY_WEIGHTS minSeverity in
  filter (fun s =>
            lookup_geb
              (get SignalSeverity_eqb SEVERITY_WEIGHTS (severity s))
              minWeight) signals.

Definition getCriticalSignals (signals : list Signal) : list Signal :=
  filter (fun s => field_is SignalSeverity_eqb (severity s) critical
                   || field_is SignalSeverity_eqb (severity s) high) signals.

Definition isHighRisk (signals : list Signal) : bool :=
  let riskScore := calculateRiskScore signals in
  geb riskScore (of_Z 70)
  || existsb (fun s => field_is SignalType_eqb (type s) honeypot
                       || field_is SignalType_eqb (type s) rugpull_risk
                       || field_is SignalSeverity_eqb (severity s) critical)
             signals.

Inductive RiskLevel : Type :=
  | level_safe
  | level_low
  | level_medium
  | level_high
  | level_critical.

Definition getRiskLevel (score : number) : RiskLevel :=
  if ltb score (of_Z 20) then level_safe
  else if ltb score (of_Z 40) then level_low
  else if ltb score (of_Z 60) then level_medium
  else if ltb score (of_Z 80) then level_high
  else level_critical.

(** ** Sorting

    [Array.prototype.sort] is a built-in: the language requires it to be
    stable and, for a comparator that is a consistent ordering, to return
    the elements in the comparator's order.  For such a comparator the
    stable sorted arrangement is unique ([sort_by_severity_unique] below),
    and the model computes it by stable insertion.  A comparator result
    [v] is used as the language's SortCompare does: NaN counts as +0, and
    [x] goes after [y] exactly when [v > 0]. *)
Section ArraySort.
Context {A : Type}.
Variable comparefn : A -> A -> number.

Definition sorts_after (x y : A) : bool := gtb (comparefn x y) (of_Z 0).

Fixpoint sort_insert (x : A) (l : list A) : list A :=
  match l with
  | [] => [x]
  | y :: l' => if sorts_after x y then y :: sort_insert x l' else x :: l
  end.

Definition sort_elements (l : list A) : list A :=
  fold_right sort_insert [] l.
End ArraySort.

(** Arrays are objects: a function is handed a reference, and [sort] works in
    place.  The store maps a reference (an index) to the elements of the
    array it denotes. *)
Module Store.

Definition ref : Type := nat.
Definition store : Type := list (list Signal).

Definition read (st : store) (r : ref) : option (list Signal) :=
  nth_error st r.

(** A new array, at a reference not in use. *)
Definition alloc (st : store) (elements : list Signal) : store * ref :=
  (st ++ [elements], List.length st).

Fixpoint write (st : store) (r : ref) (elements : list Signal) : store :=
  match st, r with
  | [], _ => []
  | _ :: rest, O => elements :: rest
  | a :: rest, S r' => a :: write rest r' elements
  end.

(** [[...a]]: a new array with the elements of [a]. *)
Definition spread (st : store) (a : ref) : option (store * ref) :=
  match read st a with
  | Some elements => Some (alloc st elements)
  | None => None
  end.

(** [a.sort(comparefn)]: sorts [a] in place and returns [a]. *)
Definition Array_sort (st : store) (a : ref)
  (comparefn : Signal -> Signal -> number) : option (store * ref) :=
  match read st a with
  | Some elements => Some (write st a (sort_elements comparefn elements), a)
  | None => None
  end.

End Store.

(** The comparator of [sortBySeverity]:
    [SEVERITY_WEIGHTS[b.severity] - SEVERITY_WEIGHTS[a.severity]]. *)
Definition bySeverity (a b : Signal) : number :=
  sub (lookup_number (get SignalSeverity_eqb SEVERITY_WEIGHTS (severity b)))
      (lookup_number (get SignalSeverity_eqb SEVERITY_WEIGHTS (severity a))).

(** [[...signals].sort(bySeverity)], on the store. *)
Definition sortBySeverity (st : Store.store) (signals : Store.ref)
  : option (Store.store * Store.ref) :=
  match Store.spread st signals with
  | Some (st1, copy) => Store.Array_sort st1 copy bySeverity
  | None => None
  end.

(** ** Formatting *)

Definition upper_ascii (c : ascii) : ascii :=
  let n := nat_of_ascii c in
  if ((97 <=? n) && (n <=? 122))%nat then ascii_of_nat (n - 32) else c.

(** [toUpperCase] of a string of ASCII characters, as the names of the
    severities are: the letters a to z are replaced, every other character
    is kept.  (Beyond ASCII the language maps by the Unicode tables.) *)
Fixpoint toUpperCase (s : string) : string :=
  match s with
  | EmptyString => EmptyString
  | String c rest => String (upper_ascii c) (toUpperCase rest)
  end.

(** The string a field holds. *)
Definition field_string (x : field SignalSeverity) : string :=
  match x with
  | known a => SignalSeverity_name a
  | unknown raw => raw
  end.

Definition severityEmoji : table SignalSeverity string :=
  [ (info, "‚ÑπÔ∏è"%string);
    (low, "üü¢"%string);
    (medium, "üü°"%string);
    (high, "üü†"%string);
    (critical, "üî¥"%string) ].

Definition formatSignal (signal : Signal) : string :=
  (lookup_string (get SignalSeverity_eqb severityEmoji (severity signal))
   ++ " [" ++ toUpperCase (field_string (severity signal)) ++ "] "
   ++ title signal ++ ": " ++ summary signal)%string.

(** A signal of the given type and severity, for examples. *)
Definition sig (name : string) (t : SignalType) (s : SignalSeverity) : Signal :=
  mkSignal name (known t) (known s) "" "" None (of_Z 0) None.

(** ** More views: by type *)

(** [x === y] on two fields: the same member of the union, or the same
    string outside it. *)
Definition field_eqb {A : Type} (eqb : A -> A -> bool) (x y : field A)
  : bool :=
  match x, y with
  | known a, known b => eqb a b
  | unknown r1, unknown r2 => String.eqb r1 r2
  | _, _ => false
  end.

(** [types.includes(t)]. *)
Definition includes (types : list (field SignalType)) (t : field SignalType)
  : bool :=
  existsb (fun u => field_eqb SignalType_eqb u t) types.

Definition filterByType (signals : list Signal)
  (types : list (field SignalType)) : list Signal :=
  filter (fun s => includes types (type s)) signals.

(** The accumulator of [groupByType]: an object that starts empty and gets
    one property per type, each holding an array.  It is kept as the list
    of its entries; [group_get] finds its own property of a key,
    [group_read] is the read [acc[key]], and [group_set] the assignment
    [acc[key] = v], which creates the property when there is none. *)
Definition groups : Type := list (field SignalType * list Signal).

Fixpoint group_get (acc : groups) (key : field SignalType)
  : option (list Signal) :=
  match acc with
  | [] => None
  | (k, v) :: rest =>
      if field_eqb SignalType_eqb k key then Some v else group_get rest key
  end.

Fixpoint group_set (acc : groups) (key : field SignalType) (v : list Signal)
  : groups :=
  match acc with
  | [] => [(key, v)]
  | (k, v0) :: rest =>
      if field_eqb SignalType_eqb k key then (k, v) :: rest
      else (k, v0) :: group_set rest key v
  end.

Definition group_read (acc : groups) (key : field SignalType)
  : lookup (list Signal) :=
  through_prototype (group_get acc key) key.

(** The callback of the [reduce]: [if (!acc[t]) acc[t] = []], then
    [acc[t].push(signal)].  Arrays, functions and objects are truthy, so
    the test asks whether the read yields [undefined].  Where it yields an
    array, [push] appends to it.  Where it yields what the accumulator
    inherits, there is no [push] to call, [Object.prototype] having none,
    and the call throws a TypeError: that is [None]. *)
Definition group_step (acc : groups) (signal : Signal) : option groups :=
  let acc1 :=
    match group_read acc (type signal) with
    | own None => group_set acc (type signal) []
    | _ => acc
    end in
  match group_read acc1 (type signal) with
  | own (Some arr) => Some (group_set acc1 (type signal) (arr ++ [signal]))
  | _ => None
  end.

(** [signals.reduce(group_step, {})]; an exception ends the [reduce]. *)
Definition groupByType (signals : list Signal) : option groups :=
  fold_left (fun acc signal =>
               match acc with
               | Some a => group_step a signal
               | None => None
               end) signals (Some []).

(** ** Market data ([types.ts]) *)

(** [x === y] on two numbers: false when either is NaN, and true of +0
    and -0. *)
Definition strict_eq : number -> number -> bool := SFeqb.

(** A decimal literal with two fractional digits, [n/100]. *)
Definition hundredths (n : Z) : number := div (of_Z n) (of_Z 100).

(** [s || d] for a string or [undefined] on the left: the empty string is
    falsy. *)
Definition or_label (v : option string) (d : string) : string :=
  match v with
  | Some EmptyString | None => d
  | Some s => s
  end.

(** The four windows of [priceChange] and of [volume]. *)
Record Windows : Type := mkWindows {
  m5 : number;
  h1 : number;
  h6 : number;
  h24 : number
}.

Record Transactions : Type := mkTransactions {
  buys : number;
  sells : number
}.

Module Market.

Record MarketData : Type := mkMarketData {
  price : number;
  priceChange : Windows;
  volume : Windows;
  transactions : Transactions;
  liquidity : number;
  marketCap : option number;
  fdv : option number
}.

End Market.

Module Token.

Record TokenData : Type := mkTokenData {
  address : string;
  chain : string;
  name : option string;
  symbol : option string;
  decimals : option number;
  price : option number;
  priceChange24h : option number;
  marketCap : option number;
  fdv : option number;
  volume24h : option number;
  liquidity : option number;
  holders : option number;
  createdAt : option number
}.

End Token.

(** ** Market utilities ([market.ts]) *)

Definition getBuySellRatio (market : Market.MarketData) : number :=
  let total :=
    add (buys (Market.transactions market))
        (sells (Market.transactions market)) in
  if strict_eq total (of_Z 0) then tenths 5
  else div (buys (Market.transactions market)) total.

Inductive Momentum : Type :=
  | bullish
  | bearish
  | neutral.

Definition getMomentum (market : Market.MarketData) : Momentum :=
  let changes :=
    [ m5 (Market.priceChange market);
      h1 (Market.priceChange market);
      h6 (Market.priceChange market);
      h24 (Market.priceChange market) ] in
  let avgChange :=
    div (fold_left (fun a b => add a b) changes (of_Z 0))
        (of_Z (Z.of_nat (List.length changes))) in
  if gtb avgChange (of_Z 5) then bullish
  else if ltb avgChange (of_Z (-5)) then bearish
  else neutral.

(** [minUsd] has the default 10000, which an absent argument takes. *)
Definition hasSufficientLiquidity (market : Market.MarketData)
  (minUsd : option number) : bool :=
  let minUsd :=
    match minUsd with
    | Some v => v
    | None => of_Z 10000
    end in
  geb (Market.liquidity market) minUsd.

(** [null] is [None]. *)
Definition getLiquidityRatio (market : Market.MarketData) : option number :=
  if match Market.marketCap market with
     | None => true
     | Some cap => negb (truthy cap) || strict_eq cap (of_Z 0)
     end
  then None
  else Some (div (Market.liquidity market)
                 (ToNumber (Market.marketCap market))).

Definition detectPumpPattern (market : Market.MarketData) : bool :=
  let bigPriceMove :=
    gtb (h1 (Market.priceChange market)) (of_Z 50)
    || gtb (m5 (Market.priceChange market)) (of_Z 20) in
  let lowLiquidityRatio := getLiquidityRatio market in
  bigPriceMove
  && match lowLiquidityRatio with
     | Some ratio => ltb ratio (hundredths 5)
     | None => false
     end.

Definition detectDumpPattern (market : Market.MarketData) : bool :=
  let bigPriceDrop :=
    ltb (h1 (Market.priceChange market)) (of_Z (-30))
    || ltb (m5 (Market.priceChange market)) (of_Z (-15)) in
  let highSellRatio := ltb (getBuySellRatio market) (tenths 3) in
  bigPriceDrop && highSellRatio.

Record Comparison : Type := mkComparison {
  higherMcap : string;
  higherVolume : string;
  higherLiquidity : string
}.

Definition compareTokens (a b : Token.TokenData) : Comparison :=
  {| higherMcap :=
       if gtb (or_default (Token.marketCap a) (of_Z 0))
              (or_default (Token.marketCap b) (of_Z 0))
       then or_label (Token.symbol a) "A"
       else or_label (Token.symbol b) "B";
     higherVolume :=
       if gtb (or_default (Token.volume24h a) (of_Z 0))
              (or_default (Token.volume24h b) (of_Z 0))
       then or_label (Token.symbol a) "A"
       else or_label (Token.symbol b) "B";
     higherLiquidity :=
       if gtb (or_default (Token.liquidity a) (of_Z 0))
              (or_default (Token.liquidity b) (of_Z 0))
       then or_label (Token.symbol a) "A"
       else or_label (Token.symbol b) "B" |}.

(** ** Formatting market figures ([market.ts])

    [toFixed], [toExponential] and the conversion of a number to a string
    are built-ins of the language.  The formatters are given over any three
    functions in their place: what is proved of them holds of the
    built-ins. *)

(** A decimal literal with four fractional digits, [n/10000]. *)
Definition ten_thousandths (n : Z) : number := div (of_Z n) (of_Z 10000).

Definition Momentum_name (m : Momentum) : string :=
  match m with
  | bullish => "bullish"
  | bearish => "bearish"
  | neutral => "neutral"
  end.

Module Summary.

Record MarketSummary : Type := mkMarketSummary {
  priceFormatted : string;
  change24h : string;
  volume24h : string;
  liquidity : string;
  momentum : string;
  buySellRatio : string
}.

End Summary.

Section Formatting.
Variable toFixed : number -> Z -> string.
Variable toExponential : number -> Z -> string.
Variable Number_toString : number -> string.

Definition formatPrice (price : number) : string :=
  if geb price (of_Z 1) then toFixed price 2
  else if geb price (hundredths 1) then toFixed price 4
  else if geb price (ten_thousandths 1) then toFixed price 6
  else toExponential price 2.

Definition formatMarketCap (value : number) : string :=
  if geb value (of_Z (10 ^ 12))
  then ("$" ++ toFixed (div value (of_Z (10 ^ 12))) 2 ++ "T")%string
  else if geb value (of_Z (10 ^ 9))
  then ("$" ++ toFixed (div value (of_Z (10 ^ 9))) 2 ++ "B")%string
  else if geb value (of_Z (10 ^ 6))
  then ("$" ++ toFixed (div value (of_Z (10 ^ 6))) 2 ++ "M")%string
  else if geb value (of_Z (10 ^ 3))
  then ("$" ++ toFixed (div value (of_Z (10 ^ 3))) 2 ++ "K")%string
  else ("$" ++ toFixed value 2)%string.

Definition formatVolume (value : number) : string := formatMarketCap value.

Definition formatChange (change : number) : string :=
  let sign := if geb change (of_Z 0) then "+"%string else ""%string in
  (sign ++ toFixed change 2 ++ "%")%string.

Definition getMarketSummary (market : Market.MarketData)
  : Summary.MarketSummary :=
  {| Summary.priceFormatted :=
       ("$" ++ formatPrice (Market.price market))%string;
     Summary.change24h := formatChange (h24 (Market.priceChange market));
     Summary.volume24h := formatVolume (h24 (Market.volume market));
     Summary.liquidity := formatMarketCap (Market.liquidity market);
     Summary.momentum := Momentum_name (getMomentum market);
     Summary.buySellRatio :=
       (Number_toString
          (Math_round (mul (getBuySellRatio market) (of_Z 100)))
        ++ "% buys")%string |}.

End Formatting.

(** ** Vocabulary of the properties *)

(** The severity weights as integers. *)
Definition weightZ (s : SignalSeverity) : Z :=
  match s with
  | info => 0
  | low => 1
  | medium => 2
  | high => 3
  | critical => 5
  end.

(** The signal has a severity of the enumeration whose weight is at least
    the weight of [minSeverity]. *)
Definition reaches (minSeverity : SignalSeverity) (s : Signal) : bool :=
  match severity s with
  | known v => weightZ minSeverity <=? weightZ v
  | unknown _ => false
  end.

Definition is_critical_or_high (x : field SignalSeverity) : bool :=
  match x with
  | known critical | known high => true
  | _ => false
  end.

(** The indicator and the label [formatSignal] prints for a severity of
    the enumeration. *)
Definition severity_indicator (v : SignalSeverity) : string :=
  match v with
  | info => "‚ÑπÔ∏è"
  | low => "üü¢"
  | medium => "üü°"
  | high => "üü†"
  | critical => "üî¥"
  end.

Definition severity_label (v : SignalSeverity) : string :=
  match v with
  | info => "INFO"
  | low => "LOW"
  | medium => "MEDIUM"
  | high => "HIGH"
  | critical => "CRITICAL"
  end.

(** Larger keys first. *)
Definition key_order {A : Type} (key : A -> Z) (a b : A) : Prop :=
  key b <= key a.

(** The weight of a signal whose severity is of the enumeration. *)
Definition known_weight (s : Signal) : option Z :=
  match severity s with
  | known v => Some (weightZ v)
  | unknown _ => None
  end.

Definition recognized (s : Signal) : Prop :=
  exists v, severity s = known v.

(** [b] weighs no more than [a]. *)
Definition not_lighter (a b : Signal) : Prop :=
  exists wa wb,
    known_weight a = Some wa /\ known_weight b = Some wb /\ wb <= wa.

(** [s] has severity weight [w]. *)
Definition weighs (w : Z) (s : Signal) : bool :=
  match known_weight s with
  | Some w' => w' =? w
  | None => false
  end.

(** The key of the comparator [bySeverity]. *)
Definition weight_key (s : Signal) : Z :=
  match known_weight s with
  | Some w => w
  | None => 0
  end.

(** An array has fewer than 2^32 elements. *)
Definition is_array (signals : list Signal) : Prop :=
  Z.of_nat (List.length signals) < 2 ^ 32.

(** The field names no property of [Object.prototype]: it holds a member
    of the union, or a string for which the read of a table yields
    [undefined]. *)
Definition ordinary {A : Type} (x : field A) : Prop :=
  field_inherited x = None.

(** The type and the severity of the signal are ordinary. *)
Definition ordinary_signal (s : Signal) : Prop :=
  ordinary (type s) /\ ordinary (severity s).

(** ** Vocabulary of binary64 rounding

    The score is computed in binary64; the properties of its range and of
    its growth are arguments about rounded arithmetic.  A positive normal
    number is [m * 2^e] with a mantissa [m] of exactly 53 bits, and in units
    of [2^-1074] it is an integer. *)

Definition scale : Z := 1074.

Definition expo (x : number) : Z :=
  match x with
  | S754_finite _ _ e => e
  | _ => 0
  end.

(** The value of a positive finite number, in units of [2^-scale]. *)
Definition units (x : number) : Z :=
  match x with
  | S754_finite false m e => Zpos m * 2 ^ (e + scale)
  | _ => 0
  end.

(** Positive, finite, and in the canonical form of a normal number. *)
Definition normal (x : number) : Prop :=
  exists m e, x = S754_finite false m e
              /\ 2 ^ 52 <= Zpos m < 2 ^ 53 /\ -1074 <= e <= 971.

Definition normalb (x : number) : bool :=
  match x with
  | S754_finite false m e =>
      (2 ^ 52 <=? Zpos m) && (Zpos m <? 2 ^ 53) && (-1074 <=? e) && (e <=? 971)
  | _ => false
  end.

(** The rational [p/q] lies in [[m, m+1)], and the round bit [r] and the
    sticky bit [s] say where: at [m], below the middle, at the middle, or
    above it. *)
Definition located (p q : Z) (mrs : shr_record) : Prop :=
  let m := shr_m mrs in
  match shr_r mrs, shr_s mrs with
  | false, false => p = m * q
  | false, true => m * q < p /\ 2 * p < (2 * m + 1) * q
  | true, false => 2 * p = (2 * m + 1) * q
  | true, true => (2 * m + 1) * q < 2 * p /\ p < (m + 1) * q
  end.

(** [m] is an integer nearest to [p/q], and even if [p/q] is half-way
    between two integers. *)
Definition nearest (p q m : Z) : Prop :=
  - q <= 2 * (p - m * q) <= q
  /\ (2 * (p - m * q) = q \/ 2 * (p - m * q) = - q -> Z.even m = true).

(** [z] is the rational [A/B] (in units of [2^-scale]) rounded to
    nearest, ties to even: with [2^E] the spacing of the binade of [A/B],
    [z] is [m2 * 2^E] for an integer [m2] nearest to [A / (B * 2^E)]. *)
Definition rounding (A B : Z) (z : number) : Prop :=
  exists E m2,
    0 <= E /\ 2 ^ 52 <= m2 <= 2 ^ 53 /\ units z = m2 * 2 ^ E
    /\ nearest A (2 ^ E * B) m2
    /\ 2 ^ 52 * (2 ^ E * B) <= A < 2 ^ 53 * (2 ^ E * B).

(** The integer nearest to a value given in units of [2^-scale], the
    larger one on a tie. *)
Definition round_units (v : Z) : Z := (2 * v + 2 ^ scale) / 2 ^ (scale + 1).

(** The last steps of [calculateRiskScore], from the mean and the
    maximum. *)
Definition combine (avgScore maxScore : number) : number :=
  Math_min (of_Z 100)
    (Math_round
       (mul (add (mul avgScore (tenths 6)) (mul maxScore (tenths 4)))
            (of_Z 10))).

(** What holds of the score of every ordinary signal: a normal number
    between 0.5 and 15. *)
Definition score_okb (x : number) : bool :=
  normalb x && leb x (of_Z 15) && leb (tenths 5) x
  && (-53 <=? expo x) && (expo x <=? -49).

Record score_ok (x : number) : Prop := {
  ok_normal : normal x;
  ok_upper : units x <= 15 * 2 ^ scale;
  ok_lower : 2 ^ (scale - 1) <= units x;
  ok_expo : -53 <= expo x <= -49
}.

(** The loop invariant after [k] signals, on [(totalScore, maxScore)]. *)
Record loop_inv (k : Z) (acc : number * number) : Prop := {
  inv_normal : normal (fst acc);
  inv_lower : 2 ^ (scale - 1) <= units (fst acc);
  inv_upper : units (fst acc) <= 15 * k * 2 ^ scale;
  inv_max : score_ok (snd acc)
}.

(** Zero, a positive finite number, or infinity. *)
Definition nonnegb (x : number) : bool :=
  match x with
  | S754_zero false | S754_infinity false | S754_finite false _ _ => true
  | _ => false
  end.

(** The number 2^60, which the running sum never exceeds. *)
Definition two_60 : number := S754_finite false 4503599627370496 8.

(** The loop invariant for a collection of any length. *)
Record loop_bounded (acc : number * number) : Prop := {
  bounded_normal : normal (fst acc);
  bounded_upper : units (fst acc) <= units two_60;
  bounded_max : score_ok (snd acc)
}.

(** ** Vocabulary of the further properties *)

(** The weight [calculateRiskScore] gives an ordinary severity, and ten
    times the factor it gives an ordinary type, after their [|| 1]. *)
Definition weight_or_1 (x : field SignalSeverity) : Z :=
  match x with
  | known medium => 2
  | known high => 3
  | known critical => 5
  | _ => 1
  end.

Definition factor_tenths (x : field SignalType) : Z :=
  match x with
  | known whale_movement => 12
  | known liquidity_change => 15
  | known holder_concentration => 13
  | known contract_risk => 20
  | known price_manipulation => 18
  | known rugpull_risk => 30
  | known honeypot => 30
  | known mint_authority => 25
  | known social_sentiment => 8
  | unknown _ => 10
  end.

(** The accumulator of [groupByType] after one more signal, when nothing is
    thrown: the group of the signal's type, a new one if there is none,
    has the signal appended.  [grouped] is the accumulator after the
    signals of a collection. *)
Definition group_add (acc : groups) (s : Signal) : groups :=
  group_set acc (type s)
    (match group_get acc (type s) with Some g => g | None => [] end ++ [s]).

Definition grouped (signals : list Signal) : groups :=
  fold_left group_add signals [].

(** The number 0.75, below the score of every ordinary signal. *)
Definition three_quarters : number := div (of_Z 3) (of_Z 4).

(** The signals of the override of [isHighRisk]. *)
Definition overrides (s : Signal) : Prop :=
  type s = known honeypot \/ type s = known rugpull_risk
  \/ severity s = known critical.

(** Zero of either sign, or a finite or infinite number of the sign [s]
    ([true] for minus): for [s = false] the numbers [x >= 0], for
    [s = true] the numbers [x <= 0]. *)
Definition signedb (s : bool) (x : number) : bool :=
  match x with
  | S754_zero _ => true
  | S754_infinity s' | S754_finite s' _ _ => Bool.eqb s s'
  | S754_nan => false
  end.

(** * Properties *)

(** ** Comparisons and enumerations *)

Lemma SignalType_eqb_eq (a b : SignalType) :
  SignalType_eqb a b = true <-> a = b.
Proof.
  split.
  - destruct a, b; simpl; intros H; try reflexivity; discriminate H.
  - intros ->. destruct b; reflexivity.
Qed.

Lemma SignalSeverity_eqb_eq (a b : SignalSeverity) :
  SignalSeverity_eqb a b = true <-> a = b.
Proof.
  split.
  - destruct a, b; simpl; intros H; try reflexivity; discriminate H.
  - intros ->. destruct b; reflexivity.
Qed.

Lemma field_is_type (x : field SignalType) (lit : SignalType) :
  field_is SignalType_eqb x lit = true <-> x = known lit.
Proof.
  destruct x as [a | raw]; simpl.
  - rewrite SignalType_eqb_eq. split; [intros -> | intros [= ->]]; reflexivity.
  - split; discriminate.
Qed.

Lemma field_is_severity (x : field SignalSeverity) (lit : SignalSeverity) :
  field_is SignalSeverity_eqb x lit = true <-> x = known lit.
Proof.
  destruct x as [a | raw]; simpl.
  - rewrite SignalSeverity_eqb_eq.
    split; [intros -> | intros [= ->]]; reflexivity.
  - split; discriminate.
Qed.

(** Swapping the operands of a comparison reverses its outcome. *)
Lemma SFcompare_swap (x y : number) :
  SFcompare y x = option_map CompOpp (SFcompare x y).
Proof.
  destruct x as [sx | sx | | sx mx ex], y as [sy | sy | | sy my ey];
    simpl; try reflexivity;
    try (destruct sx; reflexivity); try (destruct sy; reflexivity);
    try (destruct sx, sy; reflexivity).
  destruct sx, sy; simpl; try reflexivity;
    rewrite (Z.compare_antisym ex ey);
    destruct (ex ?= ey) eqn:E; simpl; try reflexivity;
    rewrite (ZC4 my mx), ?CompOpp_involutive; reflexivity.
Qed.

Lemma leb_ltb_false (x y : number) : leb x y = true -> ltb y x = false.
Proof.
  unfold leb, ltb, SFleb, SFltb. rewrite (SFcompare_swap x y).
  destruct (SFcompare x y) as [[ | | ] | ]; simpl; congruence.
Qed.

(** The order of [SFcompare] is lexicographic in sign, exponent and
    mantissa; it is transitive on all of [spec_float]. *)
Ltac compare_cases :=
  repeat match goal with
    | |- context [(?a ?= ?b)%Z] => destruct (Z.compare_spec a b)
    | |- context [(?a ?= ?b)%positive] => destruct (Pos.compare_spec a b)
    end.

Lemma leb_trans (x y z : number) :
  leb x y = true -> leb y z = true -> leb x z = true.
Proof.
  unfold leb, SFleb.
  destruct x as [sx | sx | | sx mx ex], y as [sy | sy | | sy my ey],
    z as [sz | sz | | sz mz ez]; simpl;
    try discriminate; try reflexivity;
    try (destruct sx; simpl; congruence);
    try (destruct sy; simpl; congruence);
    try (destruct sz; simpl; congruence);
    try (destruct sx, sy; simpl; congruence);
    try (destruct sy, sz; simpl; congruence);
    try (destruct sx, sz; simpl; congruence);
    try (destruct sx, sy, sz; simpl; congruence).
  all: change (Pos.compare_cont Eq) with Pos.compare.
  all: destruct sx, sy, sz; simpl; try congruence.
  all: compare_cases; simpl; try congruence; try lia.
Qed.

(** ** Property reads *)

Lemma table_get_unknown {K V : Type} (eqb : K -> K -> bool) (t : table K V)
  (raw : string) :
  table_get eqb t (unknown raw) = None.
Proof. destruct t; reflexivity. Qed.

(** A read with an ordinary key yields the table's own entry, or
    [undefined]. *)
Lemma get_ordinary {K V : Type} (eqb : K -> K -> bool) (t : table K V)
  (key : field K) :
  ordinary key -> get eqb t key = own (table_get eqb t key).
Proof.
  unfold ordinary, get, through_prototype. intros ->.
  destruct (table_get eqb t key); reflexivity.
Qed.

Lemma get_known {K V : Type} (eqb : K -> K -> bool) (t : table K V) (k : K) :
  get eqb t (known k) = own (table_get eqb t (known k)).
Proof. apply get_ordinary. reflexivity. Qed.

(** A read with the name of a property of the prototype yields that
    property. *)
Lemma get_inherited {K V : Type} (eqb : K -> K -> bool) (t : table K V)
  (raw text : string) :
  inherited raw = Some text -> get eqb t (unknown raw) = from_prototype text.
Proof.
  intros H. unfold get, through_prototype.
  rewrite table_get_unknown. simpl. rewrite H. reflexivity.
Qed.

(** As a number, a read is the table's own entry, and NaN where it has
    none. *)
Lemma lookup_number_get {K : Type} (eqb : K -> K -> bool) (t : table K number)
  (key : field K) :
  lookup_number (get eqb t key) = ToNumber (table_get eqb t key).
Proof.
  destruct key as [k | raw]; [rewrite get_known; reflexivity | ].
  unfold get, through_prototype. rewrite table_get_unknown. simpl.
  destruct (inherited raw); reflexivity.
Qed.

Lemma ordinary_dec {A : Type} (x : field A) : {ordinary x} + {~ ordinary x}.
Proof.
  unfold ordinary. destruct (field_inherited x); [right | left];
    congruence.
Qed.

Lemma ordinary_signal_dec (s : Signal) :
  {ordinary_signal s} + {~ ordinary_signal s}.
Proof.
  unfold ordinary_signal.
  destruct (ordinary_dec (type s)), (ordinary_dec (severity s));
    tauto.
Qed.

(** A signal of the two enumerations is ordinary. *)
Lemma ordinary_signal_known (s : Signal) (t : SignalType)
  (v : SignalSeverity) :
  type s = known t -> severity s = known v -> ordinary_signal s.
Proof.
  intros Ht Hv. unfold ordinary_signal. rewrite Ht, Hv.
  split; reflexivity.
Qed.

(** The score of a signal whose type and severity are ordinary comes from
    the tables' own entries. *)
Lemma signalScore_ordinary (s : Signal) :
  ordinary_signal s ->
  signalScore s
  = mul (or_default (severity_weight (severity s)) (of_Z 1))
        (or_default (type_risk_factor (type s)) (of_Z 1)).
Proof.
  intros [Ht Hs]. unfold signalScore.
  rewrite (get_ordinary _ _ _ Ht), (get_ordinary _ _ _ Hs). reflexivity.
Qed.

(** A product with NaN is NaN. *)
Lemma mul_nan_l (x : number) : mul NaN x = NaN.
Proof. destruct x; reflexivity. Qed.

Lemma mul_nan_r (x : number) : mul x NaN = NaN.
Proof. destruct x; reflexivity. Qed.

(** The score of a signal whose type or severity names a property of the
    prototype is NaN. *)
Lemma signalScore_inherited (s : Signal) :
  ~ ordinary_signal s -> signalScore s = NaN.
Proof.
  intros H. unfold signalScore, get, through_prototype.
  destruct (field_inherited (severity s)) as [a | ] eqn:Es.
  - destruct (severity s) as [v | raw]; [discriminate Es | ].
    rewrite table_get_unknown. cbn [lookup_or lookup_number].
    apply mul_nan_l.
  - destruct (field_inherited (type s)) as [b | ] eqn:Et.
    + destruct (type s) as [v | raw]; [discriminate Et | ].
      rewrite (table_get_unknown SignalType_eqb). cbn [lookup_or lookup_number].
      apply mul_nan_r.
    + exfalso. apply H. split; assumption.
Qed.

(** ** The score on concrete collections *)

(** C1 (the code departs from it): the table gives [info] the weight 0, but
    [calculateRiskScore] reads the table through [|| 1], which replaces the
    falsy 0 by 1.  An [info] signal therefore scores as a [low] one, and the
    collection with the one signal (honeypot, info) has risk score 30,
    not 0. *)
Theorem info_weight_is_read_as_one :
  severity_weight (known info) = Some (of_Z 0)
  /\ or_default (severity_weight (known info)) (of_Z 1) = of_Z 1
  /\ (forall t : SignalType,
        signalScore (sig "s" t info) = signalScore (sig "s" t low))
  /\ signalScore (sig "h" honeypot info) = of_Z 3
  /\ calculateRiskScore [sig "h" honeypot info] = of_Z 30.
Proof.
  repeat split; try (vm_compute; reflexivity).
Qed.

(** C2: for the collection (contract_risk, high), (social_sentiment, low)
    the per-signal scores are 6 and 0.8, their mean is 3.4 and their
    maximum 6, ten times the combined score lies between 44 and 44.5 and
    rounds to 44, the risk score is exactly 44, 44 is classified as medium,
    and the collection is not high risk. *)
Theorem end_to_end_example :
  let signals := [sig "a" contract_risk high; sig "b" social_sentiment low] in
  let avgScore := div (fst (score_loop signals)) (of_Z 2) in
  let maxScore := snd (score_loop signals) in
  let scaled :=
    mul (add (mul avgScore (tenths 6)) (mul maxScore (tenths 4))) (of_Z 10) in
  map signalScore signals = [of_Z 6; tenths 8]
  /\ avgScore = tenths 34
  /\ maxScore = of_Z 6
  /\ ltb (of_Z 44) scaled = true /\ ltb scaled (tenths 445) = true
  /\ Math_round scaled = of_Z 44
  /\ calculateRiskScore signals = of_Z 44
  /\ getRiskLevel (of_Z 44) = level_medium
  /\ isHighRisk signals = false.
Proof.
  repeat split; vm_compute; reflexivity.
Qed.

(** ** High risk *)

(** The override of [isHighRisk] holds exactly for the signals of type
    honeypot or rugpull_risk or of severity critical. *)
Lemma override_spec (s : Signal) :
  (field_is SignalType_eqb (type s) honeypot
   || field_is SignalType_eqb (type s) rugpull_risk
   || field_is SignalSeverity_eqb (severity s) critical) = true
  <-> type s = known honeypot \/ type s = known rugpull_risk
      \/ severity s = known critical.
Proof.
  rewrite !orb_true_iff, !field_is_type, field_is_severity. tauto.
Qed.

(** C3: [isHighRisk] is true exactly when the risk score is at least 70 or
    some signal of the collection has type honeypot, type rugpull_risk or
    severity critical; the one signal (honeypot, info) is high risk, the
    empty collection is not. *)
Theorem isHighRisk_iff :
  (forall signals,
      isHighRisk signals = true
      <-> geb (calculateRiskScore signals) (of_Z 70) = true
          \/ exists s, In s signals
                       /\ (type s = known honeypot
                           \/ type s = known rugpull_risk
                           \/ severity s = known critical))
  /\ isHighRisk [sig "h" honeypot info] = true
  /\ isHighRisk [] = false.
Proof.
  split; [ | split; vm_compute; reflexivity].
  intros signals. unfold isHighRisk.
  rewrite orb_true_iff, existsb_exists.
  split; (intros [H | (s & Hin & Hs)]; [left; exact H | right]);
    exists s; (split; [exact Hin | ]); apply override_spec; exact Hs.
Qed.

(** ** Risk levels *)

(** C5: the buckets of [getRiskLevel] are left-inclusive: below 20 safe,
    from 20 below 40 low, from 40 below 60 medium, from 60 below 80 high,
    from 80 on critical; at the boundaries, 19 is safe, 20 and 39 are low,
    40 and 59 medium, 60 and 79 high, 80 critical. *)
Theorem getRiskLevel_buckets :
  (forall score,
      (ltb score (of_Z 20) = true -> getRiskLevel score = level_safe)
      /\ (leb (of_Z 20) score = true -> ltb score (of_Z 40) = true ->
          getRiskLevel score = level_low)
      /\ (leb (of_Z 40) score = true -> ltb score (of_Z 60) = true ->
          getRiskLevel score = level_medium)
      /\ (leb (of_Z 60) score = true -> ltb score (of_Z 80) = true ->
          getRiskLevel score = level_high)
      /\ (leb (of_Z 80) score = true -> getRiskLevel score = level_critical))
  /\ map getRiskLevel
       [of_Z 19; of_Z 20; of_Z 39; of_Z 40; of_Z 59; of_Z 60; of_Z 79; of_Z 80]
     = [level_safe; level_low; level_low; level_medium; level_medium;
        level_high; level_high; level_critical].
Proof.
  split; [ | vm_compute; reflexivity].
  intros score.
  assert (H24 : leb (of_Z 20) (of_Z 40) = true) by (vm_compute; reflexivity).
  assert (H46 : leb (of_Z 40) (of_Z 60) = true) by (vm_compute; reflexivity).
  assert (H68 : leb (of_Z 60) (of_Z 80) = true) by (vm_compute; reflexivity).
  unfold getRiskLevel.
  repeat split.
  - intros ->. reflexivity.
  - intros H20 Hlt. rewrite (leb_ltb_false _ _ H20), Hlt. reflexivity.
  - intros H40 Hlt.
    pose proof (leb_trans _ _ _ H24 H40) as H20.
    rewrite (leb_ltb_false _ _ H20), (leb_ltb_false _ _ H40), Hlt.
    reflexivity.
  - intros H60 Hlt.
    pose proof (leb_trans _ _ _ H46 H60) as H40.
    pose proof (leb_trans _ _ _ H24 H40) as H20.
    rewrite (leb_ltb_false _ _ H20), (leb_ltb_false _ _ H40),
      (leb_ltb_false _ _ H60), Hlt.
    reflexivity.
  - intros H80.
    pose proof (leb_trans _ _ _ H68 H80) as H60.
    pose proof (leb_trans _ _ _ H46 H60) as H40.
    pose proof (leb_trans _ _ _ H24 H40) as H20.
    rewrite (leb_ltb_false _ _ H20), (leb_ltb_false _ _ H40),
      (leb_ltb_false _ _ H60), (leb_ltb_false _ _ H80).
    reflexivity.
Qed.

Lemma getRiskLevel_buckets_witness :
  getRiskLevel (tenths 395) = level_low.
Proof.
  apply (proj1 (proj2 (proj1 getRiskLevel_buckets (tenths 395))));
    reflexivity.
Defined.

(** ** Filters *)

Lemma severity_weight_known (v : SignalSeverity) :
  severity_weight (known v) = Some (of_Z (weightZ v)).
Proof. destruct v; reflexivity. Qed.

Lemma geb_of_Z_weight (v m : SignalSeverity) :
  geb (of_Z (weightZ v)) (of_Z (weightZ m)) = (weightZ m <=? weightZ v).
Proof. destruct v, m; vm_compute; reflexivity. Qed.

(** The test of [filterBySeverity] against a threshold of the enumeration. *)
Lemma filterBySeverity_test (m : SignalSeverity) (s : Signal) :
  lookup_geb (get SignalSeverity_eqb SEVERITY_WEIGHTS (severity s))
             (get SignalSeverity_eqb SEVERITY_WEIGHTS (known m))
  = reaches m s.
Proof.
  unfold reaches. rewrite (get_known _ _ m).
  fold (severity_weight (known m)).
  destruct (severity s) as [v | raw].
  - rewrite get_known. fold (severity_weight (known v)).
    rewrite !severity_weight_known. simpl. apply geb_of_Z_weight.
  - unfold get, through_prototype. rewrite table_get_unknown. simpl.
    destruct (inherited raw); destruct m; reflexivity.
Qed.

Lemma filterBySeverity_known (signals : list Signal) (m : SignalSeverity) :
  filterBySeverity signals (known m) = filter (reaches m) signals.
Proof.
  unfold filterBySeverity. apply filter_ext. apply filterBySeverity_test.
Qed.

(** C8: for a threshold of the enumeration, [filterBySeverity] returns, in
    their original order, exactly the signals whose severity weight is at
    least the weight of the threshold; over info, low, medium, high,
    critical the threshold medium keeps medium, high and critical. *)
Theorem filterBySeverity_spec :
  (forall signals (minSeverity : SignalSeverity),
      filterBySeverity signals (known minSeverity)
      = filter (reaches minSeverity) signals
      /\ forall s,
          In s (filterBySeverity signals (known minSeverity))
          <-> In s signals
              /\ exists v, severity s = known v
                           /\ weightZ minSeverity <= weightZ v)
  /\ filterBySeverity
       [sig "1" honeypot info; sig "2" honeypot low; sig "3" honeypot medium;
        sig "4" honeypot high; sig "5" honeypot critical] (known medium)
     = [sig "3" honeypot medium; sig "4" honeypot high;
        sig "5" honeypot critical].
Proof.
  split; [ | vm_compute; reflexivity].
  intros signals m.
  split; [apply filterBySeverity_known | ].
  intros s. rewrite filterBySeverity_known, filter_In. unfold reaches.
  split; intros [Hin H]; (split; [exact Hin | ]).
  - destruct (severity s) as [v | raw]; [ | discriminate].
    exists v. split; [reflexivity | apply Z.leb_le; exact H].
  - destruct H as (v & -> & Hle). apply Z.leb_le; exact Hle.
Qed.

(** C9: [getCriticalSignals] returns, in their original order, exactly the
    signals of severity critical or high; it is [filterBySeverity] with the
    threshold high.  Of a high, a critical and a medium signal it keeps the
    first two. *)
Theorem getCriticalSignals_spec :
  (forall signals,
      (forall s, In s (getCriticalSignals signals)
                 <-> In s signals
                     /\ (severity s = known critical
                         \/ severity s = known high))
      /\ getCriticalSignals signals
         = filter (fun s => is_critical_or_high (severity s)) signals
      /\ getCriticalSignals signals = filterBySeverity signals (known high))
  /\ getCriticalSignals
       [sig "1" honeypot high; sig "2" honeypot critical;
        sig "3" honeypot medium]
     = [sig "1" honeypot high; sig "2" honeypot critical].
Proof.
  split; [ | vm_compute; reflexivity].
  intros signals.
  assert (E : forall s,
             (field_is SignalSeverity_eqb (severity s) critical
              || field_is SignalSeverity_eqb (severity s) high)
             = is_critical_or_high (severity s)).
  { intros s. destruct (severity s) as [[ | | | | ] | raw]; reflexivity. }
  split; [ | split].
  - intros s. unfold getCriticalSignals.
    rewrite filter_In, orb_true_iff, !field_is_severity. tauto.
  - unfold getCriticalSignals. apply filter_ext. exact E.
  - rewrite filterBySeverity_known. unfold getCriticalSignals. apply filter_ext.
    intros s. rewrite E. unfold reaches.
    destruct (severity s) as [[ | | | | ] | raw]; reflexivity.
Qed.

(** ** Formatting *)

(** C10: [formatSignal] reads the severity, the title and the summary
    only: two signals that agree on these three fields, whatever they hold,
    are rendered as the same string; and for a severity of the enumeration
    that string is the severity's indicator, its upper-cased label in
    brackets, the title and the summary, joined by [" ["], ["] "] and
    [": "]. *)
Theorem formatSignal_depends_on_three_fields (s1 s2 : Signal) :
  severity s1 = severity s2 ->
  title s1 = title s2 ->
  summary s1 = summary s2 ->
  formatSignal s1 = formatSignal s2
  /\ forall v : SignalSeverity,
       severity s1 = known v ->
       formatSignal s1
       = (severity_indicator v ++ " [" ++ severity_label v ++ "] "
          ++ title s1 ++ ": " ++ summary s1)%string.
Proof.
  intros Hsev Htitle Hsummary. split.
  - unfold formatSignal. rewrite Hsev, Htitle, Hsummary. reflexivity.
  - intros v Hv. unfold formatSignal. rewrite Hv.
    destruct v; reflexivity.
Qed.

Lemma formatSignal_depends_on_three_fields_witness :
  let s1 := mkSignal "1" (known honeypot) (known high) "Trap" "Cannot sell"
              None (of_Z 1) None in
  let s2 := mkSignal "2" (known whale_movement) (known high) "Trap"
              "Cannot sell" (Some "more"%string) (of_Z 2)
              (Some [("k"%string, "v"%string)]) in
  formatSignal s1 = formatSignal s2
  /\ formatSignal s1
     = (severity_indicator high ++ " [" ++ severity_label high ++ "] "
        ++ title s1 ++ ": " ++ summary s1)%string.
Proof.
  intros s1 s2.
  destruct (formatSignal_depends_on_three_fields s1 s2) as [Hsame Hform];
    [reflexivity | reflexivity | reflexivity | ].
  split; [exact Hsame | apply (Hform high); reflexivity].
Defined.

(** ** Sorting *)

(** Stable insertion under a comparator that orders by a key, larger keys
    first: the result is a permutation, it is ordered, and the elements of
    every key keep their order. *)
Section InsertionByKey.
Context {A : Type}.
Variable comparefn : A -> A -> number.
Variable key : A -> Z.
Variable dom : A -> Prop.
Hypothesis comparefn_key :
  forall x y, dom x -> dom y ->
              sorts_after comparefn x y = (key x <? key y).

Lemma sort_insert_perm (x : A) (l : list A) :
  Permutation (x :: l) (sort_insert comparefn x l).
Proof.
  induction l as [ | y l IH]; simpl.
  - apply Permutation_refl.
  - destruct (sorts_after comparefn x y).
    + apply perm_trans with (y :: x :: l).
      * apply perm_swap.
      * apply perm_skip. exact IH.
    + apply Permutation_refl.
Qed.

Lemma sort_elements_perm (l : list A) :
  Permutation l (sort_elements comparefn l).
Proof.
  induction l as [ | x l IH]; simpl.
  - apply perm_nil.
  - apply perm_trans with (x :: sort_elements comparefn l).
    + apply perm_skip. exact IH.
    + apply sort_insert_perm.
Qed.

Lemma sort_elements_dom (l : list A) :
  Forall dom l -> Forall dom (sort_elements comparefn l).
Proof.
  intros H. rewrite Forall_forall in *. intros x Hx. apply H.
  apply Permutation_in with (sort_elements comparefn l);
    [apply Permutation_sym, sort_elements_perm | exact Hx].
Qed.

Lemma sort_insert_sorted (x : A) (l : list A) :
  dom x -> Forall dom l ->
  StronglySorted (key_order key) l ->
  StronglySorted (key_order key) (sort_insert comparefn x l).
Proof.
  intros Hx Hl Hs. induction Hs as [ | y l Hs IH Hy]; simpl.
  - constructor; [constructor | constructor].
  - inversion Hl as [ | ? ? Hdy Hdl]; subst.
    rewrite (comparefn_key x y Hx Hdy).
    destruct (key x <? key y) eqn:E.
    + apply Z.ltb_lt in E. constructor; [apply IH; exact Hdl | ].
      rewrite Forall_forall. intros z Hz.
      apply Permutation_in with (l' := x :: l) in Hz;
        [ | apply Permutation_sym, sort_insert_perm].
      destruct Hz as [<- | Hz].
      * unfold key_order. lia.
      * rewrite Forall_forall in Hy. apply Hy. exact Hz.
    + apply Z.ltb_ge in E. constructor.
      * constructor; assumption.
      * constructor; [exact E | ].
        rewrite Forall_forall in *. intros z Hz.
        specialize (Hy z Hz). unfold key_order in *. lia.
Qed.

Lemma sort_elements_sorted (l : list A) :
  Forall dom l -> StronglySorted (key_order key) (sort_elements comparefn l).
Proof.
  induction l as [ | x l IH]; simpl; intros H.
  - constructor.
  - inversion H; subst.
    apply sort_insert_sorted;
      [assumption | apply sort_elements_dom; assumption | apply IH; assumption].
Qed.

Lemma sort_insert_stable (w : Z) (x : A) (l : list A) :
  dom x -> Forall dom l ->
  filter (fun a => key a =? w) (sort_insert comparefn x l)
  = filter (fun a => key a =? w) (x :: l).
Proof.
  intros Hx Hl. induction Hl as [ | y l Hy Hl IH]; [reflexivity | ].
  simpl sort_insert. rewrite (comparefn_key x y Hx Hy).
  destruct (key x <? key y) eqn:E; [ | reflexivity].
  apply Z.ltb_lt in E.
  cbn [filter]. rewrite IH. cbn [filter].
  destruct (key y =? w) eqn:Ey, (key x =? w) eqn:Ex; try reflexivity.
  apply Z.eqb_eq in Ey, Ex. lia.
Qed.

Lemma sort_elements_stable (w : Z) (l : list A) :
  Forall dom l ->
  filter (fun a => key a =? w) (sort_elements comparefn l)
  = filter (fun a => key a =? w) l.
Proof.
  induction l as [ | x l IH]; simpl; intros H; [reflexivity | ].
  inversion H; subst.
  rewrite sort_insert_stable;
    [ | assumption | apply sort_elements_dom; assumption].
  cbn [filter]. rewrite IH by assumption. reflexivity.
Qed.
End InsertionByKey.

(** A list ordered by a key, larger keys first, is determined by the
    sub-lists of its elements of each key: two stable sorts of the same
    list agree. *)
Lemma stable_sorted_unique {A : Type} (key : A -> Z) (l1 : list A) :
  forall l2,
    StronglySorted (key_order key) l1 ->
    StronglySorted (key_order key) l2 ->
    (forall w, filter (fun a => key a =? w) l1
               = filter (fun a => key a =? w) l2) ->
    l1 = l2.
Proof.
  assert (Hhead : forall (a : A) (l : list A) (m : list A),
             StronglySorted (key_order key) m ->
             filter (fun c => key c =? key a) (a :: l)
             = filter (fun c => key c =? key a) m ->
             exists b m', m = b :: m' /\ key a <= key b).
  { intros a l m Hm E. cbn [filter] in E. rewrite Z.eqb_refl in E.
    destruct m as [ | b m']; [discriminate E | ].
    exists b, m'. split; [reflexivity | ].
    assert (Hin : In a (filter (fun c => key c =? key a) (b :: m')))
      by (rewrite <- E; left; reflexivity).
    apply filter_In in Hin. destruct Hin as [[<- | Hin] _]; [lia | ].
    apply StronglySorted_inv in Hm. destruct Hm as [_ Hb].
    rewrite Forall_forall in Hb. apply Hb in Hin. exact Hin. }
  induction l1 as [ | a l1 IH]; intros l2 H1 H2 E.
  - destruct l2 as [ | b l2]; [reflexivity | ].
    specialize (E (key b)). cbn [filter] in E. rewrite Z.eqb_refl in E.
    discriminate E.
  - destruct (Hhead a l1 l2 H2 (E (key a))) as (b & l2' & -> & Hab).
    destruct (Hhead b l2' (a :: l1) H1 (eq_sym (E (key b))))
      as (a' & l1'' & Ea & Hba).
    injection Ea as <- <-.
    assert (Hk : key a = key b) by lia.
    pose proof (E (key a)) as Ew. cbn [filter] in Ew.
    rewrite Z.eqb_refl, <- Hk, Z.eqb_refl in Ew.
    injection Ew as <- Ew.
    f_equal. apply IH.
    + apply StronglySorted_inv in H1. apply H1.
    + apply StronglySorted_inv in H2. apply H2.
    + intros w. specialize (E w). cbn [filter] in E.
      destruct (key a =? w); [injection E as E | ]; exact E.
Qed.

(** The store. *)
Lemma read_alloc_new (st : Store.store) (elements : list Signal) :
  Store.read (fst (Store.alloc st elements)) (snd (Store.alloc st elements))
  = Some elements.
Proof.
  unfold Store.read, Store.alloc. simpl.
  rewrite nth_error_app2 by lia. rewrite Nat.sub_diag. reflexivity.
Qed.

Lemma read_alloc_old (st : Store.store) (elements : list Signal)
  (r : Store.ref) :
  r <> snd (Store.alloc st elements) ->
  Store.read (fst (Store.alloc st elements)) r = Store.read st r.
Proof.
  unfold Store.read, Store.alloc. simpl. intros Hr.
  destruct (Nat.lt_ge_cases r (List.length st)) as [Hlt | Hge].
  - apply nth_error_app1. exact Hlt.
  - transitivity (@None (list Signal)).
    + apply nth_error_None. rewrite length_app. simpl. lia.
    + symmetry. apply nth_error_None. exact Hge.
Qed.

Lemma read_write_same (st : Store.store) (r : Store.ref)
  (old elements : list Signal) :
  Store.read st r = Some old ->
  Store.read (Store.write st r elements) r = Some elements.
Proof.
  unfold Store.read. revert r.
  induction st as [ | a st IH]; intros [ | r]; simpl; try discriminate.
  - reflexivity.
  - apply IH.
Qed.

Lemma read_write_other (st : Store.store) (r r' : Store.ref)
  (elements : list Signal) :
  r' <> r ->
  Store.read (Store.write st r elements) r' = Store.read st r'.
Proof.
  unfold Store.read. revert r r'.
  induction st as [ | a st IH]; intros [ | r] [ | r'] H; simpl;
    try reflexivity; try congruence.
  apply IH. congruence.
Qed.

Lemma StronglySorted_impl {A : Type} (R R' : A -> A -> Prop) (P : A -> Prop)
  (l : list A) :
  (forall a b, P a -> P b -> R a b -> R' a b) ->
  Forall P l -> StronglySorted R l -> StronglySorted R' l.
Proof.
  intros HR HP Hs. induction Hs as [ | a l Hs IH Ha]; constructor.
  - apply IH. inversion HP; assumption.
  - inversion HP as [ | ? ? Pa Pl]; subst.
    rewrite Forall_forall in *. intros b Hb.
    apply HR; [exact Pa | apply Pl; exact Hb | apply Ha; exact Hb].
Qed.

Lemma bySeverity_key (x y : Signal) :
  recognized x -> recognized y ->
  sorts_after bySeverity x y = (weight_key x <? weight_key y).
Proof.
  intros [vx Hx] [vy Hy].
  unfold sorts_after, bySeverity, weight_key, known_weight.
  rewrite Hx, Hy. destruct vx, vy; vm_compute; reflexivity.
Qed.

(** Whatever stable sorting algorithm an engine uses, on signals with
    severities of the enumeration its result is the one of the model. *)
Lemma sort_by_severity_unique (xs ys : list Signal) :
  Forall recognized xs ->
  StronglySorted (key_order weight_key) ys ->
  (forall w, filter (fun s => weight_key s =? w) ys
             = filter (fun s => weight_key s =? w) xs) ->
  ys = sort_elements bySeverity xs.
Proof.
  intros Hrec Hsorted Hstable.
  apply (stable_sorted_unique weight_key); [exact Hsorted | | ].
  - apply sort_elements_sorted with (dom := recognized);
      [apply bySeverity_key | exact Hrec].
  - intros w. rewrite Hstable. symmetry.
    apply sort_elements_stable with (dom := recognized);
      [apply bySeverity_key | exact Hrec].
Qed.

(** C7: [sortBySeverity] leaves the array it is given, and every other
    array of the store, as it was, and returns a new array holding a
    permutation of the elements; when the severities are of the
    enumeration, the new array is ordered by non-increasing severity weight
    and the signals of each weight are in their original order.  From
    A (high), B (medium), C (high) it makes A, C, B. *)
Theorem sortBySeverity_stable_and_pure :
  (forall st signals xs,
      Store.read st signals = Some xs ->
      exists st' out ys,
        sortBySeverity st signals = Some (st', out)
        /\ out <> signals
        /\ Store.read st' signals = Some xs
        /\ (forall r, r <> out -> Store.read st' r = Store.read st r)
        /\ Store.read st' out = Some ys
        /\ Permutation xs ys
        /\ (Forall recognized xs ->
            StronglySorted not_lighter ys
            /\ forall w, filter (weighs w) ys = filter (weighs w) xs))
  /\ (let a := sig "A" honeypot high in
      let b := sig "B" honeypot medium in
      let c := sig "C" honeypot high in
      sortBySeverity [[a; b; c]] 0%nat = Some ([[a; b; c]; [a; c; b]], 1%nat))
  /\ sortBySeverity [[]] 0%nat = Some ([[]; []], 1%nat).
Proof.
  split; [ | split; vm_compute; reflexivity].
  intros st signals xs Hread.
  pose (st1 := fst (Store.alloc st xs)).
  pose (out := snd (Store.alloc st xs)).
  pose (ys := sort_elements bySeverity xs).
  assert (Hfresh : out <> signals).
  { unfold out, Store.alloc. simpl. intros E.
    assert (Some xs <> None) as Hne by discriminate.
    apply Hne. rewrite <- Hread. apply nth_error_None. lia. }
  assert (Hnew : Store.read st1 out = Some xs) by apply read_alloc_new.
  exists (Store.write st1 out ys), out, ys.
  split; [ | split; [exact Hfresh | split; [ | split; [ | split; [ | split]]]]].
  - unfold sortBySeverity, Store.spread. rewrite Hread.
    change (Store.alloc st xs) with (st1, out).
    unfold Store.Array_sort. rewrite Hnew. reflexivity.
  - rewrite read_write_other by (intros E; apply Hfresh; symmetry; exact E).
    unfold st1.
    rewrite read_alloc_old by (intros E; apply Hfresh; symmetry; exact E).
    exact Hread.
  - intros r Hr. rewrite read_write_other by exact Hr.
    apply read_alloc_old. exact Hr.
  - apply read_write_same with (old := xs). exact Hnew.
  - apply sort_elements_perm.
  - intros Hrec.
    assert (Hrec' : Forall recognized ys)
      by (apply sort_elements_dom; exact Hrec).
    split.
    + apply StronglySorted_impl
        with (R := key_order weight_key) (P := recognized).
      * intros a b [va Ha] [vb Hb]. unfold key_order, weight_key, not_lighter.
        unfold known_weight. rewrite Ha, Hb. intros H.
        exists (weightZ va), (weightZ vb). auto.
      * exact Hrec'.
      * apply sort_elements_sorted with (dom := recognized);
          [apply bySeverity_key | exact Hrec].
    + intros w.
      assert (E : forall l, Forall recognized l ->
                 filter (weighs w) l
                 = filter (fun a => weight_key a =? w) l).
      { intros l Hl. induction Hl as [ | s l [v Hs] Hl IH]; [reflexivity | ].
        simpl. rewrite IH. unfold weighs, weight_key, known_weight.
        rewrite Hs. reflexivity. }
      rewrite !E by assumption.
      apply sort_elements_stable with (dom := recognized);
        [apply bySeverity_key | exact Hrec].
Qed.

Lemma sortBySeverity_stable_and_pure_witness :
  let a := sig "A" honeypot high in
  let b := sig "B" honeypot medium in
  let c := sig "C" honeypot high in
  exists st' out ys,
    sortBySeverity [[a; b; c]] 0%nat = Some (st', out)
    /\ out <> 0%nat
    /\ Store.read st' 0%nat = Some [a; b; c]
    /\ (forall r, r <> out -> Store.read st' r = Store.read [[a; b; c]] r)
    /\ Store.read st' out = Some ys
    /\ Permutation [a; b; c] ys
    /\ (Forall recognized [a; b; c] ->
        StronglySorted not_lighter ys
        /\ forall w, filter (weighs w) ys = filter (weighs w) [a; b; c]).
Proof.
  intros a b c.
  apply (proj1 sortBySeverity_stable_and_pure [[a; b; c]] 0%nat [a; b; c]).
  reflexivity.
Defined.

(** * Binary64 arithmetic

    What [SpecFloat] computes on positive normal numbers, stated on their
    values. *)

(** ** Digits and shifts *)

(** [digits2_pos m] is the number of bits of [m]. *)
Lemma digits2_pos_bounds (m : positive) :
  2 ^ (Zpos (digits2_pos m) - 1) <= Zpos m < 2 ^ Zpos (digits2_pos m).
Proof.
  induction m as [m IH | m IH | ]; cbn [digits2_pos].
  - rewrite Pos2Z.inj_succ.
    replace (Z.succ (Zpos (digits2_pos m)) - 1)
      with (Z.succ (Zpos (digits2_pos m) - 1)) by lia.
    rewrite !Z.pow_succ_r by lia. lia.
  - rewrite Pos2Z.inj_succ.
    replace (Z.succ (Zpos (digits2_pos m)) - 1)
      with (Z.succ (Zpos (digits2_pos m) - 1)) by lia.
    rewrite !Z.pow_succ_r by lia. lia.
  - simpl. lia.
Qed.

Lemma digits2_pos_unique (m : positive) (d : Z) :
  2 ^ (d - 1) <= Zpos m < 2 ^ d -> Zpos (digits2_pos m) = d.
Proof.
  intros [Hlo Hhi]. pose proof (digits2_pos_bounds m) as [Hlo' Hhi'].
  assert (0 < d).
  { destruct (Z.lt_trichotomy d 0) as [H | [H | H]]; [ | | exact H].
    - rewrite Z.pow_neg_r in Hhi by lia. lia.
    - subst d. simpl in Hhi. lia. }
  assert (d - 1 < Zpos (digits2_pos m)).
  { apply (Z.pow_lt_mono_r_iff 2); lia. }
  assert (Zpos (digits2_pos m) - 1 < d).
  { apply (Z.pow_lt_mono_r_iff 2); lia. }
  lia.
Qed.

Lemma shr_1_m (mrs : shr_record) :
  0 <= shr_m mrs -> shr_m (shr_1 mrs) = shr_m mrs / 2.
Proof.
  destruct mrs as [m r s]. cbn [shr_1 shr_m]. intros Hm.
  destruct m as [ | [m | m | ] | ]; cbn [shr_m]; try lia; try reflexivity.
  - change (Z.pos m~1) with (2 * Z.pos m + 1).
    apply Z.div_unique with 1; lia.
  - change (Z.pos m~0) with (2 * Z.pos m).
    apply Z.div_unique with 0; lia.
Qed.

(** A shift by one bit halves the mantissa and keeps the location. *)
Lemma shr_1_located (p q : Z) (mrs : shr_record) :
  0 < q -> 0 <= shr_m mrs ->
  located p q mrs -> located p (2 * q) (shr_1 mrs).
Proof.
  destruct mrs as [m r s]. unfold located.
  cbn [shr_1 shr_m shr_r shr_s]. intros Hq Hm.
  destruct m as [ | [m | m | ] | ]; try lia.
  - destruct r, s; cbn [orb shr_m shr_r shr_s]; intros H; lia.
  - change (Z.pos m~1) with (2 * Z.pos m + 1).
    generalize (Z.pos m) (Pos2Z.is_pos m). intros k Hk.
    destruct r, s; cbn [orb shr_m shr_r shr_s]; intros H; lia.
  - change (Z.pos m~0) with (2 * Z.pos m).
    generalize (Z.pos m) (Pos2Z.is_pos m). intros k Hk.
    destruct r, s; cbn [orb shr_m shr_r shr_s]; intros H; lia.
  - destruct r, s; cbn [orb shr_m shr_r shr_s]; intros H; lia.
Qed.

(** So does a shift by [n] bits, which divides by [2^n]. *)
Lemma iter_shr_1 (n : positive) :
  forall (p q : Z) (mrs : shr_record),
    0 < q -> 0 <= shr_m mrs -> located p q mrs ->
    located p (2 ^ Zpos n * q) (iter_pos shr_1 n mrs)
    /\ shr_m (iter_pos shr_1 n mrs) = shr_m mrs / 2 ^ Zpos n.
Proof.
  induction n as [n IH | n IH | ]; intros p q mrs Hq Hm Hloc; cbn [iter_pos].
  - pose proof (shr_1_located p q mrs Hq Hm Hloc) as H1.
    pose proof (shr_1_m mrs Hm) as M1.
    assert (Hm1 : 0 <= shr_m (shr_1 mrs))
      by (rewrite M1; apply Z.div_pos; lia).
    assert (Hpow : 0 < 2 ^ Zpos n) by (apply Z.pow_pos_nonneg; lia).
    destruct (IH p (2 * q) (shr_1 mrs)) as [H2 M2];
      [lia | exact Hm1 | exact H1 | ].
    assert (Hm2 : 0 <= shr_m (iter_pos shr_1 n (shr_1 mrs)))
      by (rewrite M2; apply Z.div_pos; lia).
    destruct (IH p (2 ^ Zpos n * (2 * q)) (iter_pos shr_1 n (shr_1 mrs)))
      as [H3 M3]; [lia | exact Hm2 | exact H2 | ].
    change (Z.pos n~1) with (2 * Z.pos n + 1).
    replace (2 ^ (2 * Z.pos n + 1)) with (2 * 2 ^ Zpos n * 2 ^ Zpos n)
      by (replace (2 * Z.pos n + 1) with (Z.pos n + Z.pos n + 1) by lia;
          rewrite !Z.pow_add_r, Z.pow_1_r by lia; ring).
    split.
    + replace (2 * 2 ^ Z.pos n * 2 ^ Z.pos n * q)
        with (2 ^ Z.pos n * (2 ^ Z.pos n * (2 * q))) by ring.
      exact H3.
    + rewrite M3, M2, M1. rewrite !Z.div_div by lia.
      f_equal. ring.
  - assert (Hpow : 0 < 2 ^ Zpos n) by (apply Z.pow_pos_nonneg; lia).
    destruct (IH p q mrs) as [H2 M2]; [lia | exact Hm | exact Hloc | ].
    assert (Hm2 : 0 <= shr_m (iter_pos shr_1 n mrs))
      by (rewrite M2; apply Z.div_pos; lia).
    destruct (IH p (2 ^ Zpos n * q) (iter_pos shr_1 n mrs))
      as [H3 M3]; [lia | exact Hm2 | exact H2 | ].
    change (Z.pos n~0) with (2 * Z.pos n).
    replace (2 ^ (2 * Z.pos n)) with (2 ^ Zpos n * 2 ^ Zpos n)
      by (rewrite <- Z.pow_add_r by lia; f_equal; lia).
    split.
    + replace (2 ^ Z.pos n * 2 ^ Z.pos n * q)
        with (2 ^ Z.pos n * (2 ^ Z.pos n * q)) by ring.
      exact H3.
    + rewrite M3, M2. rewrite !Z.div_div by lia. reflexivity.
  - split.
    + change (2 ^ 1) with 2. apply shr_1_located; assumption.
    + change (2 ^ 1) with 2. apply shr_1_m; assumption.
Qed.

Lemma located_between (p q : Z) (mrs : shr_record) :
  0 < q -> located p q mrs ->
  shr_m mrs * q <= p < (shr_m mrs + 1) * q.
Proof.
  destruct mrs as [m r s]. unfold located. cbn [shr_m shr_r shr_s].
  intros Hq. destruct r, s; intros H; lia.
Qed.

(** Rounding a located mantissa yields an integer nearest to the
    rational, the even one on a tie. *)
Lemma round_nearest_even_located (p q : Z) (mrs : shr_record) :
  0 < q -> located p q mrs ->
  let m' := round_nearest_even (shr_m mrs) (loc_of_shr_record mrs) in
  shr_m mrs <= m' <= shr_m mrs + 1 /\ nearest p q m'.
Proof.
  destruct mrs as [m r s]. unfold located, nearest.
  cbn [shr_m shr_r shr_s loc_of_shr_record]. intros Hq.
  destruct r, s; cbn [round_nearest_even]; intros H.
  - split; [lia | split; [lia | intros [H1 | H1]; lia]].
  - destruct (Z.even m) eqn:E.
    + split; [lia | split; [lia | intros _; exact E]].
    + split; [lia | split; [lia | intros _]].
      rewrite Z.even_add, E. reflexivity.
  - split; [lia | split; [lia | intros [H1 | H1]; lia]].
  - split; [lia | split; [lia | intros [H1 | H1]; lia]].
Qed.

(** ** Rounding a located mantissa *)

Lemma fexp_normal (e : Z) : -1021 <= e -> fexp prec emax e = e - 53.
Proof. unfold fexp, emin, prec, emax. lia. Qed.

Lemma shr_located (p q : Z) (mrs : shr_record) (e n : Z) :
  0 < q -> 0 <= shr_m mrs -> 0 <= n -> located p q mrs ->
  located p (2 ^ n * q) (fst (shr mrs e n))
  /\ shr_m (fst (shr mrs e n)) = shr_m mrs / 2 ^ n
  /\ snd (shr mrs e n) = e + n.
Proof.
  intros Hq Hm Hn Hloc. destruct n as [ | n | n]; [ | | lia].
  - cbn [shr fst snd]. rewrite Z.pow_0_r, Z.mul_1_l, Z.div_1_r.
    repeat split; [exact Hloc | lia].
  - cbn [shr fst snd].
    destruct (iter_shr_1 n p q mrs Hq Hm Hloc) as [H1 H2].
    repeat split; assumption.
Qed.

(** [binary_round_aux] on a mantissa of at least 53 bits whose rounded
    value is a normal number: the result is canonical, and its mantissa is
    nearest to the rational the mantissa and the location stand for. *)
Lemma binary_round_aux_normal (mx : positive) (ex : Z) (lx : location)
  (p q : Z) :
  let n := Zpos (digits2_pos mx) - 53 in
  0 <= n -> -1074 <= ex + n <= 970 -> 0 < q ->
  located p q (shr_record_of_loc (Zpos mx) lx) ->
  exists (m2 : Z) (m' : positive) (e' : Z),
    binary_round_aux prec emax false (Zpos mx) ex lx = S754_finite false m' e'
    /\ 2 ^ 52 <= Zpos m' < 2 ^ 53 /\ ex + n <= e' <= ex + n + 1
    /\ Zpos m' * 2 ^ (e' + scale) = m2 * 2 ^ (ex + n + scale)
    /\ 2 ^ 52 <= m2 <= 2 ^ 53
    /\ nearest p (2 ^ n * q) m2
    /\ 2 ^ 52 * (2 ^ n * q) <= p < 2 ^ 53 * (2 ^ n * q).
Proof.
  intros n Hn He Hq Hloc.
  pose proof (digits2_pos_bounds mx) as Hd.
  assert (Hm0 : 0 <= shr_m (shr_record_of_loc (Zpos mx) lx))
    by (destruct lx as [ | [ | | ]]; cbn; lia).
  assert (Hm0' : shr_m (shr_record_of_loc (Zpos mx) lx) = Zpos mx)
    by (destruct lx as [ | [ | | ]]; reflexivity).
  unfold binary_round_aux, shr_fexp.
  cbn [Zdigits2].
  rewrite fexp_normal by (fold n in He |- *; lia).
  replace (Z.pos (digits2_pos mx) + ex - 53 - ex) with n by (unfold n; lia).
  destruct (shr_located p q _ ex n Hq Hm0 Hn Hloc) as (L1 & M1 & E1).
  destruct (shr (shr_record_of_loc (Z.pos mx) lx) ex n) as [mrs1 e1].
  cbn [fst snd] in L1, M1, E1. subst e1. rewrite Hm0' in M1.
  assert (Hpn : 0 < 2 ^ n) by (apply Z.pow_pos_nonneg; lia).
  assert (Hm1 : 2 ^ 52 <= shr_m mrs1 < 2 ^ 53).
  { rewrite M1.
    replace (Zpos (digits2_pos mx)) with (n + 53) in Hd by (unfold n; lia).
    replace (n + 53 - 1) with (52 + n) in Hd by lia.
    rewrite (Z.add_comm n 53) in Hd.
    rewrite !Z.pow_add_r in Hd by lia.
    split.
    - apply Z.div_le_lower_bound; lia.
    - apply Z.div_lt_upper_bound; lia. }
  assert (Hq1 : 0 < 2 ^ n * q) by lia.
  destruct (round_nearest_even_located p (2 ^ n * q) mrs1 Hq1 L1) as [R1 R2].
  pose proof (located_between p (2 ^ n * q) mrs1 Hq1 L1) as B1.
  set (m2 := round_nearest_even (shr_m mrs1) (loc_of_shr_record mrs1)) in *.
  exists m2.
  assert (Hm2 : 2 ^ 52 <= m2 <= 2 ^ 53) by lia.
  destruct m2 as [ | m2p | m2p] eqn:Em2; [lia | | lia].
  cbn [shr_record_of_loc Zdigits2].
  destruct (Z.eq_dec (Zpos m2p) (2 ^ 53)) as [Ecarry | Encarry].
  - (* the mantissa carried to 2^53 *)
    assert (m2p = 9007199254740992%positive) by (injection Ecarry; auto).
    subst m2p.
    change (Z.pos (digits2_pos 9007199254740992)) with 54.
    replace (fexp prec emax (54 + (ex + n)) - (ex + n)) with 1
      by (rewrite fexp_normal; lia).
    cbn [shr iter_pos shr_1 shr_m].
    replace (ex + n + 1 <=? emax - prec) with true
      by (symmetry; apply Z.leb_le; unfold emax, prec; lia).
    exists 4503599627370496%positive, (ex + n + 1).
    split; [reflexivity | ].
    split; [lia | split; [lia | ]].
    split.
    { replace (ex + n + 1 + scale) with (ex + n + scale + 1) by lia.
      rewrite Z.pow_add_r by (unfold scale; lia). lia. }
    split; [lia | split; [exact R2 | ]].
    nia.
  - assert (Hdig : Zpos (digits2_pos m2p) = 53)
      by (apply digits2_pos_unique; lia).
    rewrite Hdig.
    replace (fexp prec emax (53 + (ex + n)) - (ex + n)) with 0
      by (rewrite fexp_normal; lia).
    cbn [shr shr_m].
    replace (ex + n <=? emax - prec) with true
      by (symmetry; apply Z.leb_le; unfold emax, prec; lia).
    exists m2p, (ex + n).
    split; [reflexivity | ].
    split; [lia | split; [lia | ]].
    split; [reflexivity | ].
    split; [lia | split; [exact R2 | ]].
    nia.
Qed.

(** ** The rounding relation *)

Lemma pow2_pos (e : Z) : 0 <= e -> 0 < 2 ^ e.
Proof. intros. apply Z.pow_pos_nonneg; lia. Qed.

Lemma pow2_double (a b : Z) : 0 <= a < b -> 2 * 2 ^ a <= 2 ^ b.
Proof.
  intros H. replace b with (a + 1 + (b - a - 1)) by lia.
  rewrite !Z.pow_add_r, Z.pow_1_r by lia.
  pose proof (pow2_pos a ltac:(lia)).
  pose proof (pow2_pos (b - a - 1) ltac:(lia)).
  nia.
Qed.

(** Rounding is monotone. *)
Lemma rounding_mono {A1 B1 A2 B2 : Z} {z1 z2 : number} :
  0 < B1 -> 0 < B2 -> rounding A1 B1 z1 -> rounding A2 B2 z2 ->
  A1 * B2 <= A2 * B1 -> units z1 <= units z2.
Proof.
  intros HB1 HB2 (E1 & m1 & HE1 & Hm1 & V1 & [N1 T1] & R1)
    (E2 & m2 & HE2 & Hm2 & V2 & [N2 T2] & R2) HA.
  rewrite V1, V2.
  pose proof (pow2_pos E1 HE1) as P1. pose proof (pow2_pos E2 HE2) as P2.
  destruct (Z.lt_trichotomy E1 E2) as [Hlt | [Heq | Hgt]].
  - pose proof (pow2_double E1 E2 ltac:(lia)). nia.
  - subst E2. 
    destruct (Z_le_gt_dec m1 m2) as [Hle | Hgt]; [nia | exfalso].
    set (D1 := 2 ^ E1 * B1) in *. set (D2 := 2 ^ E1 * B2) in *.
    assert (HD1 : 0 < D1) by (unfold D1; nia).
    assert (HD2 : 0 < D2) by (unfold D2; nia).
    assert (HA' : A1 * D2 <= A2 * D1) by (unfold D1, D2; nia).
    assert (X1 : 0 <= 2 * A1 - (2 * m2 + 1) * D1) by nia.
    assert (X2 : 0 <= (2 * m2 + 1) * D2 - 2 * A2) by nia.
    assert (S : (2 * A1 - (2 * m2 + 1) * D1) * D2
                + ((2 * m2 + 1) * D2 - 2 * A2) * D1 <= 0) by nia.
    assert (Z1 : 2 * A1 - (2 * m2 + 1) * D1 = 0) by nia.
    assert (Z2 : (2 * m2 + 1) * D2 - 2 * A2 = 0) by nia.
    assert (Em : m1 = m2 + 1) by nia.
    assert (Ev1 : Z.even m1 = true) by (apply T1; right; nia).
    assert (Ev2 : Z.even m2 = true) by (apply T2; left; nia).
    subst m1. rewrite Z.even_add, Ev2 in Ev1. discriminate.
  - exfalso. pose proof (pow2_double E2 E1 ltac:(lia)).
    assert (2 ^ 53 * (2 ^ E2 * B1) <= A1) by nia.
    assert (A2 * B1 < 2 ^ 53 * (2 ^ E2 * B2) * B1) by nia.
    nia.
Qed.

(** A normal number is its own rounding. *)
Lemma rounding_self (x : number) : normal x -> rounding (units x) 1 x.
Proof.
  intros (m & e & -> & Hm & He). exists (e + scale), (Zpos m).
  pose proof (pow2_pos (e + scale) ltac:(unfold scale; lia)).
  cbn [units]. unfold nearest, scale in *.
  repeat split; try lia; try nia.
Qed.

(** The relative error of rounding is at most 2^-53. *)
Lemma rounding_error {A B : Z} {z : number} :
  0 < B -> rounding A B z -> (2 ^ 53 - 1) * A <= 2 ^ 53 * (units z * B).
Proof.
  intros HB (E & m2 & HE & Hm2 & Vz & [N T] & R).
  rewrite Vz. pose proof (pow2_pos E HE). nia.
Qed.

Lemma normal_leb (x y : number) :
  normal x -> normal y -> leb x y = (units x <=? units y).
Proof.
  intros (mx & ex & -> & Hmx & Hex) (my & ey & -> & Hmy & Hey).
  unfold leb, SFleb. cbn [SFcompare units].
  change (Pos.compare_cont Eq mx my) with (Pos.compare mx my).
  destruct (Z.compare_spec ex ey) as [Heq | Hlt | Hgt].
  - subst ey. pose proof (pow2_pos (ex + scale) ltac:(unfold scale; lia)).
    destruct (Pos.compare_spec mx my) as [E | E | E]; symmetry.
    + subst. apply Z.leb_le. lia.
    + apply Z.leb_le. nia.
    + apply Z.leb_gt. nia.
  - symmetry. apply Z.leb_le.
    pose proof (pow2_double (ex + scale) (ey + scale) ltac:(unfold scale; lia)).
    pose proof (pow2_pos (ex + scale) ltac:(unfold scale; lia)). nia.
  - symmetry. apply Z.leb_gt.
    pose proof (pow2_double (ey + scale) (ex + scale) ltac:(unfold scale; lia)).
    pose proof (pow2_pos (ey + scale) ltac:(unfold scale; lia)). nia.
Qed.

Lemma normal_units_pos (x : number) : normal x -> 0 < units x.
Proof.
  intros (m & e & -> & Hm & He). cbn [units].
  pose proof (pow2_pos (e + scale) ltac:(unfold scale; lia)). nia.
Qed.

(** On normal numbers [SFcompare] is the comparison of the values. *)
Lemma normal_compare (x y : number) :
  normal x -> normal y -> SFcompare x y = Some (units x ?= units y).
Proof.
  intros (mx & ex & -> & Hmx & Hex) (my & ey & -> & Hmy & Hey).
  cbn [SFcompare units].
  change (Pos.compare_cont Eq mx my) with (Pos.compare mx my).
  f_equal. symmetry.
  destruct (Z.compare_spec ex ey) as [Heq | Hlt | Hgt].
  - subst ey. pose proof (pow2_pos (ex + scale) ltac:(unfold scale; lia)).
    destruct (Pos.compare_spec mx my) as [E | E | E].
    + subst. apply Z.compare_refl.
    + apply Z.compare_lt_iff. nia.
    + apply Z.compare_gt_iff. nia.
  - apply Z.compare_lt_iff.
    pose proof (pow2_double (ex + scale) (ey + scale) ltac:(unfold scale; lia)).
    pose proof (pow2_pos (ex + scale) ltac:(unfold scale; lia)). nia.
  - apply Z.compare_gt_iff.
    pose proof (pow2_double (ey + scale) (ex + scale) ltac:(unfold scale; lia)).
    pose proof (pow2_pos (ey + scale) ltac:(unfold scale; lia)). nia.
Qed.

Lemma nearest_scale (p Q A D m : Z) :
  0 < Q -> 0 < D -> A * Q = p * D -> nearest p Q m -> nearest A D m.
Proof.
  intros HQ HD Hlink [N T]. unfold nearest.
  assert (E : (A - m * D) * Q = (p - m * Q) * D) by nia.
  split; [nia | ].
  intros [H | H]; apply T; [left | right]; nia.
Qed.

(** The same, as a rounding of [A/B] when [A/B] is the value that
    [(p/q) * 2^ex] has in units of [2^-scale]. *)
Lemma binary_round_aux_rounding (mx : positive) (ex : Z) (lx : location)
  (p q A B : Z) :
  let n := Zpos (digits2_pos mx) - 53 in
  0 <= n -> -1074 <= ex + n <= 970 -> 0 < q -> 0 < B ->
  located p q (shr_record_of_loc (Zpos mx) lx) ->
  A * (2 ^ n * q) = p * (2 ^ (ex + n + scale) * B) ->
  normal (binary_round_aux prec emax false (Zpos mx) ex lx)
  /\ rounding A B (binary_round_aux prec emax false (Zpos mx) ex lx)
  /\ ex + n <= expo (binary_round_aux prec emax false (Zpos mx) ex lx)
     <= ex + n + 1.
Proof.
  intros n Hn He Hq HB Hloc Hlink.
  destruct (binary_round_aux_normal mx ex lx p q Hn He Hq Hloc)
    as (m2 & m' & e' & -> & Hm' & He' & HV & Hm2 & Hnear & Hrange).
  fold n in HV, Hnear, Hrange.
  pose proof (pow2_pos n Hn) as Pn.
  pose proof (pow2_pos (ex + n + scale) ltac:(unfold scale; lia)) as PE.
  split; [ | split; [ | cbn [expo]; lia]].
  - exists m', e'. repeat split; lia.
  - exists (ex + n + scale), m2.
    split; [unfold scale; lia | split; [exact Hm2 | split; [exact HV | split]]].
    + apply nearest_scale with (p := p) (Q := 2 ^ n * q); try nia; assumption.
    + set (Q := 2 ^ n * q) in *. set (D := 2 ^ (ex + n + scale) * B) in *.
      assert (0 < Q) by (unfold Q; nia). assert (0 < D) by (unfold D; nia).
      split; nia.
Qed.

(** ** The operations *)

Lemma digits_ge (m : positive) (d : Z) :
  2 ^ d <= Zpos m -> d < Zpos (digits2_pos m).
Proof.
  intros H. pose proof (digits2_pos_bounds m) as [_ Hhi].
  destruct (Z_lt_le_dec d 0); [lia | ].
  apply (Z.pow_lt_mono_r_iff 2); lia.
Qed.

Lemma digits_le (m : positive) (d : Z) :
  0 <= d -> Zpos m < 2 ^ d -> Zpos (digits2_pos m) <= d.
Proof.
  intros Hd H. pose proof (digits2_pos_bounds m) as [Hlo _].
  assert (Zpos (digits2_pos m) - 1 < d); [ | lia].
  apply (Z.pow_lt_mono_r_iff 2); lia.
Qed.

(** [x * y] is the rounding of the product of the values. *)
Lemma mul_spec (x y : number) :
  normal x -> normal y -> -1126 <= expo x + expo y <= 917 ->
  normal (mul x y) /\ rounding (units x * units y) (2 ^ scale) (mul x y)
  /\ expo x + expo y + 52 <= expo (mul x y) <= expo x + expo y + 54.
Proof.
  intros (mx & ex & -> & Hmx & Hex) (my & ey & -> & Hmy & Hey) Hwin.
  cbn [expo] in Hwin.
  unfold mul. cbn [SFmul xorb units]. cbn [expo].
  assert (Hlo : 2 ^ 104 <= Zpos (mx * my)) by (rewrite Pos2Z.inj_mul; nia).
  assert (Hhi : Zpos (mx * my) < 2 ^ 106) by (rewrite Pos2Z.inj_mul; nia).
  pose proof (digits_ge _ _ Hlo). pose proof (digits_le _ 106 ltac:(lia) Hhi).
  destruct (binary_round_aux_rounding (mx * my) (ex + ey) loc_Exact
              (Zpos (mx * my)) 1
              (Z.pos mx * 2 ^ (ex + scale) * (Z.pos my * 2 ^ (ey + scale)))
              (2 ^ scale))
    as (G & R & Ex); try lia.
  - apply pow2_pos. unfold scale; lia.
  - unfold located. cbn [shr_record_of_loc shr_m shr_r shr_s]. lia.
  - set (n := Z.pos (digits2_pos (mx * my)) - 53).
    rewrite Pos2Z.inj_mul.
    assert (E : 2 ^ (ex + scale) * 2 ^ (ey + scale) * 2 ^ n
                = 2 ^ (ex + ey + n + scale) * 2 ^ scale).
    { rewrite <- !Z.pow_add_r by (unfold scale, n; lia). f_equal. lia. }
    nia.
  - split; [exact G | split; [exact R | lia]].
Qed.

Lemma iter_xO (m s : positive) :
  Zpos (Pos.iter xO m s) = Zpos m * 2 ^ Zpos s.
Proof.
  induction s as [ | s IH] using Pos.peano_ind.
  - cbn [Pos.iter]. change (2 ^ 1) with 2.
    change (Z.pos m~0) with (2 * Z.pos m). ring.
  - rewrite Pos.iter_succ, Pos2Z.inj_succ, Z.pow_succ_r by lia.
    change (Z.pos (Pos.iter xO m s)~0) with (2 * Z.pos (Pos.iter xO m s)).
    rewrite IH. ring.
Qed.

Lemma shl_align_spec (m : positive) (e e' : Z) :
  e' <= e ->
  Zpos (fst (shl_align m e e')) = Zpos m * 2 ^ (e - e')
  /\ snd (shl_align m e e') = e'.
Proof.
  intros H. unfold shl_align.
  destruct (e' - e) as [ | d | d] eqn:E; [ | lia | ]; cbn [fst snd].
  - replace (e - e') with 0 by lia. split; lia.
  - rewrite iter_xO. replace (e - e') with (Zpos d) by lia. split; lia.
Qed.

Lemma shl_align_id (m : positive) (e e' : Z) :
  e <= e' -> shl_align m e e' = (m, e).
Proof.
  intros H. unfold shl_align.
  destruct (e' - e) as [ | d | d] eqn:E; [reflexivity | reflexivity | lia].
Qed.

(** [x + y] is the rounding of the sum of the values. *)
Lemma add_spec (x y : number) :
  normal x -> normal y -> expo x <= 969 -> expo y <= 969 ->
  normal (add x y) /\ rounding (units x + units y) 1 (add x y)
  /\ Z.max (expo x) (expo y) <= expo (add x y)
     <= Z.max (expo x) (expo y) + 2.
Proof.
  intros (mx & ex & -> & Hmx & Hex) (my & ey & -> & Hmy & Hey) Hx Hy.
  cbn [expo] in Hx, Hy.
  unfold add. cbn [SFadd cond_Zopp units]. cbn [expo].
  set (ez := Z.min ex ey).
  destruct (shl_align_spec mx ex ez ltac:(unfold ez; lia)) as [Sx _].
  destruct (shl_align_spec my ey ez ltac:(unfold ez; lia)) as [Sy _].
  set (ax := fst (shl_align mx ex ez)) in *.
  set (ay := fst (shl_align my ey ez)) in *.
  change (Z.pos ax + Z.pos ay) with (Z.pos (ax + ay)).
  cbn [binary_normalize]. unfold binary_round.
  pose proof (pow2_pos (ex - ez) ltac:(unfold ez; lia)) as Px.
  pose proof (pow2_pos (ey - ez) ltac:(unfold ez; lia)) as Py.
  assert (HM : Zpos (ax + ay)
               = Zpos mx * 2 ^ (ex - ez) + Zpos my * 2 ^ (ey - ez))
    by (rewrite Pos2Z.inj_add; lia).
  set (ew := Z.max ex ey).
  assert (Hlo : 2 ^ (52 + (ew - ez)) <= Zpos (ax + ay)).
  { rewrite HM. rewrite Z.pow_add_r by (unfold ew, ez; lia).
    destruct (Z.max_spec ex ey) as [[_ E] | [_ E]]; fold ew in E;
      rewrite E; nia. }
  pose proof (digits_ge _ _ Hlo) as Hd.
  assert (Hhi : Zpos (ax + ay) < 2 ^ (54 + (ew - ez))).
  { rewrite HM. rewrite Z.pow_add_r by (unfold ew, ez; lia).
    assert (2 ^ (ex - ez) <= 2 ^ (ew - ez))
      by (apply Z.pow_le_mono_r; unfold ew, ez; lia).
    assert (2 ^ (ey - ez) <= 2 ^ (ew - ez))
      by (apply Z.pow_le_mono_r; unfold ew, ez; lia).
    nia. }
  pose proof (digits_le _ (54 + (ew - ez)) ltac:(unfold ew, ez; lia) Hhi)
    as Hd'.
  rewrite fexp_normal by (unfold ew, ez in *; lia).
  rewrite shl_align_id by (unfold ew, ez in *; lia).
  set (n := Zpos (digits2_pos (ax + ay)) - 53) in *.
  destruct (binary_round_aux_rounding (ax + ay) ez loc_Exact (Zpos (ax + ay)) 1
              (Z.pos mx * 2 ^ (ex + scale) + Z.pos my * 2 ^ (ey + scale)) 1)
    as (G & R & Ex); fold n; try (unfold n, ew, ez in *; lia).
  - unfold located. cbn [shr_record_of_loc shr_m shr_r shr_s]. lia.
  - rewrite HM.
    assert (E1 : 2 ^ (ex + scale) = 2 ^ (ex - ez) * 2 ^ (ez + scale))
      by (rewrite <- Z.pow_add_r by (unfold scale, ez; lia); f_equal; lia).
    assert (E2 : 2 ^ (ey + scale) = 2 ^ (ey - ez) * 2 ^ (ez + scale))
      by (rewrite <- Z.pow_add_r by (unfold scale, ez; lia); f_equal; lia).
    assert (E3 : 2 ^ (ez + n + scale) = 2 ^ (ez + scale) * 2 ^ n)
      by (rewrite <- Z.pow_add_r by (unfold scale, ez, n in *; lia);
          f_equal; lia).
    rewrite E1, E2, E3. ring.
  - split; [exact G | split; [exact R | ]].
    fold n in Ex. unfold n, ew, ez in *. lia.
Qed.

(** The location [SFdiv] computes from the remainder of a division. *)
Lemma new_location_located (a b q r : Z) :
  0 < b -> a = b * q + r -> 0 <= r < b ->
  located a b (shr_record_of_loc q (new_location b r)).
Proof.
  intros Hb Ha Hr. unfold new_location.
  destruct (Z.even b) eqn:Eb.
  - unfold new_location_even.
    destruct (Z.eqb_spec r 0) as [E0 | N0].
    + unfold located. cbn [shr_record_of_loc shr_m shr_r shr_s]. lia.
    + destruct (Z.compare_spec (2 * r) b); unfold located;
        cbn [shr_record_of_loc shr_m shr_r shr_s]; lia.
  - unfold new_location_odd.
    destruct (Z.eqb_spec r 0) as [E0 | N0].
    + unfold located. cbn [shr_record_of_loc shr_m shr_r shr_s]. lia.
    + assert (b <> 2 * r).
      { intros ->. rewrite Z.even_mul in Eb. discriminate. }
      destruct (Z.compare_spec (2 * r + 1) b); unfold located;
        cbn [shr_record_of_loc shr_m shr_r shr_s]; lia.
Qed.

Lemma digits_53 (m : positive) :
  2 ^ 52 <= Zpos m < 2 ^ 53 -> Zpos (digits2_pos m) = 53.
Proof. intros H. apply digits2_pos_unique. exact H. Qed.

(** [x / y] is the rounding of the quotient of the values. *)
Lemma div_spec (x y : number) :
  normal x -> normal y -> -1021 <= expo x - expo y <= 1000 ->
  normal (div x y) /\ rounding (units x * 2 ^ scale) (units y) (div x y)
  /\ expo x - expo y - 53 <= expo (div x y) <= expo x - expo y - 51.
Proof.
  intros (mx & ex & -> & Hmx & Hex) (my & ey & -> & Hmy & Hey) Hwin.
  cbn [expo] in Hwin.
  unfold div. cbn [SFdiv xorb units]. cbn [expo]. unfold SFdiv_core_binary.
  cbn [Zdigits2]. rewrite !digits_53 by assumption.
  replace (53 + ex - (53 + ey)) with (ex - ey) by lia.
  rewrite fexp_normal by lia.
  replace (Z.min (ex - ey - 53) (ex - ey)) with (ex - ey - 53) by lia.
  replace (ex - ey - (ex - ey - 53)) with 53 by lia.
  rewrite Z.shiftl_mul_pow2 by lia.
  pose proof (Z_div_mod (Z.pos mx * 2 ^ 53) (Zpos my) ltac:(lia)) as Hdm.
  destruct (Z.div_eucl (Z.pos mx * 2 ^ 53) (Z.pos my)) as [q r].
  destruct Hdm as [Hdm Hr].
  assert (Hq : 2 ^ 52 <= q < 2 ^ 54) by nia.
  destruct q as [ | qp | qp]; [lia | | lia].
  pose proof (digits_ge qp 52 ltac:(lia)) as Hd1.
  pose proof (digits_le qp 54 ltac:(lia) ltac:(lia)) as Hd2.
  pose proof (pow2_pos (ey + scale) ltac:(unfold scale; lia)) as Py.
  destruct (binary_round_aux_rounding qp (ex - ey - 53)
              (new_location (Zpos my) r) (Z.pos mx * 2 ^ 53) (Zpos my)
              (Z.pos mx * 2 ^ (ex + scale) * 2 ^ scale)
              (Z.pos my * 2 ^ (ey + scale)))
    as (G & R & Ex); try lia.
  - apply new_location_located; lia.
  - set (n := Z.pos (digits2_pos qp) - 53).
    assert (E : 2 ^ (ex + scale) * 2 ^ scale * 2 ^ n
                = 2 ^ 53 * 2 ^ (ex - ey - 53 + n + scale) * 2 ^ (ey + scale)).
    { rewrite <- !Z.pow_add_r by (unfold scale, n; lia). f_equal. lia. }
    transitivity (Z.pos mx * Z.pos my * (2 ^ (ex + scale) * 2 ^ scale * 2 ^ n));
      [ring | rewrite E; ring].
  - split; [exact G | split; [exact R | lia]].
Qed.

(** A positive integer below 2^53 is a number, exactly. *)
Lemma of_Z_spec (k : Z) :
  0 < k < 2 ^ 53 -> normal (of_Z k) /\ units (of_Z k) = k * 2 ^ scale.
Proof.
  intros Hk. destruct k as [ | kp | kp]; [lia | | lia].
  unfold of_Z. cbn [binary_normalize]. unfold binary_round.
  pose proof (digits2_pos_bounds kp) as Hd.
  set (d := Zpos (digits2_pos kp)) in *.
  assert (Hd53 : 1 <= d <= 53).
  { split; [unfold d; lia | ]. apply digits_le; lia. }
  rewrite fexp_normal by lia.
  replace (d + 0 - 53) with (d - 53) by lia.
  destruct (shl_align_spec kp 0 (d - 53) ltac:(lia)) as [Sm Se].
  destruct (shl_align kp 0 (d - 53)) as [mz ez]. cbn [fst snd] in Sm, Se.
  subst ez. replace (0 - (d - 53)) with (53 - d) in Sm by lia.
  assert (Hmz : 2 ^ 52 <= Zpos mz < 2 ^ 53).
  { rewrite Sm.
    assert (E52 : 2 ^ 52 = 2 ^ (d - 1) * 2 ^ (53 - d))
      by (rewrite <- Z.pow_add_r by lia; f_equal; lia).
    assert (E53 : 2 ^ 53 = 2 ^ d * 2 ^ (53 - d))
      by (rewrite <- Z.pow_add_r by lia; f_equal; lia).
    rewrite E52, E53.
    pose proof (pow2_pos (53 - d) ltac:(lia)). nia. }
  pose proof (digits_53 mz Hmz) as Hdz.
  destruct (binary_round_aux_normal mz (d - 53) loc_Exact (Zpos mz) 1)
    as (m2 & m' & e' & -> & Hm' & He' & HV & Hm2 & [Hnear _] & _).
  - lia.
  - lia.
  - lia.
  - unfold located. cbn [shr_record_of_loc shr_m shr_r shr_s]. lia.
  - rewrite Hdz in HV, Hnear.
    replace (53 - 53) with 0 in HV, Hnear by lia.
    rewrite Z.pow_0_r in Hnear.
    assert (m2 = Zpos mz) by lia. subst m2.
    split.
    + exists m', e'. repeat split; lia.
    + cbn [units]. rewrite HV, Sm.
      replace (d - 53 + 0 + scale) with (d - 53 + scale) by lia.
      replace scale with ((53 - d) + (d - 53 + scale)) at 2 by lia.
      rewrite (Z.pow_add_r 2 (53 - d)) by (unfold scale; lia). ring.
Qed.

(** ** Exponents, [Math.round], [Math.min] and [Math.max] *)

Lemma normal_expo_upper (x : number) (b : Z) :
  normal x -> 0 <= b + scale -> units x < 2 ^ (b + scale) -> expo x <= b - 53.
Proof.
  intros (m & e & -> & Hm & He) Hb H. cbn [units expo] in *.
  assert (2 ^ (52 + (e + scale)) < 2 ^ (b + scale)).
  { rewrite Z.pow_add_r by (unfold scale; lia).
    pose proof (pow2_pos (e + scale) ltac:(unfold scale; lia)). nia. }
  apply Z.pow_lt_mono_r_iff in H0; lia.
Qed.

Lemma normal_expo_lower (x : number) (a : Z) :
  normal x -> 0 <= a + scale -> 2 ^ (a + scale) <= units x -> a - 52 <= expo x.
Proof.
  intros (m & e & -> & Hm & He) Ha H. cbn [units expo] in *.
  assert (2 ^ (a + scale) < 2 ^ (53 + (e + scale))).
  { rewrite (Z.pow_add_r 2 53) by (unfold scale; lia).
    pose proof (pow2_pos (e + scale) ltac:(unfold scale; lia)). nia. }
  apply Z.pow_lt_mono_r_iff in H0; unfold scale in *; lia.
Qed.

(** [Math.round] on a normal number between 0.5 and 2^52. *)
Lemma Math_round_spec (w : number) :
  normal w -> -53 <= expo w <= -1 ->
  normal (Math_round w)
  /\ units (Math_round w) = round_units (units w) * 2 ^ scale.
Proof.
  intros (m & e & -> & Hm & He) Hw. cbn [expo] in Hw.
  unfold Math_round. cbn [units cond_Zopp].
  replace (0 <=? e) with false by (symmetry; apply Z.leb_gt; lia).
  rewrite Z.shiftl_mul_pow2, Z.shiftr_div_pow2, Z.mul_1_l by lia.
  assert (Ek : (2 * Z.pos m + 2 ^ (- e)) / 2 ^ (1 - e)
               = round_units (Z.pos m * 2 ^ (e + scale))).
  { unfold round_units.
    pose proof (pow2_pos (e + scale) ltac:(unfold scale; lia)) as P.
    rewrite <- (Z.div_mul_cancel_r (2 * Z.pos m + 2 ^ (- e)) (2 ^ (1 - e))
                  (2 ^ (e + scale))) by lia.
    f_equal.
    - rewrite Z.mul_add_distr_r, <- Z.pow_add_r by (unfold scale; lia).
      replace (- e + (e + scale)) with scale by lia. ring.
    - rewrite <- Z.pow_add_r by (unfold scale; lia). f_equal. lia. }
  rewrite Ek.
  set (v := Z.pos m * 2 ^ (e + scale)) in *.
  assert (Hv : 2 ^ (scale - 1) <= v < 2 ^ (52 + scale)).
  { unfold v. split.
    - replace (scale - 1) with ((-53 + scale) + 52) by lia.
      rewrite (Z.pow_add_r 2 (-53 + scale)) by (unfold scale; lia).
      assert (2 ^ (-53 + scale) <= 2 ^ (e + scale))
        by (apply Z.pow_le_mono_r; unfold scale; lia).
      pose proof (pow2_pos (-53 + scale) ltac:(unfold scale; lia)). nia.
    - replace (52 + scale) with (53 + (-1 + scale)) by lia.
      rewrite (Z.pow_add_r 2 53) by (unfold scale; lia).
      assert (2 ^ (e + scale) <= 2 ^ (-1 + scale))
        by (apply Z.pow_le_mono_r; unfold scale; lia).
      pose proof (pow2_pos (e + scale) ltac:(unfold scale; lia)). nia. }
  assert (Hk : 1 <= round_units v < 2 ^ 53).
  { unfold round_units.
    pose proof (pow2_pos scale ltac:(unfold scale; lia)) as PK.
    assert (E1 : 2 ^ (scale + 1) = 2 * 2 ^ scale)
      by (rewrite Z.pow_add_r by (unfold scale; lia); lia).
    assert (E2 : 2 ^ scale = 2 * 2 ^ (scale - 1)).
    { replace scale with ((scale - 1) + 1) at 1 by lia.
      rewrite Z.pow_add_r by (unfold scale; lia). lia. }
    assert (E3 : 2 ^ (52 + scale) = 2 ^ 52 * 2 ^ scale)
      by (rewrite Z.pow_add_r by (unfold scale; lia); lia).
    split.
    - apply Z.div_le_lower_bound; lia.
    - apply Z.div_lt_upper_bound; [lia | ]. nia. }
  replace (round_units v =? 0) with false by (symmetry; apply Z.eqb_neq; lia).
  apply of_Z_spec. lia.
Qed.

Lemma round_units_mono (v1 v2 : Z) :
  v1 <= v2 -> round_units v1 <= round_units v2.
Proof.
  intros H. unfold round_units. apply Z.div_le_mono.
  - apply Z.pow_pos_nonneg; unfold scale; lia.
  - lia.
Qed.

Lemma Math_max_normal (x y : number) :
  normal x -> normal y ->
  (Math_max x y = x \/ Math_max x y = y)
  /\ units (Math_max x y) = Z.max (units x) (units y).
Proof.
  intros Hx Hy. unfold Math_max. rewrite (normal_compare x y Hx Hy).
  destruct (Z.compare_spec (units x) (units y)) as [E | E | E].
  - destruct Hx as (m & e & -> & _). split; [right; reflexivity | lia].
  - split; [right; reflexivity | lia].
  - split; [left; reflexivity | lia].
Qed.

Lemma Math_min_normal (x y : number) :
  normal x -> normal y ->
  (Math_min x y = x \/ Math_min x y = y)
  /\ units (Math_min x y) = Z.min (units x) (units y).
Proof.
  intros Hx Hy. unfold Math_min. rewrite (normal_compare x y Hx Hy).
  destruct (Z.compare_spec (units x) (units y)) as [E | E | E].
  - destruct Hx as (m & e & -> & _). split; [right; reflexivity | lia].
  - split; [left; reflexivity | lia].
  - split; [right; reflexivity | lia].
Qed.

Lemma normal_leb_iff (x y : number) :
  normal x -> normal y -> (leb x y = true <-> units x <= units y).
Proof.
  intros Hx Hy. rewrite (normal_leb x y Hx Hy). apply Z.leb_le.
Qed.

Lemma normalb_normal (x : number) : normalb x = true -> normal x.
Proof.
  destruct x as [ | | | [ | ] m e]; try discriminate. cbn [normalb].
  rewrite !andb_true_iff, !Z.leb_le, Z.ltb_lt. intros [[[H1 H2] H3] H4].
  exists m, e. repeat split; assumption.
Qed.

(** ** The last steps of the score *)

(** The four operations of the last steps, each with its rounding. *)
Lemma combine_spec (a m : number) :
  normal a -> normal m -> -85 <= expo a <= -49 -> -53 <= expo m <= -49 ->
  exists w,
    normal w /\ -53 <= expo w <= -1
    /\ combine a m = Math_min (of_Z 100) (Math_round w)
    /\ rounding
         (units (add (mul a (tenths 6)) (mul m (tenths 4))) * units (of_Z 10))
         (2 ^ scale) w
    /\ rounding (units (mul a (tenths 6)) + units (mul m (tenths 4))) 1
         (add (mul a (tenths 6)) (mul m (tenths 4)))
    /\ normal (mul a (tenths 6)) /\ normal (mul m (tenths 4))
    /\ normal (add (mul a (tenths 6)) (mul m (tenths 4)))
    /\ rounding (units a * units (tenths 6)) (2 ^ scale) (mul a (tenths 6))
    /\ rounding (units m * units (tenths 4)) (2 ^ scale) (mul m (tenths 4)).
Proof.
  intros Ga Gm Ea Em.
  assert (G6 : normal (tenths 6)) by (apply normalb_normal; reflexivity).
  assert (G4 : normal (tenths 4)) by (apply normalb_normal; reflexivity).
  assert (G10 : normal (of_Z 10)) by (apply normalb_normal; reflexivity).
  assert (E6 : expo (tenths 6) = -53) by (vm_compute; reflexivity).
  assert (E4 : expo (tenths 4) = -54) by (vm_compute; reflexivity).
  assert (E10 : expo (of_Z 10) = -49) by (vm_compute; reflexivity).
  destruct (mul_spec a (tenths 6) Ga G6 ltac:(lia)) as (G1 & R1 & X1).
  destruct (mul_spec m (tenths 4) Gm G4 ltac:(lia)) as (G2 & R2 & X2).
  destruct (add_spec _ _ G1 G2 ltac:(lia) ltac:(lia)) as (G3 & R3 & X3).
  destruct (mul_spec _ (of_Z 10) G3 G10 ltac:(lia)) as (G5 & R5 & X5).
  eexists. split; [exact G5 | ].
  split; [lia | ].
  split; [reflexivity | ].
  repeat split; assumption.
Qed.

Lemma normal_100 : normal (of_Z 100).
Proof. apply normalb_normal. vm_compute. reflexivity. Qed.

Lemma score_of_normal (w : number) :
  normal w -> -53 <= expo w <= -1 ->
  normal (Math_min (of_Z 100) (Math_round w))
  /\ units (Math_min (of_Z 100) (Math_round w))
     = Z.min (units (of_Z 100)) (round_units (units w) * 2 ^ scale).
Proof.
  intros Gw Ew. destruct (Math_round_spec w Gw Ew) as [Gr Vr].
  destruct (Math_min_normal _ _ normal_100 Gr) as [[E | E] Vm].
  - split; [rewrite E; exact normal_100 | rewrite Vm, Vr; reflexivity].
  - split; [rewrite E; exact Gr | rewrite Vm, Vr; reflexivity].
Qed.

Lemma combine_normal (a m : number) :
  normal a -> normal m -> -85 <= expo a <= -49 -> -53 <= expo m <= -49 ->
  normal (combine a m) /\ units (combine a m) <= units (of_Z 100).
Proof.
  intros Ga Gm Ea Em.
  destruct (combine_spec a m Ga Gm Ea Em) as (w & Gw & Ew & -> & _).
  destruct (score_of_normal w Gw Ew) as [G Vs]. split; [exact G | lia].
Qed.

(** The last steps are monotone in the mean and in the maximum. *)
Lemma combine_mono {a1 m1 a2 m2 : number} :
  normal a1 -> normal m1 -> -85 <= expo a1 <= -49 -> -53 <= expo m1 <= -49 ->
  normal a2 -> normal m2 -> -85 <= expo a2 <= -49 -> -53 <= expo m2 <= -49 ->
  units a1 <= units a2 -> units m1 <= units m2 ->
  units (combine a1 m1) <= units (combine a2 m2).
Proof.
  intros Ga1 Gm1 Ea1 Em1 Ga2 Gm2 Ea2 Em2 Ha Hm.
  destruct (combine_spec a1 m1 Ga1 Gm1 Ea1 Em1)
    as (w1 & Gw1 & Ew1 & -> & Rw1 & Rc1 & Gx1 & Gy1 & Gc1 & Rx1 & Ry1).
  destruct (combine_spec a2 m2 Ga2 Gm2 Ea2 Em2)
    as (w2 & Gw2 & Ew2 & -> & Rw2 & Rc2 & Gx2 & Gy2 & Gc2 & Rx2 & Ry2).
  pose proof (pow2_pos scale ltac:(unfold scale; lia)) as PK.
  assert (G6 : 0 < units (tenths 6))
    by (apply normal_units_pos, normalb_normal; vm_compute; reflexivity).
  assert (G4 : 0 < units (tenths 4))
    by (apply normal_units_pos, normalb_normal; vm_compute; reflexivity).
  assert (G10 : 0 < units (of_Z 10))
    by (apply normal_units_pos, normalb_normal; vm_compute; reflexivity).
  assert (Hx : units (mul a1 (tenths 6)) <= units (mul a2 (tenths 6))).
  { apply (rounding_mono PK PK Rx1 Rx2).
    apply Z.mul_le_mono_nonneg_r; [lia | ].
    apply Z.mul_le_mono_nonneg_r; lia. }
  assert (Hy : units (mul m1 (tenths 4)) <= units (mul m2 (tenths 4))).
  { apply (rounding_mono PK PK Ry1 Ry2).
    apply Z.mul_le_mono_nonneg_r; [lia | ].
    apply Z.mul_le_mono_nonneg_r; lia. }
  assert (Hc : units (add (mul a1 (tenths 6)) (mul m1 (tenths 4)))
               <= units (add (mul a2 (tenths 6)) (mul m2 (tenths 4)))).
  { apply (rounding_mono Z.lt_0_1 Z.lt_0_1 Rc1 Rc2). lia. }
  assert (Hw : units w1 <= units w2).
  { apply (rounding_mono PK PK Rw1 Rw2).
    apply Z.mul_le_mono_nonneg_r; [lia | ].
    apply Z.mul_le_mono_nonneg_r; lia. }
  destruct (score_of_normal w1 Gw1 Ew1) as [_ ->].
  destruct (score_of_normal w2 Gw2 Ew2) as [_ ->].
  pose proof (round_units_mono _ _ Hw). nia.
Qed.

(** * The risk score in binary64 *)

(** ** The score of a signal and the loop *)

(** By cases on the severity and the type, each of the enumeration or a
    string that names no property. *)
Lemma signalScore_okb (s : Signal) :
  ordinary_signal s -> score_okb (signalScore s) = true.
Proof.
  intros Hs. rewrite (signalScore_ordinary s Hs). clear Hs.
  destruct s as [i t sev ti su de ts me].
  cbn [type severity].
  destruct t as [[ | | | | | | | | ] | rawt], sev as [[ | | | | ] | raws];
    vm_compute; reflexivity.
Qed.

Lemma units_of_Z (k : Z) : 0 < k < 2 ^ 53 -> units (of_Z k) = k * 2 ^ scale.
Proof. intros H. apply of_Z_spec. exact H. Qed.

Lemma normal_of_Z (k : Z) : 0 < k < 2 ^ 53 -> normal (of_Z k).
Proof. intros H. apply of_Z_spec. exact H. Qed.

Lemma units_half : units (tenths 5) = 2 ^ (scale - 1).
Proof.
  change (tenths 5) with (S754_finite false 4503599627370496 (-53)).
  cbn [units]. change (Z.pos 4503599627370496) with (2 ^ 52).
  rewrite <- Z.pow_add_r by (unfold scale; lia). f_equal.
Qed.

Lemma signalScore_ok (s : Signal) :
  ordinary_signal s -> score_ok (signalScore s).
Proof.
  intros Hs.
  pose proof (signalScore_okb s Hs) as H. unfold score_okb in H.
  rewrite !andb_true_iff, !Z.leb_le in H.
  destruct H as [[[[G U] L] E1] E2]. apply normalb_normal in G.
  assert (G15 : normal (of_Z 15)) by (apply normal_of_Z; lia).
  assert (G5 : normal (tenths 5)) by (apply normalb_normal; reflexivity).
  constructor.
  - exact G.
  - rewrite <- (units_of_Z 15) by lia. apply normal_leb_iff; assumption.
  - rewrite <- units_half. apply normal_leb_iff; assumption.
  - lia.
Qed.

Lemma pow2_scale_pos : 0 < 2 ^ scale.
Proof. apply pow2_pos. unfold scale. lia. Qed.

Lemma loop_inv_first (s : Signal) :
  ordinary_signal s -> loop_inv 1 (score_step (of_Z 0, of_Z 0) s).
Proof.
  intros Hord.
  pose proof (signalScore_ok s Hord) as Hs.
  assert (E : score_step (of_Z 0, of_Z 0) s = (signalScore s, signalScore s)).
  { unfold score_step. destruct (ok_normal _ Hs) as (m & e & -> & _).
    reflexivity. }
  rewrite E. constructor; cbn [fst snd].
  - apply Hs.
  - apply Hs.
  - pose proof (ok_upper _ Hs). lia.
  - exact Hs.
Qed.

(** One turn of the loop keeps the invariant. *)
Lemma loop_inv_step (k : Z) (acc : number * number) (s : Signal) :
  ordinary_signal s ->
  1 <= k -> k + 1 < 2 ^ 32 ->
  loop_inv k acc -> loop_inv (k + 1) (score_step acc s).
Proof.
  intros Hord Hk1 Hk2 [GT LT UT HM]. destruct acc as [T M].
  cbn [fst snd] in *.
  pose proof (signalScore_ok s Hord) as [Gs Us Ls Es].
  pose proof pow2_scale_pos as PK.
  unfold score_step.
  assert (ET : expo T <= 969).
  { assert (expo T <= 36 - 53); [ | lia].
    apply normal_expo_upper; [exact GT | unfold scale; lia | ].
    rewrite Z.pow_add_r by (unfold scale; lia). nia. }
  destruct (add_spec T (signalScore s) GT Gs ET ltac:(lia)) as (GA & RA & _).
  destruct (Math_max_normal M (signalScore s) (ok_normal _ HM) Gs) as [HMax _].
  constructor; cbn [fst snd].
  - exact GA.
  - apply Z.le_trans with (units T); [exact LT | ].
    apply (rounding_mono Z.lt_0_1 Z.lt_0_1 (rounding_self T GT) RA).
    lia.
  - rewrite <- units_of_Z by lia.
    apply (rounding_mono Z.lt_0_1 Z.lt_0_1 RA
             (rounding_self _ (normal_of_Z (15 * (k + 1)) ltac:(lia)))).
    rewrite units_of_Z by lia. lia.
  - destruct HMax as [-> | ->]; [exact HM | constructor; assumption].
Qed.

Lemma loop_inv_fold (xs : list Signal) :
  Forall ordinary_signal xs ->
  forall (k : Z) (acc : number * number),
    1 <= k -> k + Z.of_nat (List.length xs) < 2 ^ 32 ->
    loop_inv k acc ->
    loop_inv (k + Z.of_nat (List.length xs)) (fold_left score_step xs acc).
Proof.
  induction 1 as [ | s xs Hs Hxs IH]; intros k acc Hk1 Hk2 Hinv.
  - cbn [fold_left List.length Z.of_nat]. rewrite Z.add_0_r. exact Hinv.
  - cbn [fold_left]. cbn [List.length] in *. rewrite Nat2Z.inj_succ in *.
    replace (k + Z.succ (Z.of_nat (List.length xs)))
      with ((k + 1) + Z.of_nat (List.length xs)) by lia.
    apply IH; [lia | lia | ].
    apply loop_inv_step; [exact Hs | lia | lia | exact Hinv].
Qed.

Lemma score_loop_inv (xs : list Signal) :
  Forall ordinary_signal xs ->
  xs <> [] -> Z.of_nat (List.length xs) < 2 ^ 32 ->
  loop_inv (Z.of_nat (List.length xs)) (score_loop xs).
Proof.
  intros Hord.
  destruct Hord as [ | s xs Hs Hxs]; [congruence | intros _ Hlen].
  unfold score_loop. cbn [fold_left]. cbn [List.length] in *.
  rewrite Nat2Z.inj_succ in *.
  replace (Z.succ (Z.of_nat (List.length xs)))
    with (1 + Z.of_nat (List.length xs)) by lia.
  apply loop_inv_fold; [exact Hxs | lia | lia | apply loop_inv_first, Hs].
Qed.

(** ** The mean and the range of the score *)

(** The mean: a normal number, at most 15. *)
Lemma average_spec (T : number) (n : Z) :
  normal T -> 2 ^ (scale - 1) <= units T <= 15 * n * 2 ^ scale ->
  1 <= n < 2 ^ 32 ->
  normal (div T (of_Z n))
  /\ rounding (units T * 2 ^ scale) (n * 2 ^ scale) (div T (of_Z n))
  /\ -85 <= expo (div T (of_Z n)) <= -49.
Proof.
  intros GT [LT UT] Hn.
  pose proof pow2_scale_pos as PK.
  assert (Gn : normal (of_Z n)) by (apply normal_of_Z; lia).
  assert (Vn : units (of_Z n) = n * 2 ^ scale) by (apply units_of_Z; lia).
  assert (ET1 : -53 <= expo T).
  { assert (-1 - 52 <= expo T); [ | lia].
    apply normal_expo_lower; [exact GT | unfold scale; lia | ].
    replace (-1 + scale) with (scale - 1) by lia. exact LT. }
  assert (ET2 : expo T <= -17).
  { assert (expo T <= 36 - 53); [ | lia].
    apply normal_expo_upper; [exact GT | unfold scale; lia | ].
    rewrite Z.pow_add_r by (unfold scale; lia). nia. }
  assert (En1 : -52 <= expo (of_Z n)).
  { assert (0 - 52 <= expo (of_Z n)); [ | lia].
    apply normal_expo_lower; [exact Gn | unfold scale; lia | ].
    rewrite Vn. cbn [Z.add]. nia. }
  assert (En2 : expo (of_Z n) <= -21).
  { assert (expo (of_Z n) <= 32 - 53); [ | lia].
    apply normal_expo_upper; [exact Gn | unfold scale; lia | ].
    rewrite Vn, Z.pow_add_r by (unfold scale; lia). nia. }
  destruct (div_spec T (of_Z n) GT Gn ltac:(lia)) as (GA & RA & XA).
  rewrite Vn in RA.
  split; [exact GA | split; [exact RA | split; [lia | ]]].
  assert (expo (div T (of_Z n)) <= 4 - 53); [ | lia].
  apply normal_expo_upper; [exact GA | unfold scale; lia | ].
  assert (HB : 0 < n * 2 ^ scale) by nia.
  assert (G15 : normal (of_Z 15)) by (apply normal_of_Z; lia).
  apply Z.le_lt_trans with (units (of_Z 15)).
  - apply (rounding_mono HB Z.lt_0_1 RA (rounding_self _ G15)).
    rewrite units_of_Z by lia. nia.
  - rewrite units_of_Z, Z.pow_add_r by (unfold scale; lia). nia.
Qed.

(** On a non-empty collection the score is [combine] of the mean and the
    maximum. *)
Lemma calculateRiskScore_combine (xs : list Signal) :
  xs <> [] ->
  calculateRiskScore xs
  = combine (div (fst (score_loop xs)) (of_Z (Z.of_nat (List.length xs))))
      (snd (score_loop xs)).
Proof.
  intros H. unfold calculateRiskScore.
  destruct xs as [ | s xs]; [congruence | ].
  cbn [List.length Nat.eqb].
  destruct (score_loop (s :: xs)) as [T M]. reflexivity.
Qed.

Lemma normal_nonneg (x : number) : normal x -> leb (of_Z 0) x = true.
Proof. intros (m & e & -> & _). reflexivity. Qed.

(** Range of the score of a non-empty array. *)
Lemma calculateRiskScore_normal (xs : list Signal) :
  Forall ordinary_signal xs ->
  xs <> [] -> Z.of_nat (List.length xs) < 2 ^ 32 ->
  normal (calculateRiskScore xs)
  /\ units (calculateRiskScore xs) <= units (of_Z 100).
Proof.
  intros Hord Hne Hlen.
  rewrite (calculateRiskScore_combine xs Hne).
  destruct (score_loop_inv xs Hord Hne Hlen) as [GT LT UT HM].
  assert (Hn : 1 <= Z.of_nat (List.length xs))
    by (destruct xs; [congruence | cbn [List.length]; lia]).
  destruct (average_spec _ _ GT (conj LT UT) (conj Hn Hlen)) as (GA & RA & EA).
  apply combine_normal; [exact GA | apply HM | exact EA | apply HM].
Qed.

(** ** Signs: nothing below zero, and no NaN *)

Lemma iter_pos_invariant {A : Type} (P : A -> Prop) (f : A -> A) :
  (forall x, P x -> P (f x)) ->
  forall (n : positive) (x : A), P x -> P (iter_pos f n x).
Proof.
  intros Hf. induction n as [n IH | n IH | ]; intros x Hx; cbn [iter_pos].
  - apply IH, IH, Hf, Hx.
  - apply IH, IH, Hx.
  - apply Hf, Hx.
Qed.

Lemma shr_fexp_nonneg (m e : Z) (l : location) :
  0 <= m -> 0 <= shr_m (fst (shr_fexp prec emax m e l)).
Proof.
  intros Hm. unfold shr_fexp, shr.
  assert (H0 : 0 <= shr_m (shr_record_of_loc m l))
    by (destruct l as [ | [ | | ]]; exact Hm).
  destruct (fexp prec emax (Zdigits2 m + e) - e) as [ | n | n];
    cbn [fst]; try exact H0.
  apply (iter_pos_invariant (fun mrs => 0 <= shr_m mrs)); [ | exact H0].
  intros mrs H. rewrite shr_1_m by exact H. apply Z.div_pos; lia.
Qed.

Lemma round_nearest_even_nonneg (m : Z) (l : location) :
  0 <= m -> 0 <= round_nearest_even m l.
Proof.
  intros Hm. destruct l as [ | [ | | ]]; cbn [round_nearest_even];
    try destruct (Z.even m); lia.
Qed.

(** Whatever is rounded, the result of rounding a non-negative mantissa
    is zero, positive or infinite. *)
Lemma binary_round_aux_nonneg (m e : Z) (l : location) :
  0 <= m -> nonnegb (binary_round_aux prec emax false m e l) = true.
Proof.
  intros Hm. unfold binary_round_aux.
  pose proof (shr_fexp_nonneg m e l Hm) as H1.
  destruct (shr_fexp prec emax m e l) as [mrs1 e1]. cbn [fst] in H1.
  pose proof (shr_fexp_nonneg _ e1 loc_Exact
                (round_nearest_even_nonneg _ (loc_of_shr_record mrs1) H1))
    as H2.
  destruct (shr_fexp prec emax
              (round_nearest_even (shr_m mrs1) (loc_of_shr_record mrs1)) e1
              loc_Exact) as [mrs2 e2].
  cbn [fst] in H2.
  destruct (shr_m mrs2) as [ | p | p]; [reflexivity | | lia].
  destruct (e2 <=? emax - prec); reflexivity.
Qed.

Lemma binary_normalize_nonneg (m e : Z) :
  0 <= m -> nonnegb (binary_normalize prec emax m e false) = true.
Proof.
  intros Hm. destruct m as [ | p | p]; [reflexivity | | lia].
  cbn [binary_normalize]. unfold binary_round.
  destruct (shl_align p e (fexp prec emax (Z.pos (digits2_pos p) + e)))
    as [mz ez].
  apply binary_round_aux_nonneg. lia.
Qed.

Lemma of_Z_nonneg (k : Z) : 0 <= k -> nonnegb (of_Z k) = true.
Proof. apply binary_normalize_nonneg. Qed.

Lemma add_nonneg (x y : number) :
  nonnegb x = true -> nonnegb y = true -> nonnegb (add x y) = true.
Proof.
  destruct x as [[ | ] | [ | ] | | [ | ] mx ex]; try discriminate;
    destruct y as [[ | ] | [ | ] | | [ | ] my ey]; try discriminate;
    intros _ _; try reflexivity.
  unfold add. cbn [SFadd cond_Zopp].
  apply binary_normalize_nonneg. lia.
Qed.

Lemma mul_nonneg (x y : number) :
  nonnegb x = true -> normal y -> nonnegb (mul x y) = true.
Proof.
  intros Hx (my & ey & -> & _).
  destruct x as [[ | ] | [ | ] | | [ | ] mx ex]; try discriminate;
    try reflexivity.
  unfold mul. cbn [SFmul xorb]. apply binary_round_aux_nonneg. lia.
Qed.

Lemma div_nonneg (x y : number) :
  normal x -> nonnegb y = true -> nonnegb (div x y) = true.
Proof.
  intros (mx & ex & -> & _) Hy.
  destruct y as [[ | ] | [ | ] | | [ | ] my ey]; try discriminate;
    try reflexivity.
  unfold div. cbn [SFdiv xorb]. unfold SFdiv_core_binary.
  set (s := ex - ey - _).
  set (m' := match s with Z.pos _ => Z.shiftl (Z.pos mx) s | 0 => Z.pos mx
                        | Z.neg _ => 0 end).
  assert (Hm' : 0 <= m').
  { unfold m'. destruct s as [ | p | p]; try lia.
    apply Z.shiftl_nonneg. lia. }
  pose proof (Z_div_mod m' (Z.pos my) ltac:(lia)) as Hdm.
  destruct (Z.div_eucl m' (Z.pos my)) as [q r].
  apply binary_round_aux_nonneg. nia.
Qed.

Lemma Math_round_nonneg (x : number) :
  nonnegb x = true -> nonnegb (Math_round x) = true.
Proof.
  destruct x as [[ | ] | [ | ] | | [ | ] m e]; try discriminate;
    intros _; try reflexivity.
  unfold Math_round. destruct (0 <=? e); [reflexivity | ].
  cbn [cond_Zopp].
  destruct (Z.eqb_spec (Z.shiftr (2 * Z.pos m + Z.shiftl 1 (- e)) (1 - e)) 0);
    [reflexivity | ].
  apply of_Z_nonneg. apply Z.shiftr_nonneg.
  assert (0 <= Z.shiftl 1 (- e)) by (apply Z.shiftl_nonneg; lia). lia.
Qed.

Lemma nonneg_leb_zero (x : number) :
  nonnegb x = true -> leb (of_Z 0) x = true.
Proof.
  destruct x as [[ | ] | [ | ] | | [ | ] m e]; try discriminate; reflexivity.
Qed.

Lemma Math_min_100_range (r : number) :
  nonnegb r = true ->
  leb (of_Z 0) (Math_min (of_Z 100) r) = true
  /\ leb (Math_min (of_Z 100) r) (of_Z 100) = true.
Proof.
  intros Hr. unfold Math_min.
  pose proof (SFcompare_swap (of_Z 100) r) as Hsw.
  destruct (SFcompare (of_Z 100) r) as [[ | | ] | ] eqn:Hc.
  - change (match of_Z 100 with S754_zero true => of_Z 100 | _ => r end)
      with r.
    split; [apply nonneg_leb_zero; exact Hr | ].
    unfold leb, SFleb. rewrite Hsw. reflexivity.
  - split; reflexivity.
  - split; [apply nonneg_leb_zero; exact Hr | ].
    unfold leb, SFleb. rewrite Hsw. reflexivity.
  - destruct r as [[ | ] | [ | ] | | [ | ] m e]; discriminate.
Qed.

(** ** The sum stays finite, however many signals *)

Lemma normal_two_60 : normal two_60.
Proof. apply normalb_normal. reflexivity. Qed.

Lemma units_two_60 : units two_60 = 2 ^ (60 + scale).
Proof.
  unfold two_60. cbn [units]. change (Z.pos 4503599627370496) with (2 ^ 52).
  rewrite <- Z.pow_add_r by (unfold scale; lia). f_equal.
Qed.

(** 2^60 + 15 rounds to 2^60: the running sum stays below it. *)
Lemma loop_bounded_step (acc : number * number) (s : Signal) :
  ordinary_signal s -> loop_bounded acc -> loop_bounded (score_step acc s).
Proof.
  intros Hord [GT UT HM]. destruct acc as [T M]. cbn [fst snd] in *.
  pose proof (signalScore_ok s Hord) as [Gs Us Ls Es].
  unfold score_step.
  assert (ET : expo T <= 969).
  { assert (expo T <= 61 - 53); [ | lia].
    apply normal_expo_upper; [exact GT | unfold scale; lia | ].
    rewrite units_two_60 in UT.
    apply Z.le_lt_trans with (1 := UT).
    apply Z.pow_lt_mono_r; unfold scale; lia. }
  destruct (add_spec T (signalScore s) GT Gs ET ltac:(lia)) as (GA & RA & _).
  assert (G15 : normal (of_Z 15)) by (apply normal_of_Z; lia).
  destruct (add_spec two_60 (of_Z 15) normal_two_60 G15
              ltac:(vm_compute; discriminate) ltac:(vm_compute; discriminate))
    as (_ & RP & _).
  change (add two_60 (of_Z 15)) with two_60 in RP.
  destruct (Math_max_normal M (signalScore s) (ok_normal _ HM) Gs)
    as [HMax _].
  constructor; cbn [fst snd].
  - exact GA.
  - apply (rounding_mono Z.lt_0_1 Z.lt_0_1 RA RP).
    rewrite units_of_Z by lia. lia.
  - destruct HMax as [-> | ->]; [exact HM | constructor; assumption].
Qed.

Lemma score_loop_bounded (xs : list Signal) :
  Forall ordinary_signal xs -> xs <> [] -> loop_bounded (score_loop xs).
Proof.
  intros Hord.
  destruct Hord as [ | s xs Hs Hxs]; [congruence | intros _].
  unfold score_loop. cbn [fold_left].
  assert (H : loop_bounded (score_step (of_Z 0, of_Z 0) s)).
  { destruct (loop_inv_first s Hs) as [G L U HM].
    constructor; try assumption.
    rewrite units_two_60.
    apply Z.le_trans with (1 := U).
    replace (60 + scale) with (4 + (56 + scale)) by lia.
    rewrite Z.pow_add_r by (unfold scale; lia).
    assert (2 ^ scale <= 2 ^ (56 + scale))
      by (apply Z.pow_le_mono_r; unfold scale; lia).
    pose proof pow2_scale_pos. lia. }
  revert H. generalize (score_step (of_Z 0, of_Z 0) s).
  induction Hxs as [ | x xs Hx Hxs IH]; intros acc H; cbn [fold_left].
  - exact H.
  - apply IH. apply loop_bounded_step; [exact Hx | exact H].
Qed.

(** Once the score of a signal is NaN, the sum and the maximum are NaN to
    the end of the loop, and so is the score. *)
Lemma add_nan_l (x : number) : add NaN x = NaN.
Proof. destruct x; reflexivity. Qed.

Lemma add_nan_r (x : number) : add x NaN = NaN.
Proof. destruct x as [ | | | sx mx ex]; reflexivity. Qed.

Lemma Math_max_nan_l (x : number) : Math_max NaN x = NaN.
Proof. destruct x; reflexivity. Qed.

Lemma Math_max_nan_r (x : number) : Math_max x NaN = NaN.
Proof. destruct x as [ | | | sx mx ex]; reflexivity. Qed.

Lemma score_loop_nan (xs : list Signal) :
  fold_left score_step xs (NaN, NaN) = (NaN, NaN).
Proof.
  induction xs as [ | x xs IH]; [reflexivity | ].
  cbn [fold_left score_step]. rewrite add_nan_l, Math_max_nan_l. exact IH.
Qed.

Lemma score_loop_inherited (xs : list Signal) :
  ~ Forall ordinary_signal xs ->
  forall acc : number * number, fold_left score_step xs acc = (NaN, NaN).
Proof.
  induction xs as [ | x xs IH]; intros H acc.
  - exfalso. apply H. constructor.
  - cbn [fold_left].
    destruct (Forall_dec ordinary_signal ordinary_signal_dec xs)
      as [Hxs | Hxs].
    + assert (Hx : ~ ordinary_signal x).
      { intros Hx. apply H. constructor; assumption. }
      destruct acc as [T M]. unfold score_step at 2.
      rewrite (signalScore_inherited x Hx), add_nan_r, Math_max_nan_r.
      apply score_loop_nan.
    + apply IH. exact Hxs.
Qed.

Lemma calculateRiskScore_inherited (xs : list Signal) :
  ~ Forall ordinary_signal xs -> calculateRiskScore xs = NaN.
Proof.
  intros H. unfold calculateRiskScore.
  destruct xs as [ | x xs]; [exfalso; apply H; constructor | ].
  cbn [List.length Nat.eqb]. unfold score_loop.
  rewrite (score_loop_inherited (x :: xs) H). reflexivity.
Qed.

(** C4 (the code departs from it): [calculateRiskScore] returns 0 on the
    empty collection, and a severity or a type that names no property at
    all is read as [undefined] and becomes the weight 1 or the factor 1;
    for collections of signals whose types and severities are ordinary the
    score is a number between 0 and 100.  But the tables are read through
    their prototype: for the signal (honeypot, ["constructor"]) the read
    of the weight yields the function [Object], which [|| 1] keeps, the
    score of the signal is NaN and so is the risk score, which is neither
    at least 0 nor at most 100.  So it is for every collection with a
    signal whose type or severity names a property of the prototype. *)
Theorem calculateRiskScore_range :
  calculateRiskScore [] = of_Z 0
  /\ (forall raw,
        inherited raw = None ->
        lookup_or (get SignalSeverity_eqb SEVERITY_WEIGHTS (unknown raw))
          (of_Z 1) = own (Some (of_Z 1))
        /\ lookup_or (get SignalType_eqb TYPE_RISK_FACTORS (unknown raw))
             (of_Z 1) = own (Some (of_Z 1)))
  /\ (forall signals,
        Forall ordinary_signal signals ->
        leb (of_Z 0) (calculateRiskScore signals) = true
        /\ leb (calculateRiskScore signals) (of_Z 100) = true)
  /\ (let s := mkSignal "1" (known honeypot) (unknown "constructor") "" ""
                 None (of_Z 0) None in
      get SignalSeverity_eqb SEVERITY_WEIGHTS (severity s)
      = from_prototype "function Object() { [native code] }"
      /\ signalScore s = NaN
      /\ calculateRiskScore [s] = NaN
      /\ leb (of_Z 0) (calculateRiskScore [s]) = false
      /\ leb (calculateRiskScore [s]) (of_Z 100) = false)
  /\ (forall signals,
        ~ Forall ordinary_signal signals ->
        calculateRiskScore signals = NaN).
Proof.
  split; [reflexivity | ].
  split.
  { intros raw H. split.
    - rewrite (get_ordinary SignalSeverity_eqb _ (unknown raw) H).
      reflexivity.
    - rewrite (get_ordinary SignalType_eqb _ (unknown raw) H).
      reflexivity. }
  split; [ | split; [ | apply calculateRiskScore_inherited]].
  2: { cbv zeta. repeat split; vm_compute; reflexivity. }
  intros xs Hord. destruct xs as [ | s xs]; [split; reflexivity | ].
  rewrite calculateRiskScore_combine by discriminate.
  destruct (score_loop_bounded (s :: xs) Hord ltac:(discriminate))
    as [GT _ HM].
  unfold combine. apply Math_min_100_range.
  assert (G6 : normal (tenths 6)) by (apply normalb_normal; reflexivity).
  assert (G4 : normal (tenths 4)) by (apply normalb_normal; reflexivity).
  assert (G10 : normal (of_Z 10)) by (apply normalb_normal; reflexivity).
  apply Math_round_nonneg, mul_nonneg; [ | exact G10].
  apply add_nonneg; (apply mul_nonneg; [ | assumption]).
  - apply div_nonneg; [exact GT | apply of_Z_nonneg; lia].
  - destruct (ok_normal _ HM) as (m & e & -> & _). reflexivity.
Qed.

(** ** One more critical rugpull signal *)

(** With [t] the sum, [t'] the rounded [t + 15] and [n] the number of
    signals: when the new mean is below 7, the rounding error of [t'] is
    too small to make the mean decrease. *)
Lemma average_grows (t t' n u : Z) :
  0 < u -> 1 <= n < 2 ^ 32 -> 0 <= t -> t <= t' ->
  (2 ^ 53 - 1) * (t + 15 * u) <= 2 ^ 53 * t' ->
  t' < 7 * (n + 1) * u ->
  t * (n + 1) <= t' * n.
Proof.
  intros Hu Hn Ht Htt Herr Hsmall.
  assert (H1 : (2 ^ 53 - 1) * (t + 15 * u) * n <= 2 ^ 53 * t' * n) by nia.
  assert (H2 : t < 7 * (n + 1) * u) by lia.
  assert (H3 : (t + 15 * u) * n <= (7 * n + 22) * u * n) by nia.
  assert (H4 : (7 * n + 22) * (u * n) <= 2 ^ 53 * (u * n)) by nia.
  assert (H5 : 2 ^ 53 * (u * n) <= 2 ^ 53 * (15 * u * n - t)) by nia.
  nia.
Qed.

Lemma signalScore_critical_rugpull (r : Signal) :
  severity r = known critical -> type r = known rugpull_risk ->
  signalScore r = of_Z 15.
Proof.
  intros Hs Ht. unfold signalScore. rewrite Hs, Ht. vm_compute. reflexivity.
Qed.

Lemma score_loop_app (xs : list Signal) (r : Signal) :
  score_loop (xs ++ [r]) = score_step (score_loop xs) r.
Proof. unfold score_loop. rewrite fold_left_app. reflexivity. Qed.

Lemma combine_7_15 : combine (of_Z 7) (of_Z 15) = of_Z 100.
Proof. vm_compute. reflexivity. Qed.

(** Either the new mean is at least 7, and the new score is 100, or the
    mean and the maximum do not decrease, and neither does the score. *)
Lemma calculateRiskScore_append_grows (xs : list Signal) (r : Signal) :
  Forall ordinary_signal xs -> ordinary_signal r ->
  signalScore r = of_Z 15 ->
  xs <> [] -> Z.of_nat (List.length (xs ++ [r])) < 2 ^ 32 ->
  units (calculateRiskScore xs) <= units (calculateRiskScore (xs ++ [r])).
Proof.
  intros Hord Hrord Hr Hne Hlen.
  rewrite length_app in Hlen. cbn [List.length] in Hlen.
  rewrite Nat2Z.inj_add in Hlen. cbn [Z.of_nat Pos.of_succ_nat] in Hlen.
  set (n := Z.of_nat (List.length xs)) in *.
  assert (Hn : 1 <= n)
    by (unfold n; destruct xs; [congruence | cbn [List.length]; lia]).
  assert (Hne' : xs ++ [r] <> []) by (destruct xs; discriminate).
  rewrite (calculateRiskScore_combine xs Hne).
  rewrite (calculateRiskScore_combine (xs ++ [r]) Hne').
  rewrite length_app. cbn [List.length]. rewrite Nat2Z.inj_add.
  cbn [Z.of_nat Pos.of_succ_nat]. fold n.
  rewrite score_loop_app.
  pose proof (score_loop_inv xs Hord Hne ltac:(fold n; lia)) as Inv.
  fold n in Inv.
  pose proof (loop_inv_step n _ r Hrord Hn Hlen Inv) as Inv'.
  destruct (score_loop xs) as [T M].
  destruct Inv as [GT LT UT HM]. cbn [fst snd] in GT, LT, UT, HM.
  destruct Inv' as [GT' LT' UT' HM'].
  unfold score_step in *. rewrite Hr in *. cbn [fst snd] in *. 
  pose proof pow2_scale_pos as PK.
  assert (G15 : normal (of_Z 15)) by (apply normal_of_Z; lia).
  assert (V15 : units (of_Z 15) = 15 * 2 ^ scale) by (apply units_of_Z; lia).
  destruct (average_spec T n GT (conj LT UT) ltac:(lia)) as (GA & RA & EA).
  destruct (average_spec _ (n + 1) GT' (conj LT' UT') ltac:(lia))
    as (GA' & RA' & EA').
  (* the maximum becomes 15 *)
  destruct (Math_max_normal M (of_Z 15) (ok_normal _ HM) G15) as [_ VM'].
  assert (HMM : units M <= units (Math_max M (of_Z 15))) by lia.
  (* the sum after the new signal *)
  assert (ET : expo T <= 969).
  { assert (expo T <= 36 - 53); [ | lia].
    apply normal_expo_upper; [exact GT | unfold scale; lia | ].
    rewrite Z.pow_add_r by (unfold scale; lia). nia. }
  destruct (add_spec T (of_Z 15) GT G15 ET ltac:(vm_compute; discriminate))
    as (_ & RT & _).
  rewrite V15 in RT.
  assert (HTT : units T <= units (add T (of_Z 15))).
  { apply (rounding_mono Z.lt_0_1 Z.lt_0_1 (rounding_self T GT) RT).
    lia. }
  pose proof (rounding_error Z.lt_0_1 RT) as Herr.
  assert (HBn : 0 < n * 2 ^ scale) by nia.
  assert (HBn' : 0 < (n + 1) * 2 ^ scale) by nia.
  destruct (Z_lt_le_dec (units (add T (of_Z 15))) (7 * (n + 1) * 2 ^ scale))
    as [Hsmall | Hlarge].
  - (* the average does not decrease *)
    apply combine_mono; try assumption; try apply HM; try apply HM'.
    apply (rounding_mono HBn HBn' RA RA').
    assert (units T * (n + 1) <= units (add T (of_Z 15)) * n).
    { apply average_grows with (u := 2 ^ scale); try lia. }
    nia.
  - (* the new score is 100 *)
    apply Z.le_trans with (units (of_Z 100)).
    + apply combine_normal; try assumption; apply HM.
    + rewrite <- combine_7_15 at 1.
      assert (G7 : normal (of_Z 7)) by (apply normal_of_Z; lia).
      assert (E7 : -85 <= expo (of_Z 7) <= -49)
        by (vm_compute; split; discriminate).
      assert (E15 : -53 <= expo (of_Z 15) <= -49)
        by (vm_compute; split; discriminate).
      apply (combine_mono G7 G15 E7 E15 GA' (ok_normal _ HM') EA'
               (ok_expo _ HM')).
      * apply (rounding_mono Z.lt_0_1 HBn' (rounding_self _ G7) RA').
        rewrite units_of_Z by lia. nia.
      * lia.
Qed.

Lemma isHighRisk_append_override (xs : list Signal) (r : Signal) :
  severity r = known critical -> isHighRisk (xs ++ [r]) = true.
Proof.
  intros Hs. unfold isHighRisk. apply orb_true_iff. right.
  rewrite existsb_app. apply orb_true_iff. right.
  cbn [existsb]. rewrite Hs. cbn [field_is SignalSeverity_eqb].
  rewrite orb_true_r. reflexivity.
Qed.

(** C6: appending a signal of severity critical and type rugpull_risk to
    a collection of signals whose types and severities are ordinary (of the
    enumerations, or strings that name no property of the tables) never
    lowers [calculateRiskScore], and makes [isHighRisk] true. *)
Theorem critical_rugpull_monotone (xs : list Signal) (r : Signal) :
  severity r = known critical -> type r = known rugpull_risk ->
  is_array (xs ++ [r]) ->
  Forall ordinary_signal xs ->
  geb (calculateRiskScore (xs ++ [r])) (calculateRiskScore xs) = true
  /\ isHighRisk (xs ++ [r]) = true.
Proof.
  intros Hs Ht Hlen Hord. unfold is_array in Hlen.
  split; [ | apply isHighRisk_append_override; exact Hs].
  change (leb (calculateRiskScore xs) (calculateRiskScore (xs ++ [r])) = true).
  assert (Hr : ordinary_signal r).
  { unfold ordinary_signal. rewrite Hs, Ht. split; reflexivity. }
  assert (Hord' : Forall ordinary_signal (xs ++ [r])).
  { apply Forall_app. split; [exact Hord | constructor; [exact Hr | ]].
    constructor. }
  assert (Hne' : xs ++ [r] <> []) by (destruct xs; discriminate).
  destruct (calculateRiskScore_normal (xs ++ [r]) Hord' Hne' Hlen) as [G' _].
  destruct xs as [ | s xs].
  - apply normal_nonneg. exact G'.
  - assert (Hne : s :: xs <> []) by discriminate.
    assert (Hlen0 : Z.of_nat (List.length (s :: xs)) < 2 ^ 32).
    { rewrite length_app in Hlen. cbn [List.length] in *. lia. }
    destruct (calculateRiskScore_normal (s :: xs) Hord Hne Hlen0) as [G _].
    apply normal_leb_iff; [exact G | exact G' | ].
    apply calculateRiskScore_append_grows;
      [exact Hord | exact Hr | apply signalScore_critical_rugpull; assumption
      | exact Hne | exact Hlen].
Qed.

Lemma critical_rugpull_monotone_witness :
  let xs := [sig "a" contract_risk high; sig "b" social_sentiment low] in
  let r := sig "c" rugpull_risk critical in
  geb (calculateRiskScore (xs ++ [r])) (calculateRiskScore xs) = true
  /\ isHighRisk (xs ++ [r]) = true.
Proof.
  intros xs r.
  apply (critical_rugpull_monotone xs r);
    [reflexivity | reflexivity | reflexivity | repeat constructor].
Defined.

(** * More of the signal views *)

(** ** Fields *)

Lemma field_eqb_type_eq (x y : field SignalType) :
  field_eqb SignalType_eqb x y = true <-> x = y.
Proof.
  destruct x as [a | r1], y as [b | r2]; simpl.
  - rewrite SignalType_eqb_eq. split; [intros -> | intros [= ->]]; reflexivity.
  - split; discriminate.
  - split; discriminate.
  - rewrite String.eqb_eq. split; [intros -> | intros [= ->]]; reflexivity.
Qed.

Lemma field_eqb_type_refl (x : field SignalType) :
  field_eqb SignalType_eqb x x = true.
Proof. apply field_eqb_type_eq. reflexivity. Qed.

Lemma field_eqb_type_neq (x y : field SignalType) :
  field_eqb SignalType_eqb x y = false <-> x <> y.
Proof.
  rewrite <- field_eqb_type_eq.
  destruct (field_eqb SignalType_eqb x y); split; congruence.
Qed.

Lemma includes_In (types : list (field SignalType)) (t : field SignalType) :
  includes types t = true <-> In t types.
Proof.
  unfold includes. rewrite existsb_exists. split.
  - intros (u & Hin & E). apply field_eqb_type_eq in E. subst u. exact Hin.
  - intros Hin. exists t. split; [exact Hin | apply field_eqb_type_refl].
Qed.

(** ** [filterByType] *)


(** ** [groupByType] *)

Lemma group_get_set (acc : groups) (k k' : field SignalType)
  (v : list Signal) :
  group_get (group_set acc k v) k'
  = if field_eqb SignalType_eqb k k' then Some v else group_get acc k'.
Proof.
  induction acc as [ | [k0 v0] acc IH]; simpl.
  - reflexivity.
  - destruct (field_eqb SignalType_eqb k0 k) eqn:E0; simpl.
    + apply field_eqb_type_eq in E0. subst k0.
      destruct (field_eqb SignalType_eqb k k'); reflexivity.
    + destruct (field_eqb SignalType_eqb k0 k') eqn:E1.
      * apply field_eqb_type_eq in E1. subst k'.
        apply field_eqb_type_neq in E0.
        replace (field_eqb SignalType_eqb k k0) with false; [reflexivity | ].
        symmetry. apply field_eqb_type_neq. congruence.
      * exact IH.
Qed.

Lemma group_set_set (acc : groups) (k : field SignalType)
  (v v' : list Signal) :
  group_set (group_set acc k v) k v' = group_set acc k v'.
Proof.
  induction acc as [ | [k0 v0] acc IH]; simpl.
  - rewrite field_eqb_type_refl. reflexivity.
  - destruct (field_eqb SignalType_eqb k0 k) eqn:E; simpl; rewrite E.
    + reflexivity.
    + rewrite IH. reflexivity.
Qed.

(** The read of an ordinary key yields the accumulator's own property. *)
Lemma group_read_ordinary (acc : groups) (k : field SignalType) :
  ordinary k -> group_read acc k = own (group_get acc k).
Proof.
  unfold ordinary, group_read, through_prototype. intros ->.
  destruct (group_get acc k); reflexivity.
Qed.

(** The read of a key the accumulator has no property for, and the
    prototype has. *)
Lemma group_read_inherited (acc : groups) (k : field SignalType)
  (text : string) :
  field_inherited k = Some text -> group_get acc k = None ->
  group_read acc k = from_prototype text.
Proof.
  intros Hk Hget. unfold group_read, through_prototype.
  rewrite Hget, Hk. reflexivity.
Qed.

(** One turn of the [reduce] on a signal of an ordinary type. *)
Lemma group_step_ordinary (acc : groups) (s : Signal) :
  ordinary (type s) -> group_step acc s = Some (group_add acc s).
Proof.
  intros Hs. unfold group_step, group_add.
  rewrite (group_read_ordinary acc _ Hs).
  destruct (group_get acc (type s)) as [g | ] eqn:E.
  - rewrite (group_read_ordinary acc _ Hs), E. reflexivity.
  - rewrite (group_read_ordinary _ _ Hs), group_get_set, field_eqb_type_refl.
    rewrite group_set_set. reflexivity.
Qed.

(** One turn on a signal whose type names a property of the prototype:
    the read yields that property, which has no [push]. *)
Lemma group_step_inherited (acc : groups) (s : Signal) :
  ~ ordinary (type s) -> group_get acc (type s) = None ->
  group_step acc s = None.
Proof.
  unfold ordinary. intros Hs Hget.
  destruct (field_inherited (type s)) as [text | ] eqn:E; [ | congruence].
  unfold group_step.
  rewrite !(group_read_inherited acc _ text E Hget). reflexivity.
Qed.

(** What one more signal does to the group of every type. *)
Lemma group_get_add (acc : groups) (s : Signal) (t : field SignalType) :
  group_get (group_add acc s) t
  = if field_eqb SignalType_eqb (type s) t
    then Some (match group_get acc t with Some g => g | None => [] end
               ++ [s])
    else group_get acc t.
Proof.
  unfold group_add. rewrite group_get_set.
  destruct (field_eqb SignalType_eqb (type s) t) eqn:Et; [ | reflexivity].
  apply field_eqb_type_eq in Et. subst t. reflexivity.
Qed.

Lemma grouped_snoc (xs : list Signal) (s : Signal) :
  grouped (xs ++ [s]) = group_add (grouped xs) s.
Proof. unfold grouped. rewrite fold_left_app. reflexivity. Qed.

Lemma groupByType_snoc (xs : list Signal) (s : Signal) :
  groupByType (xs ++ [s])
  = match groupByType xs with
    | Some acc => group_step acc s
    | None => None
    end.
Proof. unfold groupByType. rewrite fold_left_app. reflexivity. Qed.

Lemma filterByType_snoc_one (xs : list Signal) (s : Signal)
  (t : field SignalType) :
  filterByType (xs ++ [s]) [t]
  = filterByType xs [t]
    ++ (if field_eqb SignalType_eqb (type s) t then [s] else []).
Proof.
  unfold filterByType. rewrite filter_app. f_equal.
  cbn [filter includes existsb].
  rewrite orb_false_r.
  destruct (field_eqb SignalType_eqb t (type s)) eqn:E.
  - apply field_eqb_type_eq in E. subst t. rewrite field_eqb_type_refl.
    reflexivity.
  - apply field_eqb_type_neq in E.
    replace (field_eqb SignalType_eqb (type s) t) with false; [reflexivity | ].
    symmetry. apply field_eqb_type_neq. congruence.
Qed.

Lemma grouped_get (xs : list Signal) (t : field SignalType) :
  group_get (grouped xs) t
  = match filterByType xs [t] with
    | [] => None
    | g => Some g
    end.
Proof.
  induction xs as [ | s xs IH] using rev_ind; [reflexivity | ].
  rewrite grouped_snoc, group_get_add, filterByType_snoc_one, IH.
  destruct (field_eqb SignalType_eqb (type s) t).
  - destruct (filterByType xs [t]) as [ | a g]; reflexivity.
  - rewrite app_nil_r. reflexivity.
Qed.

Lemma filterByType_one_In (signals : list Signal) (t : field SignalType)
  (s : Signal) :
  In s (filterByType signals [t]) <-> In s signals /\ type s = t.
Proof.
  unfold filterByType. rewrite filter_In, includes_In.
  cbn [In]. intuition congruence.
Qed.

(** [groupByType] returns the accumulator [grouped] if every type is
    ordinary, and throws otherwise. *)
Lemma groupByType_cases (signals : list Signal) :
  (Forall (fun s => ordinary (type s)) signals
   /\ groupByType signals = Some (grouped signals))
  \/ (~ Forall (fun s => ordinary (type s)) signals
      /\ groupByType signals = None).
Proof.
  induction signals as [ | s xs IH] using rev_ind.
  - left. split; [constructor | reflexivity].
  - rewrite groupByType_snoc, grouped_snoc.
    destruct IH as [[Hxs ->] | [Hxs ->]].
    + destruct (ordinary_dec (type s)) as [Hs | Hs].
      * left. split; [ | apply group_step_ordinary; exact Hs].
        apply Forall_app. split; [exact Hxs | ]. constructor; [exact Hs | ].
        constructor.
      * right. split.
        { intros H. apply Forall_app in H. destruct H as [_ H].
          inversion H; subst. contradiction. }
        apply group_step_inherited; [exact Hs | ].
        rewrite grouped_get.
        destruct (filterByType xs [type s]) as [ | a g] eqn:E; [reflexivity | ].
        exfalso. apply Hs.
        destruct (proj1 (filterByType_one_In xs (type s) a)) as [Ha <-].
        { rewrite E. left. reflexivity. }
        rewrite Forall_forall in Hxs. apply Hxs. exact Ha.
    + right. split; [ | reflexivity].
      intros H. apply Hxs. apply Forall_app in H. apply H.
Qed.

(** X2: [groupByType] throws a TypeError exactly when the type of some
    signal names a property of [Object.prototype], such as
    ["constructor"].  Otherwise it returns an object in which the read of
    an ordinary type yields the array of the signals of that type, in
    their original order, or [undefined] if there is none; the read of any
    other type yields what the object inherits. *)
Theorem groupByType_lookup (signals : list Signal) (t : field SignalType) :
  (groupByType signals = None
   <-> exists s, In s signals /\ ~ ordinary (type s))
  /\ (forall acc,
        groupByType signals = Some acc ->
        (forall text, field_inherited t = Some text ->
                      group_read acc t = from_prototype text)
        /\ (ordinary t ->
            (group_read acc t = own None
             <-> forall s, In s signals -> type s <> t)
            /\ (forall g, group_read acc t = own (Some g) ->
                          g = filterByType signals [t] /\ g <> []
                          /\ forall s, In s g
                                       <-> In s signals /\ type s = t))).
Proof.
  split.
  - destruct (groupByType_cases signals) as [[Hall ->] | [Hnot ->]].
    + split; [discriminate | ]. intros (s & Hin & Hs). exfalso. apply Hs.
      rewrite Forall_forall in Hall. apply Hall. exact Hin.
    + split; [ | reflexivity]. intros _.
      apply neg_Forall_Exists_neg in Hnot;
        [ | intros x; apply ordinary_dec].
      apply Exists_exists in Hnot. exact Hnot.
  - intros acc Hacc.
    destruct (groupByType_cases signals) as [[Hall E] | [_ E]];
      [ | congruence].
    rewrite E in Hacc. injection Hacc as <-.
    split.
    + intros text Ht. apply group_read_inherited; [exact Ht | ].
      rewrite grouped_get.
      destruct (filterByType signals [t]) as [ | a g] eqn:Ef; [reflexivity | ].
      exfalso.
      destruct (proj1 (filterByType_one_In signals t a)) as [Ha Hta].
      { rewrite Ef. left. reflexivity. }
      rewrite Forall_forall in Hall. specialize (Hall a Ha).
      unfold ordinary in Hall. congruence.
    + intros Ht. rewrite (group_read_ordinary _ _ Ht), grouped_get.
      pose proof (filterByType_one_In signals t) as Hin.
      split.
      * destruct (filterByType signals [t]) as [ | a g] eqn:Ef.
        -- split; [ | reflexivity]. intros _ s Hs Hst.
           exact (proj2 (Hin s) (conj Hs Hst)).
        -- split; [discriminate | ]. intros H. exfalso.
           destruct (proj1 (Hin a) (or_introl eq_refl)) as [Ha Hta].
           exact (H a Ha Hta).
      * intros g Hg.
        destruct (filterByType signals [t]) as [ | a g'] eqn:Ef;
          [discriminate | ].
        injection Hg as <-. split; [reflexivity | split; [discriminate | ]].
        exact Hin.
Qed.

Lemma group_set_keys_present (acc : groups) (k : field SignalType)
  (v0 v : list Signal) :
  group_get acc k = Some v0 ->
  map fst (group_set acc k v) = map fst acc
  /\ Permutation (List.concat (map snd (group_set acc k (v0 ++ v))))
       (List.concat (map snd acc) ++ v).
Proof.
  induction acc as [ | [k0 g0] acc IH]; simpl; [discriminate | ].
  destruct (field_eqb SignalType_eqb k0 k) eqn:E.
  - intros [= ->]. split; [reflexivity | ]. simpl.
    rewrite <- !app_assoc. apply Permutation_app_head.
    apply Permutation_app_comm.
  - intros H. destruct (IH H) as [IH1 IH2]. simpl. split.
    + f_equal. exact IH1.
    + rewrite <- app_assoc. apply Permutation_app_head. exact IH2.
Qed.

Lemma group_set_keys_absent (acc : groups) (k : field SignalType)
  (v : list Signal) :
  group_get acc k = None ->
  group_set acc k v = acc ++ [(k, v)].
Proof.
  induction acc as [ | [k0 g0] acc IH]; simpl; [reflexivity | ].
  destruct (field_eqb SignalType_eqb k0 k); [discriminate | ].
  intros H. rewrite (IH H). reflexivity.
Qed.

Lemma group_get_None_keys (acc : groups) (k : field SignalType) :
  group_get acc k = None -> ~ In k (map fst acc).
Proof.
  induction acc as [ | [k0 g0] acc IH]; simpl; [tauto | ].
  destruct (field_eqb SignalType_eqb k0 k) eqn:E; [discriminate | ].
  apply field_eqb_type_neq in E. intros H [H0 | H0]; [congruence | ].
  exact (IH H H0).
Qed.

(** One more signal keeps the keys distinct and adds the signal to the
    signals held. *)
Lemma group_add_partition (acc : groups) (s : Signal) :
  NoDup (map fst acc) ->
  NoDup (map fst (group_add acc s))
  /\ Permutation (List.concat (map snd (group_add acc s)))
       (List.concat (map snd acc) ++ [s]).
Proof.
  intros Hnd. unfold group_add.
  destruct (group_get acc (type s)) as [g | ] eqn:E.
  - destruct (group_set_keys_present acc _ g [s] E) as [K P].
    rewrite (proj1 (group_set_keys_present acc _ g (g ++ [s]) E)).
    split; [exact Hnd | exact P].
  - rewrite (group_set_keys_absent acc _ _ E).
    split.
    + rewrite map_app. simpl.
      apply NoDup_incl_NoDup with (l := type s :: map fst acc).
      * constructor; [apply group_get_None_keys; exact E | exact Hnd].
      * rewrite length_app. simpl. lia.
      * intros x [<- | Hx]; apply in_or_app; simpl; tauto.
    + rewrite map_app, concat_app. simpl. rewrite ?app_nil_r.
      apply Permutation_refl.
Qed.

Lemma grouped_partition (signals : list Signal) :
  NoDup (map fst (grouped signals))
  /\ Permutation signals (List.concat (map snd (grouped signals))).
Proof.
  induction signals as [ | s xs [IH1 IH2]] using rev_ind.
  - split; [constructor | apply perm_nil].
  - rewrite grouped_snoc.
    destruct (group_add_partition (grouped xs) s IH1) as [N P].
    split; [exact N | ].
    apply Permutation_sym. apply perm_trans with (1 := P).
    apply Permutation_app_tail. apply Permutation_sym. exact IH2.
Qed.

Lemma group_get_In (acc : groups) (k : field SignalType) (g : list Signal) :
  NoDup (map fst acc) -> In (k, g) acc -> group_get acc k = Some g.
Proof.
  induction acc as [ | [k0 v0] acc IH]; simpl; [tauto | ].
  intros Hnd [[= -> ->] | Hin].
  - rewrite field_eqb_type_refl. reflexivity.
  - inversion Hnd as [ | ? ? Hk0 Hnd']; subst.
    destruct (field_eqb SignalType_eqb k0 k) eqn:E.
    + apply field_eqb_type_eq in E. subst k0. exfalso. apply Hk0.
      apply in_map_iff. exists (k, g). split; [reflexivity | exact Hin].
    + apply IH; assumption.
Qed.

(** X3: on a collection in which every type is ordinary (of the
    enumeration, or a string that names no property of [Object.prototype])
    [groupByType] returns, and what it returns partitions the collection:
    the groups have distinct keys, none is empty, each holds the signals of
    its key in their original order, and together they hold every signal
    exactly once.  The empty collection gives the empty object.  Whenever
    [groupByType] returns, it returns such a partition. *)
Theorem groupByType_partition (signals : list Signal) :
  groupByType [] = Some []
  /\ ((forall s, In s signals -> ordinary (type s)) ->
      exists acc, groupByType signals = Some acc)
  /\ (forall acc,
        groupByType signals = Some acc ->
        NoDup (map fst acc)
        /\ Permutation signals (List.concat (map snd acc))
        /\ (forall k g, In (k, g) acc ->
                        g <> [] /\ g = filterByType signals [k])).
Proof.
  split; [reflexivity | split].
  - intros Hall.
    destruct (groupByType_cases signals) as [[_ E] | [Hnot _]].
    + exists (grouped signals). exact E.
    + exfalso. apply Hnot. apply Forall_forall. exact Hall.
  - intros acc Hacc.
    destruct (groupByType_cases signals) as [[_ E] | [_ E]]; [ | congruence].
    rewrite E in Hacc. injection Hacc as <-.
    destruct (grouped_partition signals) as [Hnd Hperm].
    split; [exact Hnd | split; [exact Hperm | ]].
    intros k g Hin.
    pose proof (group_get_In _ k g Hnd Hin) as Hget.
    rewrite grouped_get in Hget.
    destruct (filterByType signals [k]) as [ | a g'] eqn:E'; [discriminate | ].
    injection Hget as <-. split; [discriminate | reflexivity].
Qed.

(** ** Thresholds of [filterBySeverity] *)

Lemma filter_twice {A : Type} (p q : A -> bool) (l : list A) :
  filter p (filter q l) = filter (fun a => q a && p a) l.
Proof.
  induction l as [ | a l IH]; [reflexivity | ].
  cbn [filter]. destruct (q a); cbn [filter andb]; rewrite IH; reflexivity.
Qed.

(** X4: a threshold that names no property at all has the weight
    [undefined], and [filterBySeverity] then returns the empty array; a
    signal whose severity is not declared passes no ordinary threshold, so
    the threshold info keeps exactly the signals of a declared severity.
    Filtering twice is filtering by the heavier threshold, and a heavier
    threshold keeps a part of what a lighter one keeps.  A threshold that
    names a property of [Object.prototype] keeps only signals whose
    severity names one too: the threshold ["constructor"] keeps a signal
    of severity ["constructor"] and drops a critical one. *)
Theorem filterBySeverity_thresholds (signals : list Signal) :
  (forall raw, inherited raw = None ->
               filterBySeverity signals (unknown raw) = [])
  /\ (forall minSeverity s,
         ordinary minSeverity ->
         In s (filterBySeverity signals minSeverity) -> recognized s)
  /\ (forall s, In s (filterBySeverity signals (known info))
                <-> In s signals /\ recognized s)
  /\ (forall a b : SignalSeverity,
         filterBySeverity (filterBySeverity signals (known a)) (known b)
         = filterBySeverity signals
             (known (if weightZ a <=? weightZ b then b else a)))
  /\ (forall (a b : SignalSeverity) s,
         weightZ a <= weightZ b ->
         In s (filterBySeverity signals (known b)) ->
         In s (filterBySeverity signals (known a)))
  /\ (forall minSeverity s,
         ~ ordinary minSeverity ->
         In s (filterBySeverity signals minSeverity) ->
         ~ ordinary (severity s))
  /\ (let a := mkSignal "a" (known honeypot) (unknown "constructor") "" ""
                 None (of_Z 0) None in
      let b := sig "b" honeypot critical in
      filterBySeverity [a; b] (unknown "constructor") = [a]).
Proof.
  split; [ | split; [ | split; [ | split; [ | split; [ | split]]]]].
  - intros raw Hraw. unfold filterBySeverity.
    rewrite (get_ordinary _ _ (unknown raw) Hraw), table_get_unknown.
    induction signals as [ | s l IH]; [reflexivity | ].
    cbn [filter]. replace (lookup_geb _ _) with false; [exact IH | ].
    destruct (get SignalSeverity_eqb SEVERITY_WEIGHTS (severity s))
      as [[x | ] | text]; [ | reflexivity | reflexivity].
    destruct x; reflexivity.
  - intros m s Hm Hin. unfold filterBySeverity in Hin.
    apply filter_In in Hin. destruct Hin as [_ H].
    destruct (severity s) as [v | raw] eqn:E; [exists v; exact E | ].
    exfalso. rewrite (get_ordinary _ _ m Hm) in H.
    unfold get, through_prototype in H. rewrite table_get_unknown in H.
    destruct (field_inherited (unknown raw)); [discriminate H | ].
    cbn [lookup_geb ToNumber] in H.
    destruct (ToNumber (table_get SignalSeverity_eqb SEVERITY_WEIGHTS m));
      discriminate H.
  - intros s. rewrite filterBySeverity_known, filter_In. unfold reaches.
    split; intros [Hin H]; (split; [exact Hin | ]).
    + destruct (severity s) as [v | raw] eqn:E; [ | discriminate].
      exists v. exact E.
    + destruct H as [v ->]. destruct v; reflexivity.
  - intros a b. rewrite !filterBySeverity_known.
    rewrite filter_twice. apply filter_ext. intros s. unfold reaches.
    destruct (severity s) as [v | raw]; [ | reflexivity].
    destruct (Z.leb_spec (weightZ a) (weightZ b));
      destruct (Z.leb_spec (weightZ a) (weightZ v));
      destruct (Z.leb_spec (weightZ b) (weightZ v));
      first [reflexivity | exfalso; lia].
  - intros a b s Hab. rewrite !filterBySeverity_known, !filter_In.
    unfold reaches. intros [Hin H]. split; [exact Hin | ].
    destruct (severity s) as [v | raw]; [ | discriminate].
    apply Z.leb_le. apply Z.leb_le in H. lia.
  - intros m s Hm Hin Hs. unfold filterBySeverity in Hin.
    apply filter_In in Hin. destruct Hin as [_ H].
    rewrite (get_ordinary _ _ _ Hs) in H.
    destruct m as [v | raw]; [apply Hm; reflexivity | ].
    unfold ordinary in Hm. cbn [field_inherited] in Hm.
    destruct (inherited raw) as [text | ] eqn:E; [ | congruence].
    rewrite (get_inherited _ _ raw text E) in H. discriminate H.
  - vm_compute. reflexivity.
Qed.

Lemma filterBySeverity_thresholds_witness :
  In (sig "2" honeypot critical)
     (filterBySeverity [sig "1" honeypot low; sig "2" honeypot critical]
        (known medium)).
Proof.
  apply (proj1 (proj2 (proj2 (proj2 (proj2
           (filterBySeverity_thresholds
              [sig "1" honeypot low; sig "2" honeypot critical])))))
           medium high (sig "2" honeypot critical)).
  - vm_compute. discriminate.
  - vm_compute. left. reflexivity.
Defined.

(** ** The sorted array and the filters *)

Lemma sortBySeverity_content (st : Store.store) (signals : Store.ref)
  (xs : list Signal) :
  Store.read st signals = Some xs ->
  exists st' out,
    sortBySeverity st signals = Some (st', out)
    /\ Store.read st' out = Some (sort_elements bySeverity xs).
Proof.
  intros Hread. unfold sortBySeverity, Store.spread. rewrite Hread.
  pose proof (read_alloc_new st xs) as Hnew.
  destruct (Store.alloc st xs) as [st1 out] eqn:E. cbn [fst snd] in Hnew.
  unfold Store.Array_sort. rewrite Hnew.
  eexists _, _. split; [reflexivity | ].
  apply read_write_same with (old := xs). exact Hnew.
Qed.

(** In a list ordered by a key, larger keys first, the elements whose key
    reaches a bound are a prefix. *)
Lemma sorted_prefix {A : Type} (key : A -> Z) (c : Z) (l : list A) :
  StronglySorted (key_order key) l ->
  l = filter (fun a => c <=? key a) l
      ++ filter (fun a => negb (c <=? key a)) l.
Proof.
  intros Hs. induction Hs as [ | a l Hs IH Ha]; [reflexivity | ].
  cbn [filter]. destruct (c <=? key a) eqn:E; cbn [negb].
  - simpl. f_equal. exact IH.
  - apply Z.leb_gt in E.
    assert (Hall : forall b, In b l -> (c <=? key b) = false).
    { rewrite Forall_forall in Ha. intros b Hb. apply Z.leb_gt.
      specialize (Ha b Hb). unfold key_order in Ha. lia. }
    assert (E1 : filter (fun a => c <=? key a) l = []).
    { clear - Hall. induction l as [ | b l IH]; [reflexivity | ].
      cbn [filter]. rewrite (Hall b) by (left; reflexivity).
      apply IH. intros b' Hb'. apply Hall. right. exact Hb'. }
    assert (E2 : filter (fun a => negb (c <=? key a)) l = l).
    { clear - Hall. induction l as [ | b l IH]; [reflexivity | ].
      cbn [filter]. rewrite (Hall b) by (left; reflexivity). cbn [negb].
      f_equal. apply IH. intros b' Hb'. apply Hall. right. exact Hb'. }
    rewrite E1, E2. reflexivity.
Qed.

Lemma StronglySorted_kept {A : Type} (R : A -> A -> Prop) (p : A -> bool)
  (l : list A) :
  StronglySorted R l -> StronglySorted R (filter p l).
Proof.
  intros Hs. induction Hs as [ | a l Hs IH Ha]; [constructor | ].
  cbn [filter]. destruct (p a); [ | exact IH].
  constructor; [exact IH | ].
  rewrite Forall_forall in *. intros b Hb. apply filter_In in Hb.
  apply Ha. apply Hb.
Qed.

Lemma filter_swap {A : Type} (p q : A -> bool) (l : list A) :
  filter p (filter q l) = filter q (filter p l).
Proof.
  induction l as [ | a l IH]; [reflexivity | ].
  cbn [filter]. destruct (p a) eqn:Ep, (q a) eqn:Eq; cbn [filter];
    rewrite ?Ep, ?Eq, IH; reflexivity.
Qed.

Lemma Forall_kept {A : Type} (P : A -> Prop) (p : A -> bool) (l : list A) :
  Forall P l -> Forall P (filter p l).
Proof.
  rewrite !Forall_forall. intros H a Ha. apply filter_In in Ha. apply H, Ha.
Qed.

Lemma reaches_key (m : SignalSeverity) (l : list Signal) :
  Forall recognized l ->
  filter (reaches m) l = filter (fun s => weightZ m <=? weight_key s) l.
Proof.
  intros Hl. induction Hl as [ | s l [v Hs] Hl IH]; [reflexivity | ].
  cbn [filter]. rewrite IH. unfold reaches, weight_key, known_weight.
  rewrite Hs. reflexivity.
Qed.

Lemma getCriticalSignals_reaches (signals : list Signal) :
  getCriticalSignals signals = filter (reaches high) signals.
Proof.
  unfold getCriticalSignals. apply filter_ext. intros s. unfold reaches.
  destruct (severity s) as [[ | | | | ] | raw]; reflexivity.
Qed.

(** Sorting by severity and filtering by severity, on the elements. *)
Lemma sort_elements_filters (xs : list Signal) (m : SignalSeverity) :
  Forall recognized xs ->
  let ys := sort_elements bySeverity xs in
  ys = filter (reaches m) ys ++ filter (fun s => negb (reaches m s)) ys
  /\ filter (reaches m) ys = sort_elements bySeverity (filter (reaches m) xs)
  /\ sort_elements bySeverity ys = ys.
Proof.
  intros Hrec ys.
  assert (Hrec' : Forall recognized ys)
    by (apply sort_elements_dom; exact Hrec).
  assert (Hsorted : StronglySorted (key_order weight_key) ys).
  { apply sort_elements_sorted with (dom := recognized);
      [apply bySeverity_key | exact Hrec]. }
  assert (Hstable : forall w, filter (fun s => weight_key s =? w) ys
                              = filter (fun s => weight_key s =? w) xs).
  { intros w. apply sort_elements_stable with (dom := recognized);
      [apply bySeverity_key | exact Hrec]. }
  split; [ | split].
  - assert (E : filter (fun s => negb (reaches m s)) ys
                = filter (fun s => negb (weightZ m <=? weight_key s)) ys).
    { clear - Hrec'. induction Hrec' as [ | s l [v Hs] Hl IH]; [reflexivity | ].
      cbn [filter]. rewrite IH. unfold reaches, weight_key, known_weight.
      rewrite Hs. reflexivity. }
    rewrite E, (reaches_key m ys Hrec').
    apply sorted_prefix. exact Hsorted.
  - apply sort_by_severity_unique.
    + apply Forall_kept. exact Hrec.
    + apply StronglySorted_kept. exact Hsorted.
    + intros w. rewrite filter_swap, Hstable. apply filter_swap.
  - symmetry. apply sort_by_severity_unique;
      [exact Hrec' | exact Hsorted | reflexivity].
Qed.

(** X5: in the array [sortBySeverity] returns for signals of declared
    severities, the signals that reach a threshold are a prefix: the array
    is what [filterBySeverity] keeps of it followed by what it drops, and
    likewise for [getCriticalSignals].  Filtering the sorted array gives
    the elements that sorting the filtered array gives, and sorting the
    sorted array again returns a new array with the same elements in the
    same order. *)
Theorem sortBySeverity_filters (st : Store.store) (signals : Store.ref)
  (xs : list Signal) :
  Store.read st signals = Some xs ->
  Forall recognized xs ->
  exists st' out ys,
    sortBySeverity st signals = Some (st', out)
    /\ Store.read st' out = Some ys
    /\ (forall m : SignalSeverity,
           ys = filterBySeverity ys (known m)
                ++ filter (fun s => negb (reaches m s)) ys)
    /\ ys = getCriticalSignals ys
            ++ filter (fun s => negb (is_critical_or_high (severity s))) ys
    /\ (forall m : SignalSeverity,
           filterBySeverity ys (known m)
           = sort_elements bySeverity (filterBySeverity xs (known m)))
    /\ exists st'' out',
         sortBySeverity st' out = Some (st'', out')
         /\ Store.read st'' out' = Some ys.
Proof.
  intros Hread Hrec.
  destruct (sortBySeverity_content st signals xs Hread)
    as (st' & out & Hsort & Hout).
  exists st', out, (sort_elements bySeverity xs).
  split; [exact Hsort | split; [exact Hout | ]].
  split; [ | split; [ | split]].
  - intros m. rewrite filterBySeverity_known.
    apply (sort_elements_filters xs m Hrec).
  - rewrite getCriticalSignals_reaches.
    replace (filter (fun s => negb (is_critical_or_high (severity s)))
               (sort_elements bySeverity xs))
      with (filter (fun s => negb (reaches high s))
              (sort_elements bySeverity xs)).
    + apply (sort_elements_filters xs high Hrec).
    + apply filter_ext. intros s. unfold reaches.
      destruct (severity s) as [[ | | | | ] | raw]; reflexivity.
  - intros m. rewrite !filterBySeverity_known.
    apply (sort_elements_filters xs m Hrec).
  - destruct (sortBySeverity_content st' out _ Hout)
      as (st'' & out' & Hsort' & Hout').
    exists st'', out'. split; [exact Hsort' | ].
    rewrite Hout'. f_equal. apply (sort_elements_filters xs info Hrec).
Qed.

Lemma sortBySeverity_filters_witness :
  let a := sig "A" honeypot low in
  let b := sig "B" honeypot critical in
  let c := sig "C" honeypot high in
  exists st' out ys,
    sortBySeverity [[a; b; c]] 0%nat = Some (st', out)
    /\ Store.read st' out = Some ys
    /\ (forall m : SignalSeverity,
           ys = filterBySeverity ys (known m)
                ++ filter (fun s => negb (reaches m s)) ys)
    /\ ys = getCriticalSignals ys
            ++ filter (fun s => negb (is_critical_or_high (severity s))) ys
    /\ (forall m : SignalSeverity,
           filterBySeverity ys (known m)
           = sort_elements bySeverity
               (filterBySeverity [a; b; c] (known m)))
    /\ exists st'' out',
         sortBySeverity st' out = Some (st'', out')
         /\ Store.read st'' out' = Some ys.
Proof.
  intros a b c.
  apply (sortBySeverity_filters [[a; b; c]] 0%nat [a; b; c]).
  - reflexivity.
  - repeat constructor; eexists; reflexivity.
Defined.

(** * More of the risk score *)

(** ** What the score reads *)

Lemma score_loop_map (xs ys : list Signal) :
  map signalScore xs = map signalScore ys ->
  forall acc, fold_left score_step xs acc = fold_left score_step ys acc.
Proof.
  revert ys. induction xs as [ | x xs IH]; intros [ | y ys] H acc;
    try discriminate H; [reflexivity | ].
  cbn [map] in H. injection H as Hxy H. cbn [fold_left].
  assert (E : score_step acc x = score_step acc y).
  { unfold score_step. destruct acc as [t m]. rewrite Hxy. reflexivity. }
  rewrite E. apply IH. exact H.
Qed.

(** X6: [calculateRiskScore] reads the types and the severities only, and
    so does [isHighRisk]: two collections with the same types and the same
    severities, in the same order, have the same score and the same
    verdict, whatever their other fields hold. *)
Theorem calculateRiskScore_reads_type_and_severity (xs ys : list Signal) :
  map type xs = map type ys ->
  map severity xs = map severity ys ->
  calculateRiskScore xs = calculateRiskScore ys
  /\ isHighRisk xs = isHighRisk ys.
Proof.
  intros Ht Hs.
  assert (Hlen : List.length xs = List.length ys).
  { rewrite <- (length_map type xs), Ht. apply length_map. }
  assert (Hscore : map signalScore xs = map signalScore ys).
  { revert ys Ht Hs Hlen.
    induction xs as [ | x xs IH]; intros [ | y ys] Ht Hs Hlen;
      try discriminate Hlen; [reflexivity | ].
    cbn [map] in *. injection Ht as Ht1 Ht. injection Hs as Hs1 Hs.
    f_equal; [unfold signalScore; rewrite Ht1, Hs1; reflexivity | ].
    apply IH; [exact Ht | exact Hs | ]. injection Hlen as Hlen. exact Hlen. }
  assert (E : calculateRiskScore xs = calculateRiskScore ys).
  { unfold calculateRiskScore, score_loop.
    rewrite Hlen, (score_loop_map xs ys Hscore). reflexivity. }
  split; [exact E | ].
  unfold isHighRisk. rewrite E. f_equal.
  clear E Hscore. revert ys Ht Hs Hlen.
  induction xs as [ | x xs IH]; intros [ | y ys] Ht Hs Hlen;
    try discriminate Hlen; [reflexivity | ].
  cbn [map] in *. injection Ht as Ht1 Ht. injection Hs as Hs1 Hs.
  cbn [existsb]. rewrite Ht1, Hs1. f_equal.
  apply IH; [exact Ht | exact Hs | ]. injection Hlen as Hlen. exact Hlen.
Qed.

Lemma calculateRiskScore_reads_type_and_severity_witness :
  let xs := [mkSignal "1" (known honeypot) (known high) "Trap" "Cannot sell"
               None (of_Z 1) None] in
  let ys := [mkSignal "2" (known honeypot) (known high) "Other" ""
               (Some "more"%string) (of_Z 2) None] in
  calculateRiskScore xs = calculateRiskScore ys
  /\ isHighRisk xs = isHighRisk ys.
Proof.
  intros xs ys.
  apply (calculateRiskScore_reads_type_and_severity xs ys); reflexivity.
Defined.

Lemma calculateRiskScore_one (s : Signal) :
  calculateRiskScore [s]
  = combine (div (add (of_Z 0) (signalScore s)) (of_Z 1))
      (Math_max (of_Z 0) (signalScore s)).
Proof. reflexivity. Qed.

(** X7: the score of a collection of one signal whose type and severity
    are ordinary is the weight of its severity times ten times the factor
    of its type, capped at 100, with the weight 0 of info read as 1 and a
    severity or type that names no property read as 1: rounding to
    binary64 changes none of the sixty cases.  The score of one signal
    whose type or severity names a property of [Object.prototype] is NaN.
    Only a critical signal of type rugpull_risk, honeypot, mint_authority
    or contract_risk reaches 100 alone. *)
Theorem calculateRiskScore_single (s : Signal) :
  (ordinary_signal s ->
   calculateRiskScore [s]
   = of_Z (Z.min 100 (weight_or_1 (severity s) * factor_tenths (type s))))
  /\ (~ ordinary_signal s -> calculateRiskScore [s] = NaN)
  /\ (calculateRiskScore [s] = of_Z 100
      <-> severity s = known critical
          /\ (type s = known rugpull_risk \/ type s = known honeypot
              \/ type s = known mint_authority
              \/ type s = known contract_risk)).
Proof.
  assert (Hnan : ~ ordinary_signal s -> calculateRiskScore [s] = NaN).
  { intros H. apply calculateRiskScore_inherited. intros Hall.
    inversion Hall; subst. contradiction. }
  destruct (ordinary_signal_dec s) as [Hord | Hnot].
  - rewrite calculateRiskScore_one, (signalScore_ordinary s Hord).
    split; [ | split; [contradiction | ]]; [intros _ | ];
      destruct s as [i t sev ti su de ts me]; cbn [type severity];
      clear Hord Hnan;
      destruct t as [[ | | | | | | | | ] | rawt], sev as [[ | | | | ] | raws];
      try (vm_compute; reflexivity);
      (split;
       [ intros H; vm_compute in H;
         first [discriminate H
               | split; [reflexivity | tauto] ]
       | intros [H1 H2];
         first [discriminate H1
               | vm_compute; reflexivity
               | exfalso; destruct H2 as [H2 | [H2 | [H2 | H2]]];
                 discriminate H2 ] ]).
  - split; [contradiction | split; [exact Hnan | ]].
    rewrite (Hnan Hnot). split; [discriminate | ].
    intros [Hsev [Ht | [Ht | [Ht | Ht]]]]; exfalso; apply Hnot;
      exact (ordinary_signal_known s _ _ Ht Hsev).
Qed.

(** ** Whole numbers, and a floor *)

(** [Math.round] returns a whole number. *)
Lemma Math_round_of_Z (w : number) :
  normal w -> -53 <= expo w <= -1 ->
  1 <= round_units (units w) < 2 ^ 53
  /\ Math_round w = of_Z (round_units (units w)).
Proof.
  intros (m & e & -> & Hm & He) Hw. cbn [expo] in Hw.
  unfold Math_round. cbn [units cond_Zopp].
  replace (0 <=? e) with false by (symmetry; apply Z.leb_gt; lia).
  rewrite Z.shiftl_mul_pow2, Z.shiftr_div_pow2, Z.mul_1_l by lia.
  assert (Ek : (2 * Z.pos m + 2 ^ (- e)) / 2 ^ (1 - e)
               = round_units (Z.pos m * 2 ^ (e + scale))).
  { unfold round_units.
    pose proof (pow2_pos (e + scale) ltac:(unfold scale; lia)) as P.
    rewrite <- (Z.div_mul_cancel_r (2 * Z.pos m + 2 ^ (- e)) (2 ^ (1 - e))
                  (2 ^ (e + scale))) by lia.
    f_equal.
    - rewrite Z.mul_add_distr_r, <- Z.pow_add_r by (unfold scale; lia).
      replace (- e + (e + scale)) with scale by lia. ring.
    - rewrite <- Z.pow_add_r by (unfold scale; lia). f_equal. lia. }
  rewrite Ek.
  set (v := Z.pos m * 2 ^ (e + scale)) in *.
  assert (Hv : 2 ^ (scale - 1) <= v < 2 ^ (52 + scale)).
  { unfold v. split.
    - replace (scale - 1) with ((-53 + scale) + 52) by lia.
      rewrite (Z.pow_add_r 2 (-53 + scale)) by (unfold scale; lia).
      assert (2 ^ (-53 + scale) <= 2 ^ (e + scale))
        by (apply Z.pow_le_mono_r; unfold scale; lia).
      pose proof (pow2_pos (-53 + scale) ltac:(unfold scale; lia)). nia.
    - replace (52 + scale) with (53 + (-1 + scale)) by lia.
      rewrite (Z.pow_add_r 2 53) by (unfold scale; lia).
      assert (2 ^ (e + scale) <= 2 ^ (-1 + scale))
        by (apply Z.pow_le_mono_r; unfold scale; lia).
      pose proof (pow2_pos (e + scale) ltac:(unfold scale; lia)). nia. }
  assert (Hk : 1 <= round_units v < 2 ^ 53).
  { unfold round_units.
    pose proof (pow2_pos scale ltac:(unfold scale; lia)) as PK.
    assert (E1 : 2 ^ (scale + 1) = 2 * 2 ^ scale)
      by (rewrite Z.pow_add_r by (unfold scale; lia); lia).
    assert (E2 : 2 ^ scale = 2 * 2 ^ (scale - 1)).
    { replace scale with ((scale - 1) + 1) at 1 by lia.
      rewrite Z.pow_add_r by (unfold scale; lia). lia. }
    assert (E3 : 2 ^ (52 + scale) = 2 ^ 52 * 2 ^ scale)
      by (rewrite Z.pow_add_r by (unfold scale; lia); lia).
    split.
    - apply Z.div_le_lower_bound; lia.
    - apply Z.div_lt_upper_bound; [lia | ]. nia. }
  replace (round_units v =? 0) with false by (symmetry; apply Z.eqb_neq; lia).
  split; [exact Hk | reflexivity].
Qed.

(** The last two steps of the score return a whole number up to 100. *)
Lemma score_whole (w : number) :
  normal w -> -53 <= expo w <= -1 ->
  exists k, 1 <= k <= 100 /\ Math_min (of_Z 100) (Math_round w) = of_Z k.
Proof.
  intros Gw Ew.
  destruct (Math_round_of_Z w Gw Ew) as [Hk Er].
  destruct (Math_round_spec w Gw Ew) as [Gr Vr].
  pose proof pow2_scale_pos as PK.
  destruct (Math_min_normal _ _ normal_100 Gr) as [[E | E] Vm].
  - exists 100. split; [lia | exact E].
  - exists (round_units (units w)). split; [ | rewrite E; exact Er].
    rewrite E, Vr, units_of_Z in Vm by lia.
    split; [lia | ].
    assert (round_units (units w) * 2 ^ scale <= 100 * 2 ^ scale) by lia.
    nia.
Qed.

(** A quarter of a whole number is a binary64 number. *)
Lemma quarter_normal (j : Z) :
  0 < j < 2 ^ 53 -> exists y, normal y /\ 4 * units y = j * 2 ^ scale.
Proof.
  intros Hj. destruct (of_Z_spec j Hj) as [G V].
  pose proof pow2_scale_pos as PK.
  assert (He : 0 - 52 <= expo (of_Z j)).
  { apply normal_expo_lower; [exact G | unfold scale; lia | ].
    rewrite V. cbn [Z.add]. nia. }
  destruct G as (m & e & E & Hm & Hme). rewrite E in *.
  cbn [expo units] in *.
  exists (S754_finite false m (e - 2)). split.
  - exists m, (e - 2). split; [reflexivity | split; [exact Hm | lia]].
  - cbn [units]. rewrite <- V.
    replace (e + scale) with (2 + (e - 2 + scale)) by lia.
    rewrite (Z.pow_add_r 2 2) by (unfold scale; lia).
    change (2 ^ 2) with 4. ring.
Qed.

Lemma units_three_quarters : 4 * units three_quarters = 3 * 2 ^ scale.
Proof.
  change three_quarters with (S754_finite false 6755399441055744 (-53)).
  cbn [units]. change (Z.pos 6755399441055744) with (3 * 2 ^ 51).
  assert (E : 2 ^ scale = 4 * 2 ^ 51 * 2 ^ (-53 + scale)).
  { replace scale with (2 + 51 + (-53 + scale)) at 1 by lia.
    rewrite (Z.pow_add_r 2 (2 + 51)), (Z.pow_add_r 2 2 51)
      by (unfold scale; lia).
    reflexivity. }
  rewrite E. ring.
Qed.

Lemma normal_three_quarters : normal three_quarters.
Proof. apply normalb_normal. vm_compute. reflexivity. Qed.

(** By cases on the severity and the type: no ordinary signal
    scores less than 0.8. *)
Lemma signalScore_floor (s : Signal) :
  ordinary_signal s -> units three_quarters <= units (signalScore s).
Proof.
  intros Hord.
  assert (H : leb three_quarters (signalScore s) = true).
  { rewrite (signalScore_ordinary s Hord).
    destruct s as [i t sev ti su de ts me].
    cbn [type severity].
    destruct t as [[ | | | | | | | | ] | rawt], sev as [[ | | | | ] | raws];
      vm_compute; reflexivity. }
  apply normal_leb_iff in H;
    [exact H | exact normal_three_quarters | apply signalScore_ok, Hord].
Qed.

Lemma score_step_first (s : Signal) :
  ordinary_signal s ->
  score_step (of_Z 0, of_Z 0) s = (signalScore s, signalScore s).
Proof.
  intros Hord. unfold score_step.
  destruct (ok_normal _ (signalScore_ok s Hord)) as (m & e & -> & _).
  reflexivity.
Qed.

(** After the loop the sum is at least 0.75 times the number of signals,
    and the maximum is at least the score of every signal. *)
Lemma score_loop_floor (xs : list Signal) :
  Forall ordinary_signal xs ->
  xs <> [] -> Z.of_nat (List.length xs) < 2 ^ 32 ->
  3 * Z.of_nat (List.length xs) * 2 ^ scale <= 4 * units (fst (score_loop xs))
  /\ forall s, In s xs -> units (signalScore s) <= units (snd (score_loop xs)).
Proof.
  pose proof pow2_scale_pos as PK.
  pose proof units_three_quarters as V34.
  induction xs as [ | r xs IH] using rev_ind; [congruence | ].
  intros Hall _ Hlen. apply Forall_app in Hall. destruct Hall as [Hxs Hr].
  inversion Hr as [ | ? ? Hrord _]; subst.
  rewrite length_app in *. cbn [List.length] in *.
  rewrite Nat2Z.inj_add in *. cbn [Z.of_nat Pos.of_succ_nat] in *.
  pose proof (signalScore_floor r Hrord) as Fr.
  destruct xs as [ | x xs'].
  - cbn [app]. unfold score_loop. cbn [fold_left].
    rewrite (score_step_first r Hrord). cbn [fst snd List.length Z.of_nat].
    split; [lia | ].
    intros s [<- | []]. lia.
  - set (xs := x :: xs') in *.
    assert (Hne : xs <> []) by discriminate.
    destruct (IH Hxs Hne ltac:(lia)) as [IHT IHM].
    pose proof (score_loop_inv xs Hxs Hne ltac:(lia)) as [GT LT UT HM].
    rewrite score_loop_app.
    destruct (score_loop xs) as [T M]. cbn [fst snd] in *.
    pose proof (signalScore_ok r Hrord) as [Gs Us Ls Es].
    unfold score_step. cbn [fst snd].
    set (n := Z.of_nat (List.length xs)) in *.
    assert (Hn : 1 <= n) by (unfold n, xs; cbn [List.length]; lia).
    assert (ET : expo T <= 969).
    { assert (expo T <= 36 - 53); [ | lia].
      apply normal_expo_upper; [exact GT | unfold scale; lia | ].
      rewrite Z.pow_add_r by (unfold scale; lia). nia. }
    destruct (add_spec T (signalScore r) GT Gs ET ltac:(lia)) as (GA & RA & _).
    destruct (Math_max_normal M (signalScore r) (ok_normal _ HM) Gs)
      as [_ VM].
    split.
    + destruct (quarter_normal (3 * (n + 1)) ltac:(lia)) as (y & Gy & Vy).
      assert (units y <= units (add T (signalScore r))); [ | lia].
      apply (rounding_mono Z.lt_0_1 Z.lt_0_1 (rounding_self y Gy) RA).
      lia.
    + intros s Hs. apply in_app_or in Hs. destruct Hs as [Hs | [<- | []]].
      * specialize (IHM s Hs). lia.
      * lia.
Qed.

(** The score is at least what the last steps make of the mean 0.75 and
    the score of any one signal. *)
Lemma calculateRiskScore_floor (xs : list Signal) (s : Signal) :
  Forall ordinary_signal xs ->
  Z.of_nat (List.length xs) < 2 ^ 32 -> In s xs ->
  units (combine three_quarters (signalScore s))
  <= units (calculateRiskScore xs).
Proof.
  intros Hord Hlen Hin.
  assert (Hsord : ordinary_signal s).
  { rewrite Forall_forall in Hord. apply Hord. exact Hin. }
  assert (Hne : xs <> []) by (intros ->; destruct Hin).
  pose proof pow2_scale_pos as PK.
  pose proof units_three_quarters as V34.
  rewrite (calculateRiskScore_combine xs Hne).
  destruct (score_loop_inv xs Hord Hne Hlen) as [GT LT UT HM].
  destruct (score_loop_floor xs Hord Hne Hlen) as [FT FM].
  assert (Hn : 1 <= Z.of_nat (List.length xs))
    by (destruct xs; [congruence | cbn [List.length]; lia]).
  destruct (average_spec _ _ GT (conj LT UT) (conj Hn Hlen)) as (GA & RA & EA).
  pose proof (signalScore_ok s Hsord) as [Gs Us Ls Es].
  assert (E34 : -85 <= expo three_quarters <= -49)
    by (vm_compute; split; discriminate).
  set (n := Z.of_nat (List.length xs)) in *.
  assert (HB : 0 < n * 2 ^ scale) by nia.
  apply (combine_mono normal_three_quarters Gs E34 Es GA (ok_normal _ HM) EA
           (ok_expo _ HM)).
  - apply (rounding_mono Z.lt_0_1 HB (rounding_self _ normal_three_quarters)
             RA).
    set (T := units (fst (score_loop xs))) in *.
    set (q := units three_quarters) in *.
    assert (4 * (q * (n * 2 ^ scale)) <= 4 * (T * 2 ^ scale * 1)); [ | lia].
    replace (4 * (q * (n * 2 ^ scale))) with ((4 * q) * n * 2 ^ scale) by ring.
    rewrite V34.
    replace (4 * (T * 2 ^ scale * 1)) with ((4 * T) * 2 ^ scale) by ring.
    apply Z.mul_le_mono_nonneg_r; [lia | ]. lia.
  - apply FM. exact Hin.
Qed.

Lemma combine_floor_8 : combine three_quarters three_quarters = of_Z 8.
Proof. vm_compute. reflexivity. Qed.

Lemma combine_floor_65 : combine three_quarters (of_Z 15) = of_Z 65.
Proof. vm_compute. reflexivity. Qed.

(** X8: the score of a non-empty array of signals whose types and
    severities are ordinary is a whole number from 8 to 100: it is never
    NaN and never fractional.  And since no signal scores less than 0.8,
    and a signal that is not ordinary makes the score NaN, the score of an
    array is 0 for the empty one only. *)
Theorem calculateRiskScore_whole (signals : list Signal) :
  is_array signals ->
  (Forall ordinary_signal signals -> signals <> [] ->
   exists k, 8 <= k <= 100 /\ calculateRiskScore signals = of_Z k)
  /\ (calculateRiskScore signals = of_Z 0 <-> signals = []).
Proof.
  intros Hlen. unfold is_array in Hlen.
  assert (H : Forall ordinary_signal signals -> signals <> [] ->
              exists k, 8 <= k <= 100 /\ calculateRiskScore signals = of_Z k).
  { intros Hord Hne.
    pose proof pow2_scale_pos as PK.
    destruct signals as [ | s xs'] eqn:Exs; [congruence | ].
    rewrite <- Exs in *.
    assert (Hin : In s signals) by (rewrite Exs; left; reflexivity).
    assert (Hsord : ordinary_signal s).
    { rewrite Forall_forall in Hord. apply Hord. exact Hin. }
    pose proof (calculateRiskScore_floor signals s Hord Hlen Hin) as F.
    assert (F8 : units (of_Z 8) <= units (calculateRiskScore signals)).
    { rewrite <- combine_floor_8. apply Z.le_trans with (2 := F).
      pose proof (signalScore_ok s Hsord) as [Gs Us Ls Es].
      assert (E34 : -85 <= expo three_quarters <= -49)
        by (vm_compute; split; discriminate).
      assert (E34' : -53 <= expo three_quarters <= -49)
        by (vm_compute; split; discriminate).
      apply (combine_mono normal_three_quarters normal_three_quarters E34 E34'
               normal_three_quarters Gs E34 Es); [lia | ].
      apply signalScore_floor. exact Hsord. }
    rewrite (calculateRiskScore_combine signals Hne) in *.
    destruct (score_loop_inv signals Hord Hne Hlen) as [GT LT UT HM].
    assert (Hn : 1 <= Z.of_nat (List.length signals))
      by (rewrite Exs; cbn [List.length]; lia).
    destruct (average_spec _ _ GT (conj LT UT) (conj Hn Hlen))
      as (GA & RA & EA).
    destruct (combine_spec _ _ GA (ok_normal _ HM) EA (ok_expo _ HM))
      as (w & Gw & Ew & Ec & _).
    rewrite Ec in *.
    destruct (score_whole w Gw Ew) as (k & Hk & Ek).
    exists k. split; [ | exact Ek].
    rewrite Ek in F8. rewrite !units_of_Z in F8 by lia.
    split; [nia | lia]. }
  split; [exact H | ].
  split.
  - intros E0. destruct signals as [ | s xs']; [reflexivity | exfalso].
    destruct (Forall_dec ordinary_signal ordinary_signal_dec (s :: xs'))
      as [Hord | Hnot].
    + destruct (H Hord ltac:(discriminate)) as (k & Hk & Ek).
      rewrite Ek in E0.
      assert (V : units (of_Z k) = units (of_Z 0))
        by (rewrite E0; reflexivity).
      rewrite units_of_Z in V by lia.
      change (units (of_Z 0)) with 0 in V.
      pose proof pow2_scale_pos. nia.
    + rewrite (calculateRiskScore_inherited _ Hnot) in E0. discriminate E0.
  - intros ->. reflexivity.
Qed.

Lemma calculateRiskScore_whole_witness :
  exists k, 8 <= k <= 100
            /\ calculateRiskScore [sig "a" social_sentiment info] = of_Z k.
Proof.
  apply (proj1 (calculateRiskScore_whole [sig "a" social_sentiment info]
                  ltac:(vm_compute; reflexivity))).
  - repeat constructor.
  - discriminate.
Defined.

(** X9: one strong signal is not diluted away.  The score of an array of
    signals whose types and severities are ordinary is at least what the
    last steps of the score make of the mean 0.75 and of the score of any
    one of its signals; with a critical signal of type honeypot or
    rugpull_risk in it, the score is at least 65 and the risk level is high
    or critical, however many mild signals surround it. *)
Theorem strong_signal_floor (signals : list Signal) (s : Signal) :
  is_array signals -> Forall ordinary_signal signals -> In s signals ->
  leb (combine three_quarters (signalScore s)) (calculateRiskScore signals)
  = true
  /\ (severity s = known critical ->
      type s = known honeypot \/ type s = known rugpull_risk ->
      leb (of_Z 65) (calculateRiskScore signals) = true
      /\ (getRiskLevel (calculateRiskScore signals) = level_high
          \/ getRiskLevel (calculateRiskScore signals) = level_critical)).
Proof.
  intros Hlen Hord Hin. unfold is_array in Hlen.
  assert (Hsord : ordinary_signal s).
  { rewrite Forall_forall in Hord. apply Hord. exact Hin. }
  assert (Hne : signals <> []) by (intros ->; destruct Hin).
  destruct (calculateRiskScore_normal signals Hord Hne Hlen) as [G _].
  pose proof (calculateRiskScore_floor signals s Hord Hlen Hin) as F.
  pose proof (signalScore_ok s Hsord) as [Gs Us Ls Es].
  assert (E34 : -85 <= expo three_quarters <= -49)
    by (vm_compute; split; discriminate).
  destruct (combine_normal _ _ normal_three_quarters Gs E34 Es) as [Gc _].
  split.
  - apply normal_leb_iff; assumption.
  - intros Hsev Htype.
    assert (E15 : signalScore s = of_Z 15).
    { unfold signalScore. rewrite Hsev.
      destruct Htype as [-> | ->]; vm_compute; reflexivity. }
    rewrite E15, combine_floor_65 in F.
    assert (H65 : leb (of_Z 65) (calculateRiskScore signals) = true).
    { apply normal_leb_iff; [apply normal_of_Z; lia | exact G | exact F]. }
    split; [exact H65 | ].
    assert (H20 : leb (of_Z 20) (calculateRiskScore signals) = true).
    { apply leb_trans with (2 := H65). vm_compute. reflexivity. }
    assert (H40 : leb (of_Z 40) (calculateRiskScore signals) = true).
    { apply leb_trans with (2 := H65). vm_compute. reflexivity. }
    assert (H60 : leb (of_Z 60) (calculateRiskScore signals) = true).
    { apply leb_trans with (2 := H65). vm_compute. reflexivity. }
    unfold getRiskLevel.
    rewrite (leb_ltb_false _ _ H20), (leb_ltb_false _ _ H40),
      (leb_ltb_false _ _ H60).
    destruct (ltb (calculateRiskScore signals) (of_Z 80)); [left | right];
      reflexivity.
Qed.

Lemma strong_signal_floor_witness :
  let s := sig "r" rugpull_risk critical in
  let signals := [sig "a" social_sentiment low; s;
                  sig "b" social_sentiment low; sig "c" social_sentiment low] in
  leb (combine three_quarters (signalScore s)) (calculateRiskScore signals)
  = true
  /\ (severity s = known critical ->
      type s = known honeypot \/ type s = known rugpull_risk ->
      leb (of_Z 65) (calculateRiskScore signals) = true
      /\ (getRiskLevel (calculateRiskScore signals) = level_high
          \/ getRiskLevel (calculateRiskScore signals) = level_critical)).
Proof.
  intros s signals.
  apply (strong_signal_floor signals s).
  - vm_compute. reflexivity.
  - repeat constructor.
  - simpl. right. left. reflexivity.
Defined.

(** ** Levels and the verdict *)

(** The score of a collection of ordinary signals is a number between 0
    and 100. *)
Lemma calculateRiskScore_between (xs : list Signal) :
  Forall ordinary_signal xs ->
  leb (of_Z 0) (calculateRiskScore xs) = true
  /\ leb (calculateRiskScore xs) (of_Z 100) = true.
Proof.
  intros Hord.
  destruct xs as [ | s xs]; [split; reflexivity | ].
  rewrite calculateRiskScore_combine by discriminate.
  destruct (score_loop_bounded (s :: xs) Hord ltac:(discriminate))
    as [GT _ HM].
  unfold combine. apply Math_min_100_range.
  assert (G6 : normal (tenths 6)) by (apply normalb_normal; reflexivity).
  assert (G4 : normal (tenths 4)) by (apply normalb_normal; reflexivity).
  assert (G10 : normal (of_Z 10)) by (apply normalb_normal; reflexivity).
  apply Math_round_nonneg, mul_nonneg; [ | exact G10].
  apply add_nonneg; (apply mul_nonneg; [ | assumption]).
  - apply div_nonneg; [exact GT | apply of_Z_nonneg; lia].
  - destruct (ok_normal _ HM) as (m & e & -> & _). reflexivity.
Qed.

(** Two numbers, neither NaN, compare one way or the other. *)
Lemma SFcompare_defined (x y : number) :
  x <> NaN -> y <> NaN -> SFcompare x y <> None.
Proof.
  unfold NaN. intros Hx Hy.
  destruct x as [sx | sx | | sx mx ex]; try congruence;
    destruct y as [sy | sy | | sy my ey]; try congruence; simpl;
    repeat match goal with
      | |- context [if ?b then _ else _] => destruct b
      end;
    try discriminate;
    destruct (ex ?= ey); discriminate.
Qed.

Lemma ltb_false_leb (x y z : number) :
  leb z x = true -> leb y y = true -> ltb x y = false -> leb y x = true.
Proof.
  intros Hx Hy.
  assert (Nx : x <> NaN).
  { intros ->. destruct z as [sz | sz | | sz mz ez]; discriminate Hx. }
  assert (Ny : y <> NaN) by (intros ->; discriminate Hy).
  pose proof (SFcompare_defined x y Nx Ny) as D.
  unfold leb, ltb, SFleb, SFltb. rewrite (SFcompare_swap x y).
  destruct (SFcompare x y) as [[ | | ] | ]; simpl; congruence.
Qed.

(** X10: the levels and the verdict agree at both ends, where the score
    is a number.  A collection of signals whose types and severities are
    ordinary, and whose score is classified critical, is high risk; a
    collection whose score is classified safe, low or medium is high risk
    only through the override: exactly when one of its signals has type
    honeypot, type rugpull_risk or severity critical.  Where the score is
    NaN they part: the one signal (whale_movement, ["constructor"]) is
    classified critical and is not high risk. *)
Theorem level_and_verdict (signals : list Signal) :
  (Forall ordinary_signal signals ->
   getRiskLevel (calculateRiskScore signals) = level_critical ->
   isHighRisk signals = true)
  /\ (getRiskLevel (calculateRiskScore signals) = level_safe
      \/ getRiskLevel (calculateRiskScore signals) = level_low
      \/ getRiskLevel (calculateRiskScore signals) = level_medium ->
      (isHighRisk signals = true
       <-> exists s, In s signals
                     /\ (type s = known honeypot
                         \/ type s = known rugpull_risk
                         \/ severity s = known critical)))
  /\ (let s := mkSignal "1" (known whale_movement) (unknown "constructor")
                 "" "" None (of_Z 0) None in
      calculateRiskScore [s] = NaN
      /\ getRiskLevel (calculateRiskScore [s]) = level_critical
      /\ isHighRisk [s] = false).
Proof.
  assert (N80 : leb (of_Z 80) (of_Z 80) = true) by reflexivity.
  assert (H78 : leb (of_Z 70) (of_Z 80) = true) by (vm_compute; reflexivity).
  assert (H67 : leb (of_Z 60) (of_Z 70) = true) by (vm_compute; reflexivity).
  assert (H46 : leb (of_Z 40) (of_Z 60) = true) by (vm_compute; reflexivity).
  assert (H24 : leb (of_Z 20) (of_Z 40) = true) by (vm_compute; reflexivity).
  split; [ | split; [ | cbv zeta; repeat split; vm_compute; reflexivity]].
  - intros Hord Hlevel.
    destruct (calculateRiskScore_between signals Hord) as [H0 H100].
    set (score := calculateRiskScore signals) in *.
    unfold isHighRisk. fold score.
    apply orb_true_iff. left. unfold geb. fold (leb (of_Z 70) score).
    apply leb_trans with (1 := H78).
    apply ltb_false_leb with (z := of_Z 0); [exact H0 | exact N80 | ].
    unfold getRiskLevel in Hlevel.
    destruct (ltb score (of_Z 20)); [discriminate | ].
    destruct (ltb score (of_Z 40)); [discriminate | ].
    destruct (ltb score (of_Z 60)); [discriminate | ].
    destruct (ltb score (of_Z 80)); [discriminate | reflexivity].
  - intros Hlevel.
    destruct (Forall_dec ordinary_signal ordinary_signal_dec signals)
      as [Hord | Hnot].
    2: { exfalso. rewrite (calculateRiskScore_inherited _ Hnot) in Hlevel.
         destruct Hlevel as [H | [H | H]]; discriminate H. }
    destruct (calculateRiskScore_between signals Hord) as [H0 H100].
    set (score := calculateRiskScore signals) in *.
    assert (Hlt : ltb score (of_Z 60) = true).
    { unfold getRiskLevel in Hlevel.
      destruct (ltb score (of_Z 20)) eqn:E20.
      - destruct (leb (of_Z 60) score) eqn:E60.
        + pose proof (leb_trans _ _ _ (leb_trans _ _ _ H24 H46) E60) as H.
          rewrite (leb_ltb_false _ _ H) in E20. discriminate.
        + destruct (ltb score (of_Z 60)) eqn:E; [reflexivity | ].
          rewrite (ltb_false_leb score (of_Z 60) (of_Z 0) H0 eq_refl E) in E60.
          discriminate.
      - destruct (ltb score (of_Z 40)) eqn:E40.
        + destruct (ltb score (of_Z 60)) eqn:E; [reflexivity | ].
          pose proof (ltb_false_leb score (of_Z 60) (of_Z 0) H0 eq_refl E)
            as H60.
          pose proof (leb_trans _ _ _ H46 H60) as H.
          rewrite (leb_ltb_false _ _ H) in E40. discriminate.
        + destruct (ltb score (of_Z 60)); [reflexivity | ].
          destruct (ltb score (of_Z 80));
            destruct Hlevel as [H | [H | H]]; discriminate H. }
    assert (Hge : geb score (of_Z 70) = false).
    { unfold geb. fold (leb (of_Z 70) score).
      destruct (leb (of_Z 70) score) eqn:E; [ | reflexivity].
      pose proof (leb_trans _ _ _ H67 E) as H.
      rewrite (leb_ltb_false _ _ H) in Hlt. discriminate. }
    unfold isHighRisk. fold score. rewrite Hge. cbn [orb].
    rewrite existsb_exists.
    split; intros (s & Hin & Hs); exists s; (split; [exact Hin | ]);
      apply override_spec; exact Hs.
Qed.

Lemma level_and_verdict_witness :
  isHighRisk [sig "a" mint_authority critical] = true.
Proof.
  apply (proj1 (level_and_verdict [sig "a" mint_authority critical])).
  - repeat constructor.
  - vm_compute. reflexivity.
Defined.

(** * The market utilities *)

(** ** Buys and sells *)

(** Twice a normal number, when it is not the largest. *)
Lemma double_normal (x : number) :
  normal x -> expo x <= 970 -> exists y, normal y /\ units y = 2 * units x.
Proof.
  intros (m & e & -> & Hm & He) Hx. cbn [expo] in Hx.
  exists (S754_finite false m (e + 1)). split.
  - exists m, (e + 1). split; [reflexivity | split; [exact Hm | lia]].
  - cbn [units]. replace (e + 1 + scale) with (1 + (e + scale)) by lia.
    rewrite (Z.pow_add_r 2 1) by (unfold scale; lia).
    change (2 ^ 1) with 2. ring.
Qed.

Lemma expo_of_Z (k : Z) : 0 < k < 2 ^ 53 -> -52 <= expo (of_Z k) <= 0.
Proof.
  intros Hk. destruct (of_Z_spec k Hk) as [G V].
  pose proof pow2_scale_pos as PK. split.
  - assert (0 - 52 <= expo (of_Z k)); [ | lia].
    apply normal_expo_lower; [exact G | unfold scale; lia | ].
    rewrite V. cbn [Z.add]. nia.
  - assert (expo (of_Z k) <= 53 - 53); [ | lia].
    apply normal_expo_upper; [exact G | unfold scale; lia | ].
    rewrite V, Z.pow_add_r by (unfold scale; lia). nia.
Qed.

Lemma normal_not_zero (x : number) :
  normal x -> strict_eq x (of_Z 0) = false.
Proof. intros (m & e & -> & _). reflexivity. Qed.

Lemma units_one : units (of_Z 1) = 2 ^ scale.
Proof. rewrite units_of_Z by lia. lia. Qed.

(** The ratio for whole numbers of buys and sells, not both zero. *)
Lemma ratio_of_counts (b s : Z) :
  0 < b < 2 ^ 53 -> 0 <= s < 2 ^ 53 ->
  let total := add (of_Z b) (of_Z s) in
  normal total /\ normal (div (of_Z b) total)
  /\ units (div (of_Z b) total) <= units (of_Z 1)
  /\ (s <= b -> units (tenths 5) <= units (div (of_Z b) total)).
Proof.
  intros Hb Hs total.
  pose proof pow2_scale_pos as PK.
  destruct (of_Z_spec b Hb) as [Gb Vb].
  pose proof (expo_of_Z b Hb) as Eb.
  assert (G1 : normal (of_Z 1)) by (apply normal_of_Z; lia).
  assert (G5 : normal (tenths 5)) by (apply normalb_normal; reflexivity).
  assert (E2 : 2 ^ scale = 2 * 2 ^ (scale - 1)).
  { replace scale with ((scale - 1) + 1) at 1 by lia.
    rewrite Z.pow_add_r by (unfold scale; lia). lia. }
  assert (Ht : normal total /\ units (of_Z b) <= units total
               /\ (s <= b -> units total <= 2 * units (of_Z b))
               /\ -52 <= expo total <= 2).
  { destruct (Z.eq_dec s 0) as [-> | Hs0].
    - assert (E : total = of_Z b).
      { unfold total. destruct Gb as (m & e & -> & _). reflexivity. }
      rewrite E. split; [exact Gb | split; [lia | split; [ | lia]]].
      intros _. pose proof (normal_units_pos _ Gb). lia.
    - destruct (of_Z_spec s ltac:(lia)) as [Gs Vs].
      pose proof (expo_of_Z s ltac:(lia)) as Es.
      destruct (add_spec (of_Z b) (of_Z s) Gb Gs ltac:(lia) ltac:(lia))
        as (GA & RA & XA).
      fold total in GA, RA, XA.
      split; [exact GA | split; [ | split; [ | lia]]].
      + apply (rounding_mono Z.lt_0_1 Z.lt_0_1 (rounding_self _ Gb) RA).
        pose proof (normal_units_pos _ Gs). lia.
      + intros Hsb.
        destruct (double_normal (of_Z b) Gb ltac:(lia)) as (y & Gy & Vy).
        rewrite <- Vy.
        apply (rounding_mono Z.lt_0_1 Z.lt_0_1 RA (rounding_self _ Gy)).
        rewrite Vy, Vb, Vs. nia. }
  destruct Ht as (Gt & Lt & Ut & Et).
  destruct (div_spec (of_Z b) total Gb Gt ltac:(lia)) as (GR & RR & _).
  pose proof (normal_units_pos _ Gt) as Pt.
  split; [exact Gt | split; [exact GR | split]].
  - apply (rounding_mono Pt Z.lt_0_1 RR (rounding_self _ G1)).
    rewrite units_one.
    replace (units (of_Z b) * 2 ^ scale * 1)
      with (2 ^ scale * units (of_Z b)) by ring.
    apply Z.mul_le_mono_nonneg_l; lia.
  - intros Hsb. specialize (Ut Hsb).
    apply (rounding_mono Z.lt_0_1 Pt (rounding_self _ G5) RR).
    rewrite units_half, E2.
    replace (units (of_Z b) * (2 * 2 ^ (scale - 1)) * 1)
      with (2 ^ (scale - 1) * (2 * units (of_Z b))) by ring.
    apply Z.mul_le_mono_nonneg_l; [ | exact Ut].
    pose proof (pow2_pos (scale - 1) ltac:(unfold scale; lia)). lia.
Qed.

Lemma normal_ltb (x y : number) :
  normal x -> normal y -> ltb x y = (units x <? units y).
Proof.
  intros Hx Hy. unfold ltb, SFltb. rewrite (normal_compare x y Hx Hy).
  destruct (Z.compare_spec (units x) (units y)) as [E | E | E];
    symmetry; [apply Z.ltb_ge; lia | apply Z.ltb_lt; lia | apply Z.ltb_ge; lia].
Qed.

(** The sum of two whole numbers is exact below 2^53. *)
Lemma add_of_Z_exact (b s : Z) :
  0 < b -> 0 <= s -> b + s < 2 ^ 53 ->
  normal (add (of_Z b) (of_Z s))
  /\ units (add (of_Z b) (of_Z s)) = (b + s) * 2 ^ scale.
Proof.
  intros Hb Hs Hbs.
  destruct (of_Z_spec b ltac:(lia)) as [Gb Vb].
  destruct (Z.eq_dec s 0) as [-> | Hs0].
  - assert (E : add (of_Z b) (of_Z 0) = of_Z b).
    { destruct Gb as (m & e & -> & _). reflexivity. }
    rewrite E, Z.add_0_r. split; assumption.
  - destruct (of_Z_spec s ltac:(lia)) as [Gs Vs].
    destruct (of_Z_spec (b + s) ltac:(lia)) as [Gt Vt].
    pose proof (expo_of_Z b ltac:(lia)). pose proof (expo_of_Z s ltac:(lia)).
    destruct (add_spec (of_Z b) (of_Z s) Gb Gs ltac:(lia) ltac:(lia))
      as (GA & RA & _).
    split; [exact GA | ].
    pose proof (rounding_mono Z.lt_0_1 Z.lt_0_1 RA (rounding_self _ Gt)) as H1.
    pose proof (rounding_mono Z.lt_0_1 Z.lt_0_1 (rounding_self _ Gt) RA) as H2.
    rewrite Vt, Vb, Vs in *. lia.
Qed.

(** A quotient of whole numbers that is below a twentieth by the least
    amount possible is still rounded to a number below 0.05. *)
Lemma div_below_twentieth (l c : Z) :
  0 < l -> c < 2 ^ 53 -> 20 * l < c ->
  ltb (div (of_Z l) (of_Z c)) (hundredths 5) = true.
Proof.
  intros Hl Hc Hlc.
  pose proof pow2_scale_pos as PK.
  destruct (of_Z_spec l ltac:(lia)) as [Gl Vl].
  destruct (of_Z_spec c ltac:(lia)) as [Gc Vc].
  pose proof (expo_of_Z l ltac:(lia)). pose proof (expo_of_Z c ltac:(lia)).
  destruct (div_spec (of_Z l) (of_Z c) Gl Gc ltac:(lia)) as (GR & RR & _).
  set (below := S754_finite false 7205759403792793 (-57)).
  assert (Gp : normal below) by (apply normalb_normal; reflexivity).
  assert (Gh : normal (hundredths 5)) by (apply normalb_normal; reflexivity).
  pose proof (pow2_pos (-57 + scale) ltac:(unfold scale; lia)) as PQ.
  assert (EP : 2 ^ scale = 2 ^ 57 * 2 ^ (-57 + scale)).
  { rewrite <- Z.pow_add_r by (unfold scale; lia). f_equal; lia. }
  assert (Hr : units (div (of_Z l) (of_Z c)) <= units below).
  { apply (rounding_mono (normal_units_pos _ Gc) Z.lt_0_1 RR
             (rounding_self _ Gp)).
    rewrite Vl, Vc. unfold below. cbn [units].
    set (Q := 2 ^ (-57 + scale)) in *.
    assert (Hint : l * 2 ^ 57 <= 7205759403792793 * c) by lia.
    rewrite EP.
    replace (l * (2 ^ 57 * Q) * (2 ^ 57 * Q) * 1)
      with ((l * 2 ^ 57) * (Q * (2 ^ 57 * Q))) by ring.
    replace (7205759403792793 * Q * (c * (2 ^ 57 * Q)))
      with ((7205759403792793 * c) * (Q * (2 ^ 57 * Q))) by ring.
    apply Z.mul_le_mono_nonneg_r; [ | exact Hint].
    apply Z.mul_nonneg_nonneg; [lia | ].
    apply Z.mul_nonneg_nonneg; lia. }
  rewrite (normal_ltb _ _ GR Gh). apply Z.ltb_lt.
  apply Z.le_lt_trans with (1 := Hr).
  change (hundredths 5) with (S754_finite false 7205759403792794 (-57)).
  unfold below. cbn [units]. lia.
Qed.

(** Likewise below three tenths, for a whole ratio with a denominator
    below 2^50. *)
Lemma div_below_three_tenths (b : Z) (total : number) (t : Z) :
  0 < b -> normal total -> units total = t * 2 ^ scale -> t < 2 ^ 50 ->
  10 * b < 3 * t ->
  ltb (div (of_Z b) total) (tenths 3) = true.
Proof.
  intros Hb Gt Vt Ht Hbt.
  pose proof pow2_scale_pos as PK.
  destruct (of_Z_spec b ltac:(lia)) as [Gb Vb].
  pose proof (expo_of_Z b ltac:(lia)).
  assert (Et : -52 <= expo total <= 0).
  { split.
    - assert (0 - 52 <= expo total); [ | lia].
      apply normal_expo_lower; [exact Gt | unfold scale; lia | ].
      rewrite Vt. cbn [Z.add]. nia.
    - assert (expo total <= 53 - 53); [ | lia].
      apply normal_expo_upper; [exact Gt | unfold scale; lia | ].
      rewrite Vt, Z.pow_add_r by (unfold scale; lia). nia. }
  destruct (div_spec (of_Z b) total Gb Gt ltac:(lia)) as (GR & RR & _).
  set (below := S754_finite false 5404319552844594 (-54)).
  assert (Gp : normal below) by (apply normalb_normal; reflexivity).
  assert (Gh : normal (tenths 3)) by (apply normalb_normal; reflexivity).
  pose proof (pow2_pos (-54 + scale) ltac:(unfold scale; lia)) as PQ.
  assert (EP : 2 ^ scale = 2 ^ 54 * 2 ^ (-54 + scale)).
  { rewrite <- Z.pow_add_r by (unfold scale; lia). f_equal; lia. }
  assert (Hr : units (div (of_Z b) total) <= units below).
  { apply (rounding_mono (normal_units_pos _ Gt) Z.lt_0_1 RR
             (rounding_self _ Gp)).
    rewrite Vb, Vt. unfold below. cbn [units].
    set (Q := 2 ^ (-54 + scale)) in *.
    assert (Hint : b * 2 ^ 54 <= 5404319552844594 * t) by lia.
    rewrite EP.
    replace (b * (2 ^ 54 * Q) * (2 ^ 54 * Q) * 1)
      with ((b * 2 ^ 54) * (Q * (2 ^ 54 * Q))) by ring.
    replace (5404319552844594 * Q * (t * (2 ^ 54 * Q)))
      with ((5404319552844594 * t) * (Q * (2 ^ 54 * Q))) by ring.
    apply Z.mul_le_mono_nonneg_r; [ | exact Hint].
    apply Z.mul_nonneg_nonneg; [lia | ].
    apply Z.mul_nonneg_nonneg; lia. }
  rewrite (normal_ltb _ _ GR Gh). apply Z.ltb_lt.
  apply Z.le_lt_trans with (1 := Hr).
  change (tenths 3) with (S754_finite false 5404319552844595 (-54)).
  unfold below. cbn [units]. lia.
Qed.

(** A whole ratio of at least three tenths is rounded to at least 0.3. *)
Lemma div_above_three_tenths (b : Z) (total : number) (t : Z) :
  0 < b < 2 ^ 53 -> normal total -> units total = t * 2 ^ scale ->
  t < 2 ^ 53 -> 3 * t <= 10 * b ->
  ltb (div (of_Z b) total) (tenths 3) = false.
Proof.
  intros Hb Gt Vt Ht Hbt.
  pose proof pow2_scale_pos as PK.
  destruct (of_Z_spec b ltac:(lia)) as [Gb Vb].
  destruct (of_Z_spec 3 ltac:(lia)) as [G3 V3].
  destruct (of_Z_spec 10 ltac:(lia)) as [G10 V10].
  pose proof (expo_of_Z b ltac:(lia)).
  pose proof (expo_of_Z 3 ltac:(lia)). pose proof (expo_of_Z 10 ltac:(lia)).
  assert (Et : -52 <= expo total <= 0).
  { split.
    - assert (0 - 52 <= expo total); [ | lia].
      apply normal_expo_lower; [exact Gt | unfold scale; lia | ].
      pose proof (normal_units_pos _ Gt) as Hp. rewrite Vt in Hp.
      assert (0 < t) by nia.
      rewrite Vt. cbn [Z.add]. nia.
    - assert (expo total <= 53 - 53); [ | lia].
      apply normal_expo_upper; [exact Gt | unfold scale; lia | ].
      rewrite Vt, Z.pow_add_r by (unfold scale; lia). nia. }
  destruct (div_spec (of_Z b) total Gb Gt ltac:(lia)) as (GR & RR & _).
  destruct (div_spec (of_Z 3) (of_Z 10) G3 G10 ltac:(lia)) as (GH & RH & _).
  fold (tenths 3) in GH, RH.
  apply leb_ltb_false. apply normal_leb_iff; [exact GH | exact GR | ].
  apply (rounding_mono (normal_units_pos _ G10) (normal_units_pos _ Gt) RH RR).
  rewrite Vb, Vt, V3, V10.
  set (P := 2 ^ scale) in *.
  replace (3 * P * P * (t * P)) with ((3 * t) * (P * P * P)) by ring.
  replace (b * P * P * (10 * P)) with ((10 * b) * (P * P * P)) by ring.
  apply Z.mul_le_mono_nonneg_r; [ | lia].
  apply Z.mul_nonneg_nonneg; [apply Z.mul_nonneg_nonneg | ]; lia.
Qed.

(** [<=] on whole numbers. *)
Lemma leb_of_Z (a b : Z) :
  0 <= a < 2 ^ 53 -> 0 <= b < 2 ^ 53 -> leb (of_Z a) (of_Z b) = (a <=? b).
Proof.
  intros Ha Hb. pose proof pow2_scale_pos as PK.
  destruct (Z.eq_dec a 0) as [-> | Ha0], (Z.eq_dec b 0) as [-> | Hb0].
  - reflexivity.
  - destruct (of_Z_spec b ltac:(lia)) as [(m & e & -> & _) _].
    symmetry. cbn. apply Z.leb_le. lia.
  - destruct (of_Z_spec a ltac:(lia)) as [(m & e & -> & _) _].
    symmetry. cbn. apply Z.leb_gt. lia.
  - destruct (of_Z_spec a ltac:(lia)) as [Ga Va].
    destruct (of_Z_spec b ltac:(lia)) as [Gb Vb].
    rewrite (normal_leb _ _ Ga Gb), Va, Vb.
    destruct (Z.leb_spec a b); [apply Z.leb_le | apply Z.leb_gt]; nia.
Qed.

Lemma ltb_of_Z (a b : Z) :
  0 <= a < 2 ^ 53 -> 0 <= b < 2 ^ 53 -> ltb (of_Z a) (of_Z b) = (a <? b).
Proof.
  intros Ha Hb. pose proof pow2_scale_pos as PK.
  destruct (Z.eq_dec a 0) as [-> | Ha0], (Z.eq_dec b 0) as [-> | Hb0].
  - reflexivity.
  - destruct (of_Z_spec b ltac:(lia)) as [(m & e & -> & _) _].
    symmetry. cbn. apply Z.ltb_lt. lia.
  - destruct (of_Z_spec a ltac:(lia)) as [(m & e & -> & _) _].
    symmetry. cbn. apply Z.ltb_ge. lia.
  - destruct (of_Z_spec a ltac:(lia)) as [Ga Va].
    destruct (of_Z_spec b ltac:(lia)) as [Gb Vb].
    rewrite (normal_ltb _ _ Ga Gb), Va, Vb.
    destruct (Z.ltb_spec a b); [apply Z.ltb_lt | apply Z.ltb_ge]; nia.
Qed.

Lemma getBuySellRatio_half (market : Market.MarketData) (b s : Z) :
  buys (Market.transactions market) = of_Z b ->
  sells (Market.transactions market) = of_Z s ->
  0 <= s <= b -> b < 2 ^ 53 ->
  leb (tenths 5) (getBuySellRatio market) = true.
Proof.
  intros Eb Es Hs Hb. unfold getBuySellRatio. rewrite Eb, Es.
  assert (G5 : normal (tenths 5)) by (apply normalb_normal; reflexivity).
  destruct (Z.eq_dec b 0) as [-> | Hb0].
  - replace s with 0 by lia. reflexivity.
  - destruct (ratio_of_counts b s ltac:(lia) ltac:(lia))
      as (Gt & GR & U1 & L5).
    rewrite (normal_not_zero _ Gt).
    apply normal_leb_iff; [exact G5 | exact GR | ].
    apply L5. lia.
Qed.

(** X11: for whole numbers of buys and sells, [getBuySellRatio] is a
    number between 0 and 1: it is 0.5 when there is no transaction, 0 when
    there are sells only, and at least 0.5 when the buys are no fewer than
    the sells. *)
Theorem getBuySellRatio_counts (market : Market.MarketData) (b s : Z) :
  buys (Market.transactions market) = of_Z b ->
  sells (Market.transactions market) = of_Z s ->
  0 <= b < 2 ^ 53 -> 0 <= s < 2 ^ 53 ->
  leb (of_Z 0) (getBuySellRatio market) = true
  /\ leb (getBuySellRatio market) (of_Z 1) = true
  /\ (b = 0 -> s = 0 -> getBuySellRatio market = tenths 5)
  /\ (b = 0 -> 0 < s -> getBuySellRatio market = of_Z 0)
  /\ (s <= b -> leb (tenths 5) (getBuySellRatio market) = true).
Proof.
  intros Eb Es Hb Hs. unfold getBuySellRatio. rewrite Eb, Es.
  assert (G1 : normal (of_Z 1)) by (apply normal_of_Z; lia).
  assert (G5 : normal (tenths 5)) by (apply normalb_normal; reflexivity).
  destruct (Z.eq_dec b 0) as [-> | Hb0].
  - destruct (Z.eq_dec s 0) as [-> | Hs0].
    + repeat split; intros; try reflexivity; lia.
    + destruct (of_Z_spec s ltac:(lia)) as [Gs Vs].
      assert (E : add (of_Z 0) (of_Z s) = of_Z s).
      { destruct Gs as (m & e & -> & _). reflexivity. }
      rewrite E, (normal_not_zero _ Gs).
      assert (E0 : div (of_Z 0) (of_Z s) = of_Z 0).
      { destruct Gs as (m & e & -> & _). reflexivity. }
      rewrite E0.
      repeat split; intros; try reflexivity; lia.
  - destruct (ratio_of_counts b s ltac:(lia) Hs) as (Gt & GR & U1 & L5).
    rewrite (normal_not_zero _ Gt).
    split; [apply normal_nonneg; exact GR | ].
    split; [apply normal_leb_iff; assumption | ].
    split; [intros; lia | split; [intros; lia | ]].
    intros Hsb. apply normal_leb_iff; [exact G5 | exact GR | ].
    apply L5. exact Hsb.
Qed.

Lemma getBuySellRatio_counts_witness :
  let market :=
    Market.mkMarketData (of_Z 1) (mkWindows (of_Z 0) (of_Z 0) (of_Z 0) (of_Z 0))
      (mkWindows (of_Z 0) (of_Z 0) (of_Z 0) (of_Z 0))
      (mkTransactions (of_Z 7) (of_Z 3)) (of_Z 1000) None None in
  leb (of_Z 0) (getBuySellRatio market) = true
  /\ leb (getBuySellRatio market) (of_Z 1) = true
  /\ (7 = 0 -> 3 = 0 -> getBuySellRatio market = tenths 5)
  /\ (7 = 0 -> 0 < 3 -> getBuySellRatio market = of_Z 0)
  /\ (3 <= 7 -> leb (tenths 5) (getBuySellRatio market) = true).
Proof.
  intros market.
  apply (getBuySellRatio_counts market 7 3); try reflexivity; lia.
Defined.

(** X12: for whole numbers of buys and sells, fewer than 2^50 together,
    [detectDumpPattern] fires exactly when the price fell by more than 30
    in the hour or by more than 15 in five minutes and the buys are fewer
    than three tenths of the transactions, [7 * buys < 3 * sells]: the
    rounding of the ratio and of the literal 0.3 changes no case.  Below
    2^53 it never fires when the buys are no fewer than the sells, so not
    when there is no transaction at all. *)
Theorem detectDumpPattern_exact (market : Market.MarketData) (b s : Z) :
  buys (Market.transactions market) = of_Z b ->
  sells (Market.transactions market) = of_Z s ->
  0 <= b -> 0 <= s ->
  (b + s < 2 ^ 50 ->
   detectDumpPattern market
   = (ltb (h1 (Market.priceChange market)) (of_Z (-30))
      || ltb (m5 (Market.priceChange market)) (of_Z (-15)))
     && (7 * b <? 3 * s))
  /\ (s <= b -> b < 2 ^ 53 -> detectDumpPattern market = false).
Proof.
  intros Eb Es Hb Hs. split.
  - intros Hbs. unfold detectDumpPattern. f_equal.
    unfold getBuySellRatio. rewrite Eb, Es.
    destruct (Z.eq_dec b 0) as [-> | Hb0].
    + destruct (Z.eq_dec s 0) as [-> | Hs0]; [reflexivity | ].
      destruct (of_Z_spec s ltac:(lia)) as [Gs Vs].
      assert (E : add (of_Z 0) (of_Z s) = of_Z s).
      { destruct Gs as (m & e & -> & _). reflexivity. }
      rewrite E, (normal_not_zero _ Gs).
      assert (E0 : div (of_Z 0) (of_Z s) = of_Z 0).
      { destruct Gs as (m & e & -> & _). reflexivity. }
      rewrite E0. symmetry. apply Z.ltb_lt. lia.
    + destruct (add_of_Z_exact b s ltac:(lia) Hs ltac:(lia)) as [Gt Vt].
      rewrite (normal_not_zero _ Gt).
      destruct (Z.ltb_spec (7 * b) (3 * s)) as [Hlt | Hge].
      * apply div_below_three_tenths with (t := b + s);
          [lia | exact Gt | exact Vt | lia | lia].
      * apply div_above_three_tenths with (t := b + s);
          [lia | exact Gt | exact Vt | lia | lia].
  - intros Hsb Hb53.
    pose proof (getBuySellRatio_half market b s Eb Es (conj Hs Hsb) Hb53)
      as H.
    unfold detectDumpPattern.
    assert (H3 : leb (tenths 3) (getBuySellRatio market) = true).
    { apply leb_trans with (2 := H). vm_compute. reflexivity. }
    rewrite (leb_ltb_false _ _ H3). apply andb_false_r.
Qed.

Lemma detectDumpPattern_exact_witness :
  let market :=
    Market.mkMarketData (of_Z 1)
      (mkWindows (of_Z (-20)) (of_Z (-40)) (of_Z 0) (of_Z 0))
      (mkWindows (of_Z 0) (of_Z 0) (of_Z 0) (of_Z 0))
      (mkTransactions (of_Z 2) (of_Z 8)) (of_Z 1000) None None in
  (2 + 8 < 2 ^ 50 ->
   detectDumpPattern market
   = (ltb (h1 (Market.priceChange market)) (of_Z (-30))
      || ltb (m5 (Market.priceChange market)) (of_Z (-15)))
     && (7 * 2 <? 3 * 8))
  /\ (8 <= 2 -> 2 < 2 ^ 53 -> detectDumpPattern market = false).
Proof.
  intros market.
  apply (detectDumpPattern_exact market 2 8); try reflexivity; lia.
Defined.

(** ** Liquidity *)

(** X13: [getLiquidityRatio] is [null] exactly when the market cap is
    absent, zero of either sign, or NaN, and otherwise the liquidity
    divided by the market cap: it never divides by zero.  Without a market
    cap [detectPumpPattern] does not fire, whatever the price did.  For a
    liquidity and a market cap that are whole numbers it fires exactly when
    the price rose by more than 50 in the hour or by more than 20 in five
    minutes and the liquidity is less than a twentieth of the market cap:
    the rounding of the ratio and of the literal 0.05 changes no case. *)
Theorem detectPumpPattern_exact (market : Market.MarketData) :
  getLiquidityRatio market
  = match Market.marketCap market with
    | Some cap =>
        if truthy cap then Some (div (Market.liquidity market) cap) else None
    | None => None
    end
  /\ (getLiquidityRatio market = None -> detectPumpPattern market = false)
  /\ (forall l c : Z,
         Market.liquidity market = of_Z l ->
         Market.marketCap market = Some (of_Z c) ->
         0 <= l < 2 ^ 53 -> 0 < c < 2 ^ 53 ->
         detectPumpPattern market
         = (gtb (h1 (Market.priceChange market)) (of_Z 50)
            || gtb (m5 (Market.priceChange market)) (of_Z 20))
           && (20 * l <? c)).
Proof.
  split; [ | split].
  - unfold getLiquidityRatio.
    destruct (Market.marketCap market) as [cap | ]; [ | reflexivity].
    destruct cap as [sc | [ | ] | | [ | ] mc ec]; reflexivity.
  - intros H. unfold detectPumpPattern. rewrite H. apply andb_false_r.
  - intros l c El Ec Hl Hc.
    unfold detectPumpPattern, getLiquidityRatio. rewrite El, Ec.
    pose proof pow2_scale_pos as PK.
    destruct (of_Z_spec c Hc) as [Gc Vc].
    assert (Et : truthy (of_Z c) = true)
      by (destruct Gc as (m & e & -> & _); reflexivity).
    rewrite Et, (normal_not_zero _ Gc). cbn [negb orb ToNumber].
    f_equal.
    destruct (Z.eq_dec l 0) as [-> | Hl0].
    { assert (E0 : div (of_Z 0) (of_Z c) = of_Z 0).
      { destruct Gc as (m & e & -> & _). reflexivity. }
      rewrite E0. symmetry. apply Z.ltb_lt. lia. }
    destruct (Z.ltb_spec (20 * l) c) as [Hlt | Hge].
    { apply div_below_twentieth; lia. }
    destruct (of_Z_spec l ltac:(lia)) as [Gl Vl].
    destruct (of_Z_spec 5 ltac:(lia)) as [G5 V5].
    destruct (of_Z_spec 100 ltac:(lia)) as [G100 V100].
    pose proof (expo_of_Z l ltac:(lia)). pose proof (expo_of_Z c Hc).
    pose proof (expo_of_Z 5 ltac:(lia)). pose proof (expo_of_Z 100 ltac:(lia)).
    destruct (div_spec (of_Z l) (of_Z c) Gl Gc ltac:(lia)) as (GR & RR & _).
    destruct (div_spec (of_Z 5) (of_Z 100) G5 G100 ltac:(lia))
      as (GH & RH & _).
    fold (hundredths 5) in GH, RH.
    apply leb_ltb_false. apply normal_leb_iff; [exact GH | exact GR | ].
    apply (rounding_mono (normal_units_pos _ G100) (normal_units_pos _ Gc)
             RH RR).
    rewrite Vl, Vc, V5, V100.
    set (P := 2 ^ scale) in *.
    replace (5 * P * P * (c * P)) with ((5 * c) * (P * P * P)) by ring.
    replace (l * P * P * (100 * P)) with ((100 * l) * (P * P * P)) by ring.
    apply Z.mul_le_mono_nonneg_r; [ | lia].
    apply Z.mul_nonneg_nonneg; [apply Z.mul_nonneg_nonneg | ]; lia.
Qed.

Lemma detectPumpPattern_exact_witness :
  let market :=
    Market.mkMarketData (of_Z 1)
      (mkWindows (of_Z 30) (of_Z 80) (of_Z 0) (of_Z 0))
      (mkWindows (of_Z 0) (of_Z 0) (of_Z 0) (of_Z 0))
      (mkTransactions (of_Z 0) (of_Z 0)) (of_Z 1000) (Some (of_Z 20001))
      None in
  detectPumpPattern market
  = (gtb (h1 (Market.priceChange market)) (of_Z 50)
     || gtb (m5 (Market.priceChange market)) (of_Z 20))
    && (20 * 1000 <? 20001).
Proof.
  intros market.
  apply (proj2 (proj2 (detectPumpPattern_exact market)) 1000 20001);
    try reflexivity; lia.
Defined.

(** X14: a threshold that [hasSufficientLiquidity] accepts stays accepted
    when it is lowered; the absent threshold is 10000; a liquidity or a
    threshold that is NaN is never sufficient; and on whole numbers the
    test is the comparison of the integers. *)
Theorem hasSufficientLiquidity_thresholds (market : Market.MarketData) :
  (forall a b,
      hasSufficientLiquidity market (Some a) = true -> leb b a = true ->
      hasSufficientLiquidity market (Some b) = true)
  /\ hasSufficientLiquidity market None
     = hasSufficientLiquidity market (Some (of_Z 10000))
  /\ (Market.liquidity market = NaN ->
      forall minUsd, hasSufficientLiquidity market minUsd = false)
  /\ hasSufficientLiquidity market (Some NaN) = false
  /\ (forall l m : Z,
         Market.liquidity market = of_Z l ->
         0 <= l < 2 ^ 53 -> 0 <= m < 2 ^ 53 ->
         hasSufficientLiquidity market (Some (of_Z m)) = (m <=? l)).
Proof.
  unfold hasSufficientLiquidity, geb. fold leb.
  split; [ | split; [reflexivity | split; [ | split]]].
  - intros a b Ha Hb. exact (leb_trans _ _ _ Hb Ha).
  - intros -> [v | ]; [ | reflexivity].
    destruct v as [s | s | | s m e]; reflexivity.
  - reflexivity.
  - intros l m -> Hl Hm. apply leb_of_Z; assumption.
Qed.

Lemma hasSufficientLiquidity_thresholds_witness :
  let market :=
    Market.mkMarketData (of_Z 1)
      (mkWindows (of_Z 0) (of_Z 0) (of_Z 0) (of_Z 0))
      (mkWindows (of_Z 0) (of_Z 0) (of_Z 0) (of_Z 0))
      (mkTransactions (of_Z 0) (of_Z 0)) (of_Z 15000) None None in
  hasSufficientLiquidity market (Some (of_Z 5000)) = true.
Proof.
  intros market.
  apply (proj1 (hasSufficientLiquidity_thresholds market) (of_Z 10000)
           (of_Z 5000)); reflexivity.
Defined.

(** ** Momentum *)

Lemma binary_round_aux_signed (s : bool) (m e : Z) (l : location) :
  0 <= m -> signedb s (binary_round_aux prec emax s m e l) = true.
Proof.
  intros Hm. unfold binary_round_aux.
  pose proof (shr_fexp_nonneg m e l Hm) as H1.
  destruct (shr_fexp prec emax m e l) as [mrs1 e1]. cbn [fst] in H1.
  pose proof (shr_fexp_nonneg _ e1 loc_Exact
                (round_nearest_even_nonneg _ (loc_of_shr_record mrs1) H1))
    as H2.
  destruct (shr_fexp prec emax
              (round_nearest_even (shr_m mrs1) (loc_of_shr_record mrs1)) e1
              loc_Exact) as [mrs2 e2].
  cbn [fst] in H2.
  destruct (shr_m mrs2) as [ | p | p]; [reflexivity | | lia].
  destruct (e2 <=? emax - prec); apply eqb_reflx.
Qed.

Lemma binary_normalize_signed (s : bool) (m e : Z) :
  0 <= cond_Zopp s m ->
  signedb s (binary_normalize prec emax m e false) = true.
Proof.
  intros Hm. destruct m as [ | p | p]; [reflexivity | | ];
    destruct s; cbn [cond_Zopp Z.opp] in Hm; try lia;
    cbn [binary_normalize]; unfold binary_round;
    destruct (shl_align p e (fexp prec emax (Z.pos (digits2_pos p) + e)))
      as [mz ez];
    apply binary_round_aux_signed; lia.
Qed.

Lemma add_signed (s : bool) (x y : number) :
  signedb s x = true -> signedb s y = true -> signedb s (add x y) = true.
Proof.
  destruct x as [sx | sx | | sx mx ex]; try discriminate;
    destruct y as [sy | sy | | sy my ey]; try discriminate;
    cbn [signedb]; intros Hx Hy;
    try (repeat match goal with
           | c : bool |- _ => destruct c
           end; try discriminate; reflexivity).
  apply eqb_prop in Hx, Hy. subst sx sy.
  unfold add. cbn [SFadd].
  apply binary_normalize_signed.
  destruct s; cbn [cond_Zopp]; lia.
Qed.

Lemma div_signed (s : bool) (x y : number) :
  signedb s x = true -> normal y -> signedb s (div x y) = true.
Proof.
  intros Hx (my & ey & -> & _).
  destruct x as [sx | sx | | sx mx ex]; try discriminate;
    cbn [signedb] in Hx; try (apply eqb_prop in Hx; subst sx);
    unfold div; cbn [SFdiv]; rewrite ?xorb_false_r; cbn [signedb];
    try reflexivity; try apply eqb_reflx.
  unfold SFdiv_core_binary.
  set (d := ex - ey - _).
  set (m' := match d with Z.pos _ => Z.shiftl (Z.pos mx) d | 0 => Z.pos mx
                        | Z.neg _ => 0 end).
  assert (Hm' : 0 <= m').
  { unfold m'. destruct d as [ | p | p]; try lia.
    apply Z.shiftl_nonneg. lia. }
  pose proof (Z_div_mod m' (Z.pos my) ltac:(lia)) as Hdm.
  destruct (Z.div_eucl m' (Z.pos my)) as [q r].
  apply binary_round_aux_signed. nia.
Qed.

Lemma nan_add_l (y : number) : add NaN y = NaN.
Proof. reflexivity. Qed.

Lemma nan_add_r (x : number) : add x NaN = NaN.
Proof. destruct x; reflexivity. Qed.

Lemma geb_zero_signed (x : number) :
  geb x (of_Z 0) = true -> signedb false x = true.
Proof.
  destruct x as [s | [ | ] | | [ | ] m e]; try discriminate; reflexivity.
Qed.

Lemma leb_zero_signed (x : number) :
  leb x (of_Z 0) = true -> signedb true x = true.
Proof.
  destruct x as [s | [ | ] | | [ | ] m e]; try discriminate; reflexivity.
Qed.

(** X15: [getMomentum] is neutral when one of the four price changes is
    NaN; it is not bearish when none of the four is below zero, and not
    bullish when none is above zero, rounding, overflow and the signs of
    zero notwithstanding. *)
Theorem getMomentum_signs (market : Market.MarketData) :
  let changes := Market.priceChange market in
  (m5 changes = NaN \/ h1 changes = NaN \/ h6 changes = NaN
   \/ h24 changes = NaN ->
   getMomentum market = neutral)
  /\ (geb (m5 changes) (of_Z 0) = true -> geb (h1 changes) (of_Z 0) = true ->
      geb (h6 changes) (of_Z 0) = true -> geb (h24 changes) (of_Z 0) = true ->
      getMomentum market <> bearish)
  /\ (leb (m5 changes) (of_Z 0) = true -> leb (h1 changes) (of_Z 0) = true ->
      leb (h6 changes) (of_Z 0) = true -> leb (h24 changes) (of_Z 0) = true ->
      getMomentum market <> bullish).
Proof.
  intros changes. unfold getMomentum. fold changes.
  cbn [fold_left List.length Z.of_nat Pos.of_succ_nat Pos.succ].
  assert (G4 : normal (of_Z 4)) by (apply normal_of_Z; lia).
  set (total := add (add (add (add (of_Z 0) (m5 changes)) (h1 changes))
                      (h6 changes)) (h24 changes)).
  split; [ | split].
  - intros H.
    assert (E : total = NaN).
    { unfold total.
      destruct H as [-> | [-> | [-> | ->]]];
        rewrite ?nan_add_r, ?nan_add_l; reflexivity. }
    rewrite E. reflexivity.
  - intros H1 H2 H3 H4.
    apply geb_zero_signed in H1, H2, H3, H4.
    assert (S : signedb false (div total (of_Z 4)) = true).
    { apply div_signed; [ | exact G4].
      unfold total. repeat apply add_signed; try assumption. reflexivity. }
    destruct (gtb _ _); [discriminate | ].
    replace (ltb (div total (of_Z 4)) (of_Z (-5))) with false;
      [discriminate | ].
    destruct (div total (of_Z 4)) as [s | [ | ] | | [ | ] m e];
      try discriminate S; reflexivity.
  - intros H1 H2 H3 H4.
    apply leb_zero_signed in H1, H2, H3, H4.
    assert (S : signedb true (div total (of_Z 4)) = true).
    { apply div_signed; [ | exact G4].
      unfold total. repeat apply add_signed; try assumption. reflexivity. }
    replace (gtb (div total (of_Z 4)) (of_Z 5)) with false.
    + destruct (ltb _ _); discriminate.
    + destruct (div total (of_Z 4)) as [s | [ | ] | | [ | ] m e];
        try discriminate S; reflexivity.
Qed.

Lemma getMomentum_signs_witness :
  let market :=
    Market.mkMarketData (of_Z 1)
      (mkWindows (of_Z 0) (of_Z 3) (of_Z 40) (of_Z 7))
      (mkWindows (of_Z 0) (of_Z 0) (of_Z 0) (of_Z 0))
      (mkTransactions (of_Z 0) (of_Z 0)) (of_Z 15000) None None in
  getMomentum market <> bearish.
Proof.
  intros market.
  apply (proj1 (proj2 (getMomentum_signs market))); reflexivity.
Defined.

(** ** Comparing two tokens *)

Lemma ltb_asym (x y : number) : ltb x y = true -> ltb y x = false.
Proof.
  unfold ltb, SFltb. rewrite (SFcompare_swap x y).
  destruct (SFcompare x y) as [[ | | ] | ]; simpl; congruence.
Qed.

Lemma ltb_irrefl (x : number) : ltb x x = false.
Proof.
  destruct (ltb x x) eqn:E; [ | reflexivity].
  rewrite (ltb_asym x x E) in E. discriminate.
Qed.

Lemma or_label_not_empty (v : option string) (d : string) :
  d <> EmptyString -> or_label v d <> EmptyString.
Proof.
  intros Hd. destruct v as [[ | c s] | ]; simpl; try exact Hd. discriminate.
Qed.

(** X16: the labels of [compareTokens] are never empty: a token without a
    symbol, or with the empty one, is called A or B by its position.  An
    absent, zero or NaN figure counts as 0, and on a tie the second token
    is named, so a token compared with itself is named by its symbol or
    B.  When the first token has the larger market cap, it is the one
    named in either order of the arguments; and for market caps that are
    whole numbers the first token is named exactly when its market cap is
    the larger integer. *)
Theorem compareTokens_labels (a b : Token.TokenData) :
  (higherMcap (compareTokens a b) <> EmptyString
   /\ higherVolume (compareTokens a b) <> EmptyString
   /\ higherLiquidity (compareTokens a b) <> EmptyString)
  /\ compareTokens a a
     = {| higherMcap := or_label (Token.symbol a) "B";
          higherVolume := or_label (Token.symbol a) "B";
          higherLiquidity := or_label (Token.symbol a) "B" |}
  /\ (gtb (or_default (Token.marketCap a) (of_Z 0))
          (or_default (Token.marketCap b) (of_Z 0)) = true ->
      higherMcap (compareTokens a b) = or_label (Token.symbol a) "A"
      /\ higherMcap (compareTokens b a) = or_label (Token.symbol a) "B")
  /\ (forall x y : Z,
         Token.marketCap a = Some (of_Z x) ->
         Token.marketCap b = Some (of_Z y) ->
         0 <= x < 2 ^ 53 -> 0 <= y < 2 ^ 53 ->
         higherMcap (compareTokens a b)
         = if y <? x then or_label (Token.symbol a) "A"
           else or_label (Token.symbol b) "B").
Proof.
  split; [ | split; [ | split]].
  - unfold compareTokens. cbn [higherMcap higherVolume higherLiquidity].
    repeat split;
      match goal with
      | |- context [if ?c then _ else _] => destruct c
      end; apply or_label_not_empty; discriminate.
  - unfold compareTokens. unfold gtb. fold ltb. rewrite !ltb_irrefl.
    reflexivity.
  - intros H. unfold compareTokens. cbn [higherMcap].
    rewrite H. split; [reflexivity | ].
    unfold gtb in *. fold ltb in *. rewrite (ltb_asym _ _ H). reflexivity.
  - intros x y Ex Ey Hx Hy. unfold compareTokens. cbn [higherMcap].
    rewrite Ex, Ey.
    assert (D : forall k, 0 <= k < 2 ^ 53 ->
               or_default (Some (of_Z k)) (of_Z 0) = of_Z k).
    { intros k Hk. destruct (Z.eq_dec k 0) as [-> | Hk0]; [reflexivity | ].
      destruct (of_Z_spec k ltac:(lia)) as [(m & e & -> & _) _].
      reflexivity. }
    rewrite (D x Hx), (D y Hy). unfold gtb. fold ltb.
    rewrite (ltb_of_Z y x Hy Hx). reflexivity.
Qed.

Lemma compareTokens_labels_witness :
  let a := Token.mkTokenData "0xa" "ethereum" None (Some "AAA"%string) None
             None None (Some (of_Z 500)) None None None None None in
  let b := Token.mkTokenData "0xb" "ethereum" None None None
             None None None None None None None None in
  higherMcap (compareTokens a b) = or_label (Token.symbol a) "A"
  /\ higherMcap (compareTokens b a) = or_label (Token.symbol a) "B".
Proof.
  intros a b.
  apply (proj2 (proj2 (compareTokens_labels a b))). reflexivity.
Defined.

(** * What the score does not promise *)

(** X17: the score depends on the order of the signals.  The four signals
    below score 0.8, 1.6, 2.4 and 1.8; ten times their combined score is
    19.5 in exact arithmetic, and the rounding of the running sum decides
    on which side of it the computed number falls.  In the order given the
    score is 20 and the level low; the array [sortBySeverity] makes of them
    scores 19, and its level is safe.  So the score is not invariant under
    permutation. *)
Theorem score_depends_on_order :
  let a := sig "a" social_sentiment low in
  let b := sig "b" social_sentiment medium in
  let c := sig "c" whale_movement medium in
  let d := sig "d" price_manipulation low in
  let signals := [a; b; c; d] in
  (exists st' out sorted,
      sortBySeverity [signals] 0%nat = Some (st', out)
      /\ Store.read st' out = Some sorted
      /\ Permutation signals sorted
      /\ calculateRiskScore signals = of_Z 20
      /\ calculateRiskScore sorted = of_Z 19
      /\ getRiskLevel (calculateRiskScore signals) = level_low
      /\ getRiskLevel (calculateRiskScore sorted) = level_safe)
  /\ ~ (forall xs ys, Permutation xs ys ->
                      calculateRiskScore xs = calculateRiskScore ys).
Proof.
  intros a b c d signals.
  assert (P : Permutation signals [b; c; a; d]).
  { unfold signals.
    apply perm_trans with [b; a; c; d]; [apply perm_swap | ].
    apply perm_skip. apply perm_swap. }
  assert (E1 : calculateRiskScore signals = of_Z 20)
    by (vm_compute; reflexivity).
  assert (E2 : calculateRiskScore [b; c; a; d] = of_Z 19)
    by (vm_compute; reflexivity).
  split.
  - exists [signals; [b; c; a; d]], 1%nat, [b; c; a; d].
    split; [vm_compute; reflexivity | ].
    split; [reflexivity | ].
    split; [exact P | ].
    split; [exact E1 | ].
    split; [exact E2 | ].
    rewrite E1, E2. split; vm_compute; reflexivity.
  - intros H. specialize (H _ _ P). rewrite E1, E2 in H. discriminate H.
Qed.

Lemma existsb_permutation {A : Type} (p : A -> bool) (l1 l2 : list A) :
  Permutation l1 l2 -> existsb p l1 = existsb p l2.
Proof.
  intros H. induction H as [ | x l l' H IH | x y l | l l' l'' H1 IH1 H2 IH2];
    cbn [existsb].
  - reflexivity.
  - rewrite IH. reflexivity.
  - destruct (p x), (p y); reflexivity.
  - rewrite IH1. exact IH2.
Qed.

(** X18: a verdict that rests on the override is kept, one that rests on
    the score is not.  A collection with a signal of type honeypot, of type
    rugpull_risk or of severity critical is high risk, and remains so
    however it is reordered and whatever is added to it.  But a high
    mint_authority signal alone scores 75 and is high risk, and with one
    low social_sentiment signal added the score is 55 and the collection
    is not high risk: adding a signal can lower the score and clear the
    verdict. *)
Theorem override_is_kept_score_is_not :
  (forall signals more reordered s,
      In s signals -> overrides s ->
      Permutation (signals ++ more) reordered ->
      isHighRisk reordered = true)
  /\ (let strong := sig "m" mint_authority high in
      let mild := sig "s" social_sentiment low in
      calculateRiskScore [strong] = of_Z 75
      /\ isHighRisk [strong] = true
      /\ calculateRiskScore [strong; mild] = of_Z 55
      /\ isHighRisk [strong; mild] = false).
Proof.
  split; [ | repeat split; vm_compute; reflexivity].
  intros signals more reordered s Hin Hs Hperm.
  unfold isHighRisk. apply orb_true_iff. right.
  rewrite <- (existsb_permutation _ _ _ Hperm).
  apply existsb_exists. exists s. split.
  - apply in_or_app. left. exact Hin.
  - apply override_spec. exact Hs.
Qed.

Lemma override_is_kept_score_is_not_witness :
  isHighRisk [sig "b" social_sentiment low; sig "a" honeypot info] = true.
Proof.
  apply (proj1 override_is_kept_score_is_not
           [sig "a" honeypot info] [sig "b" social_sentiment low]
           [sig "b" social_sentiment low; sig "a" honeypot info]
           (sig "a" honeypot info)).
  - left. reflexivity.
  - left. reflexivity.
  - apply perm_swap.
Defined.

(** ** The rendering of a signal *)

Lemma string_append_inj (p a b : string) :
  (p ++ a)%string = (p ++ b)%string -> a = b.
Proof.
  induction p as [ | c p IH]; simpl; [tauto | ].
  intros [= H]. apply IH. exact H.
Qed.

Lemma string_append_assoc (a b c : string) :
  ((a ++ b) ++ c)%string = (a ++ (b ++ c))%string.
Proof.
  induction a as [ | x a IH]; simpl; [reflexivity | ].
  rewrite IH. reflexivity.
Qed.

(** X19: the severity can be read back from the rendering, the title and
    the summary cannot.  Two signals of declared severities that
    [formatSignal] renders as the same string have the same severity and
    the same text after the label; but that text does not say where the
    title ends: a title [t: u] with the summary [w] is rendered as the
    title [t] with the summary [u: w]. *)
Theorem formatSignal_reads_back_severity :
  (forall (s1 s2 : Signal) (v1 v2 : SignalSeverity),
      severity s1 = known v1 -> severity s2 = known v2 ->
      formatSignal s1 = formatSignal s2 ->
      v1 = v2
      /\ (title s1 ++ ": " ++ summary s1
          = title s2 ++ ": " ++ summary s2)%string)
  /\ (forall (s1 s2 : Signal) (t u w : string),
         severity s1 = severity s2 ->
         title s1 = (t ++ ": " ++ u)%string -> summary s1 = w ->
         title s2 = t -> summary s2 = (u ++ ": " ++ w)%string ->
         formatSignal s1 = formatSignal s2).
Proof.
  split.
  - intros s1 s2 v1 v2 H1 H2. unfold formatSignal. rewrite H1, H2.
    destruct v1, v2; intros H; try (simpl in H; discriminate H);
      (split; [reflexivity | ]);
      cbn [get through_prototype table_get severityEmoji SignalSeverity_eqb
           lookup_string field_string SignalSeverity_name toUpperCase] in H;
      apply string_append_inj in H; cbn in H;
      repeat match type of H with
        | String _ _ = String _ _ => injection H as H
        end;
      exact H.
  - intros s1 s2 t u w Hs Ht1 Hw1 Ht2 Hu2. unfold formatSignal.
    rewrite Hs, Ht1, Hw1, Ht2, Hu2. do 3 f_equal.
    rewrite !string_append_assoc. reflexivity.
Qed.

Lemma formatSignal_reads_back_severity_witness :
  let s1 := mkSignal "1" (known honeypot) (known high) "Trap: sell" "blocked"
              None (of_Z 1) None in
  let s2 := mkSignal "2" (known honeypot) (known high) "Trap"
              "sell: blocked" None (of_Z 1) None in
  formatSignal s1 = formatSignal s2
  /\ high = high.
Proof.
  intros s1 s2.
  assert (H : formatSignal s1 = formatSignal s2).
  { apply (proj2 formatSignal_reads_back_severity s1 s2 "Trap"%string
             "sell"%string "blocked"%string); reflexivity. }
  split; [exact H | ].
  apply (proj1 formatSignal_reads_back_severity s1 s2 high high);
    [reflexivity | reflexivity | exact H].
Defined.

(** * The formatters *)

Lemma ltb_not_geb (x y z : number) :
  ltb x y = true -> leb y z = true -> geb x z = false.
Proof.
  intros Hlt Hyz. unfold geb. fold (leb z x).
  destruct (leb z x) eqn:E; [ | reflexivity].
  rewrite (leb_ltb_false _ _ (leb_trans _ _ _ Hyz E)) in Hlt. discriminate.
Qed.

Lemma nan_not_geb (y : number) : geb NaN y = false.
Proof. destruct y; reflexivity. Qed.

(** X20: the unit [formatMarketCap] and [formatVolume] print follows the
    size of the value, each bound included in the bucket above it: from
    10^12 on trillions, from 10^9 billions, from 10^6 millions, from 10^3
    thousands, each with the value divided by the unit and two decimals.
    A value below 1000, so also a negative one, and NaN are printed whole,
    without a unit. *)
Theorem formatMarketCap_buckets (toFixed : number -> Z -> string)
  (value : number) :
  let shown unit letter :=
    ("$" ++ toFixed (div value (of_Z unit)) 2 ++ letter)%string in
  (geb value (of_Z (10 ^ 12)) = true ->
   formatMarketCap toFixed value = shown (10 ^ 12) "T"%string)
  /\ (geb value (of_Z (10 ^ 9)) = true -> ltb value (of_Z (10 ^ 12)) = true ->
      formatMarketCap toFixed value = shown (10 ^ 9) "B"%string)
  /\ (geb value (of_Z (10 ^ 6)) = true -> ltb value (of_Z (10 ^ 9)) = true ->
      formatMarketCap toFixed value = shown (10 ^ 6) "M"%string)
  /\ (geb value (of_Z (10 ^ 3)) = true -> ltb value (of_Z (10 ^ 6)) = true ->
      formatMarketCap toFixed value = shown (10 ^ 3) "K"%string)
  /\ (ltb value (of_Z (10 ^ 3)) = true \/ value = NaN ->
      formatMarketCap toFixed value = ("$" ++ toFixed value 2)%string)
  /\ formatVolume toFixed value = formatMarketCap toFixed value.
Proof.
  intros shown. unfold shown, formatVolume, formatMarketCap.
  assert (H36 : leb (of_Z (10 ^ 3)) (of_Z (10 ^ 6)) = true)
    by (vm_compute; reflexivity).
  assert (H69 : leb (of_Z (10 ^ 6)) (of_Z (10 ^ 9)) = true)
    by (vm_compute; reflexivity).
  assert (H912 : leb (of_Z (10 ^ 9)) (of_Z (10 ^ 12)) = true)
    by (vm_compute; reflexivity).
  assert (R3 : leb (of_Z (10 ^ 3)) (of_Z (10 ^ 3)) = true)
    by (vm_compute; reflexivity).
  assert (R6 : leb (of_Z (10 ^ 6)) (of_Z (10 ^ 6)) = true)
    by (vm_compute; reflexivity).
  assert (R9 : leb (of_Z (10 ^ 9)) (of_Z (10 ^ 9)) = true)
    by (vm_compute; reflexivity).
  assert (R12 : leb (of_Z (10 ^ 12)) (of_Z (10 ^ 12)) = true)
    by (vm_compute; reflexivity).
  pose proof (leb_trans _ _ _ H36 H69) as H39.
  pose proof (leb_trans _ _ _ H39 H912) as H312.
  pose proof (leb_trans _ _ _ H69 H912) as H612.
  repeat split.
  - intros ->. reflexivity.
  - intros H9 L12.
    rewrite (ltb_not_geb _ _ _ L12 R12), H9. reflexivity.
  - intros H6 L9.
    rewrite (ltb_not_geb _ _ _ L9 H912), (ltb_not_geb _ _ _ L9 R9), H6.
    reflexivity.
  - intros H3 L6.
    rewrite (ltb_not_geb _ _ _ L6 H612), (ltb_not_geb _ _ _ L6 H69),
      (ltb_not_geb _ _ _ L6 R6), H3.
    reflexivity.
  - intros [L3 | ->].
    + rewrite (ltb_not_geb _ _ _ L3 H312), (ltb_not_geb _ _ _ L3 H39),
        (ltb_not_geb _ _ _ L3 H36), (ltb_not_geb _ _ _ L3 R3).
      reflexivity.
    + rewrite !nan_not_geb. reflexivity.
Qed.

Lemma formatMarketCap_buckets_witness :
  formatMarketCap (fun _ _ => "1.50"%string) (of_Z 1500000)
  = "$1.50M"%string.
Proof.
  apply (proj1 (proj2 (proj2
           (formatMarketCap_buckets (fun _ _ => "1.50"%string)
              (of_Z 1500000))))); vm_compute; reflexivity.
Defined.

(** X21: the number of decimals [formatPrice] prints follows the size of
    the price, each bound included in the bucket above it: two from 1 on,
    four from 0.01, six from 0.0001.  A price below 0.0001, so also zero
    and a negative price, and NaN are printed by [toExponential] with two
    fraction digits, as is 0.00001234. *)
Theorem formatPrice_buckets (toFixed toExponential : number -> Z -> string)
  (price : number) :
  (geb price (of_Z 1) = true ->
   formatPrice toFixed toExponential price = toFixed price 2)
  /\ (geb price (hundredths 1) = true -> ltb price (of_Z 1) = true ->
      formatPrice toFixed toExponential price = toFixed price 4)
  /\ (geb price (ten_thousandths 1) = true ->
      ltb price (hundredths 1) = true ->
      formatPrice toFixed toExponential price = toFixed price 6)
  /\ (ltb price (ten_thousandths 1) = true \/ price = NaN ->
      formatPrice toFixed toExponential price = toExponential price 2)
  /\ formatPrice toFixed toExponential (div (of_Z 1234) (of_Z (10 ^ 8)))
     = toExponential (div (of_Z 1234) (of_Z (10 ^ 8))) 2.
Proof.
  unfold formatPrice.
  assert (H42 : leb (ten_thousandths 1) (hundredths 1) = true)
    by (vm_compute; reflexivity).
  assert (H20 : leb (hundredths 1) (of_Z 1) = true)
    by (vm_compute; reflexivity).
  assert (R4 : leb (ten_thousandths 1) (ten_thousandths 1) = true)
    by (vm_compute; reflexivity).
  assert (R2 : leb (hundredths 1) (hundredths 1) = true)
    by (vm_compute; reflexivity).
  assert (R0 : leb (of_Z 1) (of_Z 1) = true) by (vm_compute; reflexivity).
  pose proof (leb_trans _ _ _ H42 H20) as H40.
  repeat split.
  - intros ->. reflexivity.
  - intros H2 L0. rewrite (ltb_not_geb _ _ _ L0 R0), H2. reflexivity.
  - intros H4 L2.
    rewrite (ltb_not_geb _ _ _ L2 H20), (ltb_not_geb _ _ _ L2 R2), H4.
    reflexivity.
  - intros [L4 | ->].
    + rewrite (ltb_not_geb _ _ _ L4 H40), (ltb_not_geb _ _ _ L4 H42),
        (ltb_not_geb _ _ _ L4 R4).
      reflexivity.
    + rewrite !nan_not_geb. reflexivity.
Qed.

Lemma formatPrice_buckets_witness :
  formatPrice (fun _ _ => "f"%string) (fun _ _ => "e"%string) (of_Z 0)
  = "e"%string.
Proof.
  apply (proj1 (proj2 (proj2 (proj2
           (formatPrice_buckets (fun _ _ => "f"%string)
              (fun _ _ => "e"%string) (of_Z 0)))))).
  left. vm_compute. reflexivity.
Defined.

(** ** The summary *)

(** [Math.round] of a positive number below 0.5 is 0. *)
Lemma Math_round_small (w : number) :
  normal w -> expo w <= -54 -> Math_round w = of_Z 0.
Proof.
  intros (m & e & -> & Hm & He) Hw. cbn [expo] in Hw.
  unfold Math_round. cbn [cond_Zopp].
  replace (0 <=? e) with false by (symmetry; apply Z.leb_gt; lia).
  rewrite Z.shiftl_mul_pow2, Z.shiftr_div_pow2, Z.mul_1_l by lia.
  assert (E : (2 * Z.pos m + 2 ^ (- e)) / 2 ^ (1 - e) = 0).
  { apply Z.div_small.
    assert (P : 2 ^ 54 <= 2 ^ (- e)) by (apply Z.pow_le_mono_r; lia).
    replace (1 - e) with (1 + - e) by lia.
    rewrite (Z.pow_add_r 2 1) by lia. change (2 ^ 1) with 2. lia. }
  rewrite E. reflexivity.
Qed.

Lemma round_units_whole (k : Z) : round_units (k * 2 ^ scale) = k.
Proof.
  unfold round_units. pose proof pow2_scale_pos as PK.
  rewrite (Z.pow_add_r 2 scale 1) by (unfold scale; lia).
  change (2 ^ 1) with 2.
  replace (2 * (k * 2 ^ scale) + 2 ^ scale)
    with (2 ^ scale + k * (2 ^ scale * 2)) by ring.
  rewrite Z.div_add by lia. rewrite Z.div_small; lia.
Qed.

(** The percentage of a ratio between 0 and 1 is a whole number between 0
    and 100, and at least 50 for a ratio of at least 0.5. *)
Lemma percent_of_ratio (r : number) :
  normal r -> units r <= units (of_Z 1) ->
  exists k, 0 <= k <= 100 /\ Math_round (mul r (of_Z 100)) = of_Z k
            /\ (units (tenths 5) <= units r -> 50 <= k).
Proof.
  intros Gr Ur. rewrite units_one in Ur.
  pose proof pow2_scale_pos as PK.
  pose proof (pow2_pos (scale - 1) ltac:(unfold scale; lia)) as PH.
  destruct (of_Z_spec 100 ltac:(lia)) as [G100 V100].
  destruct (of_Z_spec 50 ltac:(lia)) as [G50 V50].
  assert (E100 : expo (of_Z 100) = -46) by (vm_compute; reflexivity).
  assert (Er1 : -1074 <= expo r).
  { destruct Gr as (m & e & -> & _ & He). cbn [expo]. lia. }
  assert (Er2 : expo r <= -52).
  { assert (expo r <= 1 - 53); [ | lia].
    apply normal_expo_upper; [exact Gr | unfold scale; lia | ].
    apply Z.le_lt_trans with (1 := Ur).
    apply Z.pow_lt_mono_r; unfold scale; lia. }
  destruct (mul_spec r (of_Z 100) Gr G100 ltac:(lia)) as (Gw & Rw & Xw).
  set (w := mul r (of_Z 100)) in *.
  assert (E2 : 2 ^ scale = 2 * 2 ^ (scale - 1)).
  { replace scale with ((scale - 1) + 1) at 1 by lia.
    rewrite Z.pow_add_r by (unfold scale; lia). lia. }
  assert (Uw : units w <= 100 * 2 ^ scale).
  { rewrite <- V100.
    apply (rounding_mono PK Z.lt_0_1 Rw (rounding_self _ G100)).
    rewrite V100.
    assert (units r * 2 ^ scale <= 2 ^ scale * 2 ^ scale)
      by (apply Z.mul_le_mono_nonneg_r; lia).
    lia. }
  assert (Lw : units (tenths 5) <= units r -> 50 * 2 ^ scale <= units w).
  { intros Lr. rewrite units_half in Lr. rewrite <- V50.
    apply (rounding_mono Z.lt_0_1 PK (rounding_self _ G50) Rw).
    rewrite V50, V100, E2.
    assert (2 ^ (scale - 1) * 2 ^ (scale - 1)
            <= units r * 2 ^ (scale - 1))
      by (apply Z.mul_le_mono_nonneg_r; lia).
    lia. }
  destruct (Z_le_gt_dec (expo w) (-54)) as [Hsmall | Hlarge].
  - exists 0. split; [lia | split; [apply Math_round_small; assumption | ]].
    intros Lr. specialize (Lw Lr). exfalso.
    assert (5 - 52 <= expo w); [ | lia].
    apply normal_expo_lower; [exact Gw | unfold scale; lia | ].
    rewrite Z.pow_add_r by (unfold scale; lia). lia.
  - destruct (Math_round_of_Z w Gw ltac:(lia)) as [Hk Ek].
    exists (round_units (units w)).
    pose proof (round_units_mono _ _ Uw) as Hu.
    rewrite round_units_whole in Hu.
    split; [lia | split; [exact Ek | ]].
    intros Lr. specialize (Lw Lr).
    pose proof (round_units_mono _ _ Lw) as Hl.
    rewrite round_units_whole in Hl. exact Hl.
Qed.

(** X22: for whole numbers of buys and sells the summary shows a whole
    percentage of buys between 0 and 100: the string of that number followed
    by ["% buys"].  It is 50 when there is no transaction and at least 50
    when the buys are no fewer than the sells. *)
Theorem getMarketSummary_buys_percent
  (toFixed toExponential : number -> Z -> string)
  (Number_toString : number -> string)
  (market : Market.MarketData) (b s : Z) :
  buys (Market.transactions market) = of_Z b ->
  sells (Market.transactions market) = of_Z s ->
  0 <= b < 2 ^ 53 -> 0 <= s < 2 ^ 53 ->
  exists k,
    0 <= k <= 100
    /\ Summary.buySellRatio
         (getMarketSummary toFixed toExponential Number_toString market)
       = (Number_toString (of_Z k) ++ "% buys")%string
    /\ (b = 0 -> s = 0 -> k = 50)
    /\ (s <= b -> 50 <= k).
Proof.
  intros Eb Es Hb Hs. unfold getMarketSummary. cbn [Summary.buySellRatio].
  unfold getBuySellRatio. rewrite Eb, Es.
  destruct (Z.eq_dec b 0) as [-> | Hb0].
  - destruct (Z.eq_dec s 0) as [-> | Hs0].
    + exists 50. split; [lia | split; [reflexivity | split; intros; lia]].
    + destruct (of_Z_spec s ltac:(lia)) as [Gs Vs].
      assert (E : add (of_Z 0) (of_Z s) = of_Z s).
      { destruct Gs as (m & e & -> & _). reflexivity. }
      rewrite E, (normal_not_zero _ Gs).
      assert (E0 : div (of_Z 0) (of_Z s) = of_Z 0).
      { destruct Gs as (m & e & -> & _). reflexivity. }
      rewrite E0.
      exists 0. split; [lia | split; [reflexivity | split; intros; lia]].
  - destruct (ratio_of_counts b s ltac:(lia) Hs) as (Gt & GR & U1 & L5).
    rewrite (normal_not_zero _ Gt).
    destruct (percent_of_ratio _ GR U1) as (k & Hk & Ek & Lk).
    exists k. split; [exact Hk | split; [rewrite Ek; reflexivity | ]].
    split; [intros; lia | ].
    intros Hsb. apply Lk, L5. exact Hsb.
Qed.

Lemma getMarketSummary_buys_percent_witness :
  let market :=
    Market.mkMarketData (of_Z 1) (mkWindows (of_Z 0) (of_Z 0) (of_Z 0) (of_Z 0))
      (mkWindows (of_Z 0) (of_Z 0) (of_Z 0) (of_Z 0))
      (mkTransactions (of_Z 2) (of_Z 1)) (of_Z 1000) None None in
  exists k,
    0 <= k <= 100
    /\ Summary.buySellRatio
         (getMarketSummary (fun _ _ => ""%string) (fun _ _ => ""%string)
            (fun _ => "n"%string) market)
       = ("n" ++ "% buys")%string
    /\ (2 = 0 -> 1 = 0 -> k = 50)
    /\ (1 <= 2 -> 50 <= k).
Proof.
  intros market.
  apply (getMarketSummary_buys_percent (fun _ _ => ""%string)
           (fun _ _ => ""%string) (fun _ => "n"%string) market 2 1);
    try reflexivity; lia.
Defined.

(** X23: [getMarketSummary] reads the price, the four price changes, the
    volume of the last 24 hours, the transactions and the liquidity: two
    markets that agree on these have the same summary, whatever their
    market caps, their fully diluted values and their other volumes; and
    its momentum is the one [getMomentum] finds. *)
Theorem getMarketSummary_reads
  (toFixed toExponential : number -> Z -> string)
  (Number_toString : number -> string)
  (m1 m2 : Market.MarketData) :
  Market.price m1 = Market.price m2 ->
  Market.priceChange m1 = Market.priceChange m2 ->
  h24 (Market.volume m1) = h24 (Market.volume m2) ->
  Market.transactions m1 = Market.transactions m2 ->
  Market.liquidity m1 = Market.liquidity m2 ->
  getMarketSummary toFixed toExponential Number_toString m1
  = getMarketSummary toFixed toExponential Number_toString m2
  /\ (Summary.momentum
        (getMarketSummary toFixed toExponential Number_toString m1)
      = "bullish"%string <-> getMomentum m1 = bullish)
  /\ (Summary.momentum
        (getMarketSummary toFixed toExponential Number_toString m1)
      = "bearish"%string <-> getMomentum m1 = bearish).
Proof.
  intros Hp Hc Hv Ht Hl. split; [ | split].
  - unfold getMarketSummary, getMomentum, getBuySellRatio.
    rewrite Hp, Hc, Hv, Ht, Hl. reflexivity.
  - cbn [getMarketSummary Summary.momentum].
    destruct (getMomentum m1); simpl; split; congruence.
  - cbn [getMarketSummary Summary.momentum].
    destruct (getMomentum m1); simpl; split; congruence.
Qed.

Lemma getMarketSummary_reads_witness :
  let m1 :=
    Market.mkMarketData (of_Z 1) (mkWindows (of_Z 0) (of_Z 0) (of_Z 0) (of_Z 0))
      (mkWindows (of_Z 5) (of_Z 6) (of_Z 7) (of_Z 8))
      (mkTransactions (of_Z 2) (of_Z 1)) (of_Z 1000) None None in
  let m2 :=
    Market.mkMarketData (of_Z 1) (mkWindows (of_Z 0) (of_Z 0) (of_Z 0) (of_Z 0))
      (mkWindows (of_Z 1) (of_Z 2) (of_Z 3) (of_Z 8))
      (mkTransactions (of_Z 2) (of_Z 1)) (of_Z 1000) (Some (of_Z 9))
      (Some (of_Z 10)) in
  getMarketSummary (fun _ _ => ""%string) (fun _ _ => ""%string)
    (fun _ => ""%string) m1
  = getMarketSummary (fun _ _ => ""%string) (fun _ _ => ""%string)
      (fun _ => ""%string) m2.
Proof.
  intros m1 m2.
  apply (proj1 (getMarketSummary_reads (fun _ _ => ""%string)
                  (fun _ _ => ""%string) (fun _ => ""%string) m1 m2
                  eq_refl eq_refl eq_refl eq_refl eq_refl)).
Defined.

(** ** Heavier signals *)

(** One turn of the loop on two states, the second no smaller, with
    signals the second of which scores no less. *)
Lemma score_step_mono (k : Z) (acc1 acc2 : number * number) (x y : Signal) :
  ordinary_signal x -> ordinary_signal y ->
  1 <= k -> k + 1 < 2 ^ 32 ->
  loop_inv k acc1 -> loop_inv k acc2 ->
  units (fst acc1) <= units (fst acc2) ->
  units (snd acc1) <= units (snd acc2) ->
  units (signalScore x) <= units (signalScore y) ->
  units (fst (score_step acc1 x)) <= units (fst (score_step acc2 y))
  /\ units (snd (score_step acc1 x)) <= units (snd (score_step acc2 y)).
Proof.
  intros Hx Hy Hk1 Hk2 [GT1 LT1 UT1 HM1] [GT2 LT2 UT2 HM2] HT HM Hxy.
  destruct acc1 as [T1 M1], acc2 as [T2 M2]. cbn [fst snd] in *.
  pose proof (signalScore_ok x Hx) as [Gx Ux Lx Ex].
  pose proof (signalScore_ok y Hy) as [Gy Uy Ly Ey].
  pose proof pow2_scale_pos as PK.
  assert (ET : forall T, normal T -> units T <= 15 * k * 2 ^ scale ->
                         expo T <= 969).
  { intros T GT UT. assert (expo T <= 36 - 53); [ | lia].
    apply normal_expo_upper; [exact GT | unfold scale; lia | ].
    rewrite Z.pow_add_r by (unfold scale; lia). nia. }
  destruct (add_spec T1 (signalScore x) GT1 Gx (ET _ GT1 UT1) ltac:(lia))
    as (_ & RA1 & _).
  destruct (add_spec T2 (signalScore y) GT2 Gy (ET _ GT2 UT2) ltac:(lia))
    as (_ & RA2 & _).
  destruct (Math_max_normal M1 (signalScore x) (ok_normal _ HM1) Gx)
    as [_ V1].
  destruct (Math_max_normal M2 (signalScore y) (ok_normal _ HM2) Gy)
    as [_ V2].
  unfold score_step. cbn [fst snd]. split.
  - apply (rounding_mono Z.lt_0_1 Z.lt_0_1 RA1 RA2). lia.
  - lia.
Qed.

Lemma score_loop_mono (xs ys : list Signal) :
  Forall2 (fun x y => ordinary_signal x /\ ordinary_signal y
                      /\ units (signalScore x) <= units (signalScore y))
    xs ys ->
  forall (k : Z) (acc1 acc2 : number * number),
    1 <= k -> k + Z.of_nat (List.length xs) < 2 ^ 32 ->
    loop_inv k acc1 -> loop_inv k acc2 ->
    units (fst acc1) <= units (fst acc2) ->
    units (snd acc1) <= units (snd acc2) ->
    units (fst (fold_left score_step xs acc1))
    <= units (fst (fold_left score_step ys acc2))
    /\ units (snd (fold_left score_step xs acc1))
       <= units (snd (fold_left score_step ys acc2)).
Proof.
  intros H. induction H as [ | x y xs ys (Hx & Hy & Hxy) H IH];
    intros k acc1 acc2 Hk1 Hk2 I1 I2 HT HM.
  - cbn [fold_left]. split; assumption.
  - cbn [fold_left]. cbn [List.length] in Hk2. rewrite Nat2Z.inj_succ in Hk2.
    destruct (score_step_mono k acc1 acc2 x y Hx Hy Hk1 ltac:(lia) I1 I2 HT HM
                Hxy) as [HT' HM'].
    apply (IH (k + 1)); try lia; try assumption;
      apply loop_inv_step; try lia; assumption.
Qed.

(** For a type, a heavier severity scores no less; and so for a severity
    and a larger factor. *)
Lemma signalScore_mono (x y : Signal) :
  ordinary_signal x -> ordinary_signal y ->
  weight_or_1 (severity x) <= weight_or_1 (severity y) ->
  factor_tenths (type x) <= factor_tenths (type y) ->
  units (signalScore x) <= units (signalScore y).
Proof.
  intros Hx Hy Hw Hf.
  apply normal_leb_iff;
    [apply signalScore_ok, Hx | apply signalScore_ok, Hy | ].
  rewrite (signalScore_ordinary x Hx), (signalScore_ordinary y Hy).
  clear Hx Hy.
  destruct x as [i1 t1 s1 ti1 su1 de1 ts1 me1].
  destruct y as [i2 t2 s2 ti2 su2 de2 ts2 me2].
  cbn [type severity] in *.
  destruct s1 as [[ | | | | ] | r1], s2 as [[ | | | | ] | r2];
    cbn [weight_or_1] in Hw; try lia;
    destruct t1 as [[ | | | | | | | | ] | q1], t2 as [[ | | | | | | | | ] | q2];
    cbn [factor_tenths] in Hf; try lia; vm_compute; reflexivity.
Qed.

(** X24: heavier signals never lower the score.  For two arrays of
    signals whose types and severities are ordinary: when the signals of
    one are, one by one, of a severity that weighs no less and of a type
    whose factor is no smaller than those of the other, its score is no
    smaller; so raising the severity of a signal never lowers the score. *)
Theorem calculateRiskScore_monotone (xs ys : list Signal) :
  is_array xs ->
  Forall ordinary_signal xs -> Forall ordinary_signal ys ->
  Forall2 (fun x y =>
             weight_or_1 (severity x) <= weight_or_1 (severity y)
             /\ factor_tenths (type x) <= factor_tenths (type y)) xs ys ->
  leb (calculateRiskScore xs) (calculateRiskScore ys) = true.
Proof.
  intros Hlen Hordx Hordy H. unfold is_array in Hlen.
  assert (Hlen2 : List.length ys = List.length xs)
    by (symmetry; apply (Forall2_length H)).
  assert (H' : Forall2 (fun x y => ordinary_signal x /\ ordinary_signal y
                                   /\ units (signalScore x)
                                      <= units (signalScore y)) xs ys).
  { clear Hlen Hlen2.
    induction H as [ | x y xs' ys' [Hw Hf] H IH]; constructor.
    - inversion Hordx; subst. inversion Hordy; subst.
      split; [assumption | split; [assumption | ]].
      apply signalScore_mono; assumption.
    - inversion Hordx; subst. inversion Hordy; subst.
      apply IH; assumption. }
  destruct H' as [ | x y xs' ys' (Hx & Hy & Hxy) H']; [reflexivity | ].
  assert (Hne1 : x :: xs' <> []) by discriminate.
  assert (Hne2 : y :: ys' <> []) by discriminate.
  assert (Hleny : Z.of_nat (List.length (y :: ys')) < 2 ^ 32)
    by (rewrite Hlen2; exact Hlen).
  destruct (calculateRiskScore_normal _ Hordx Hne1 Hlen) as [G1 _].
  destruct (calculateRiskScore_normal _ Hordy Hne2 Hleny) as [G2 _].
  apply normal_leb_iff; [exact G1 | exact G2 | ].
  rewrite (calculateRiskScore_combine _ Hne1),
    (calculateRiskScore_combine _ Hne2).
  pose proof (score_loop_inv _ Hordx Hne1 Hlen) as I1.
  pose proof (score_loop_inv _ Hordy Hne2 Hleny) as I2.
  rewrite Hlen2 in *.
  set (n := Z.of_nat (List.length (x :: xs'))) in *.
  assert (Hn : 1 <= n) by (unfold n; cbn [List.length]; lia).
  assert (Hmono : units (fst (score_loop (x :: xs')))
                  <= units (fst (score_loop (y :: ys')))
                  /\ units (snd (score_loop (x :: xs')))
                     <= units (snd (score_loop (y :: ys')))).
  { unfold score_loop. cbn [fold_left].
    apply (score_loop_mono xs' ys' H' 1); try lia.
    - unfold n in Hlen. cbn [List.length] in Hlen. lia.
    - apply loop_inv_first, Hx.
    - apply loop_inv_first, Hy.
    - rewrite (score_step_first x Hx), (score_step_first y Hy). exact Hxy.
    - rewrite (score_step_first x Hx), (score_step_first y Hy). exact Hxy. }
  destruct Hmono as [HT HM].
  destruct I1 as [GT1 LT1 UT1 HM1], I2 as [GT2 LT2 UT2 HM2].
  destruct (average_spec _ _ GT1 (conj LT1 UT1) (conj Hn Hlen))
    as (GA1 & RA1 & EA1).
  destruct (average_spec _ _ GT2 (conj LT2 UT2) (conj Hn Hlen))
    as (GA2 & RA2 & EA2).
  pose proof pow2_scale_pos as PK.
  assert (HB : 0 < n * 2 ^ scale) by nia.
  apply (combine_mono GA1 (ok_normal _ HM1) EA1 (ok_expo _ HM1)
           GA2 (ok_normal _ HM2) EA2 (ok_expo _ HM2)).
  - apply (rounding_mono HB HB RA1 RA2).
    apply Z.mul_le_mono_nonneg_r; [lia | ].
    apply Z.mul_le_mono_nonneg_r; lia.
  - exact HM.
Qed.

Lemma calculateRiskScore_monotone_witness :
  leb (calculateRiskScore [sig "a" whale_movement low;
                           sig "b" social_sentiment medium])
      (calculateRiskScore [sig "a" whale_movement critical;
                           sig "b" social_sentiment medium]) = true.
Proof.
  apply (calculateRiskScore_monotone
           [sig "a" whale_movement low; sig "b" social_sentiment medium]
           [sig "a" whale_movement critical;
            sig "b" social_sentiment medium]).
  - vm_compute. reflexivity.
  - repeat constructor.
  - repeat constructor.
  - repeat constructor; simpl; lia.
Defined.

(** ** Momentum on whole numbers *)

(** A normal number is determined by its value. *)
Lemma normal_units_inj (x y : number) :
  normal x -> normal y -> units x = units y -> x = y.
Proof.
  intros (m & e & -> & Hm & He) (m' & e' & -> & Hm' & He'). cbn [units].
  intros H.
  assert (Horder : forall a ea b eb,
             2 ^ 52 <= a < 2 ^ 53 -> 2 ^ 52 <= b < 2 ^ 53 ->
             -1074 <= ea -> ea < eb ->
             a * 2 ^ (ea + scale) < b * 2 ^ (eb + scale)).
  { intros a ea b eb Ha Hb Hea Hlt.
    pose proof (pow2_pos (ea + scale) ltac:(unfold scale; lia)) as P.
    assert (2 * 2 ^ (ea + scale) <= 2 ^ (eb + scale))
      by (apply pow2_double; unfold scale; lia).
    nia. }
  destruct (Z.lt_trichotomy e e') as [Hlt | [Heq | Hgt]].
  - pose proof (Horder _ _ _ _ Hm Hm' (proj1 He) Hlt). lia.
  - subst e'.
    pose proof (pow2_pos (e + scale) ltac:(unfold scale; lia)) as P.
    assert (Z.pos m = Z.pos m') by nia.
    congruence.
  - pose proof (Horder _ _ _ _ Hm' Hm (proj1 He') Hgt). lia.
Qed.

(** Rounding a mantissa of any length that stands for a whole number below
    2^53: nothing is lost. *)
Lemma binary_round_whole (m : positive) (e k : Z) :
  -52 <= e <= 0 -> 0 < k < 2 ^ 53 -> Zpos m = k * 2 ^ (- e) ->
  binary_round prec emax false m e = of_Z k.
Proof.
  intros He Hk Hm.
  destruct (of_Z_spec k Hk) as [Gk Vk].
  pose proof pow2_scale_pos as PK.
  pose proof (pow2_pos (- e) ltac:(lia)) as Pe.
  assert (EK : 2 ^ scale = 2 ^ (- e) * 2 ^ (e + scale)).
  { rewrite <- Z.pow_add_r by (unfold scale; lia). f_equal; lia. }
  assert (G : normal (binary_round prec emax false m e)
              /\ units (binary_round prec emax false m e) = k * 2 ^ scale).
  { unfold binary_round.
    pose proof (digits2_pos_bounds m) as Hd.
    set (d := Zpos (digits2_pos m)) in *.
    assert (Hd1 : 1 <= d) by (unfold d; lia).
    assert (Hd2 : d <= 53 - e).
    { apply digits_le; [lia | ]. rewrite Hm.
      replace (53 - e) with (53 + - e) by lia.
      rewrite Z.pow_add_r by lia. nia. }
    rewrite fexp_normal by lia.
    destruct (Z_le_gt_dec d 53) as [Hsmall | Hlarge].
    - destruct (shl_align_spec m e (d + e - 53) ltac:(lia)) as [Sm Se].
      destruct (shl_align m e (d + e - 53)) as [mz ez]. cbn [fst snd] in Sm, Se.
      subst ez. replace (e - (d + e - 53)) with (53 - d) in Sm by lia.
      assert (Hmz : 2 ^ 52 <= Zpos mz < 2 ^ 53).
      { rewrite Sm.
        assert (E52 : 2 ^ 52 = 2 ^ (d - 1) * 2 ^ (53 - d))
          by (rewrite <- Z.pow_add_r by lia; f_equal; lia).
        assert (E53 : 2 ^ 53 = 2 ^ d * 2 ^ (53 - d))
          by (rewrite <- Z.pow_add_r by lia; f_equal; lia).
        rewrite E52, E53.
        pose proof (pow2_pos (53 - d) ltac:(lia)). nia. }
      pose proof (digits_53 mz Hmz) as Hdz.
      destruct (binary_round_aux_rounding mz (d + e - 53) loc_Exact
                  (Zpos mz) 1 (k * 2 ^ scale) 1) as (G & R & _);
        rewrite ?Hdz; try lia.
      + unfold located. cbn [shr_record_of_loc shr_m shr_r shr_s]. lia.
      + replace (53 - 53) with 0 by lia. rewrite Z.pow_0_r, Sm, Hm, EK.
        replace (d + e - 53 + 0 + scale) with ((d - 53) + (e + scale)) by lia.
        replace (e + scale) with ((53 - d) + ((d - 53) + (e + scale))) at 1
          by lia.
        rewrite (Z.pow_add_r 2 (53 - d)) by (unfold scale; lia). ring.
      + split; [exact G | ].
        pose proof (rounding_mono Z.lt_0_1 Z.lt_0_1 R (rounding_self _ Gk)).
        pose proof (rounding_mono Z.lt_0_1 Z.lt_0_1 (rounding_self _ Gk) R).
        lia.
    - rewrite shl_align_id by lia.
      destruct (binary_round_aux_rounding m e loc_Exact
                  (Zpos m) 1 (k * 2 ^ scale) 1) as (G & R & _);
        fold d; try lia.
      + unfold located. cbn [shr_record_of_loc shr_m shr_r shr_s]. lia.
      + rewrite Hm, EK.
        replace (e + (d - 53) + scale) with ((e + scale) + (d - 53)) by lia.
        rewrite (Z.pow_add_r 2 (e + scale)) by (unfold scale; lia). ring.
      + split; [exact G | ].
        pose proof (rounding_mono Z.lt_0_1 Z.lt_0_1 R (rounding_self _ Gk)).
        pose proof (rounding_mono Z.lt_0_1 Z.lt_0_1 (rounding_self _ Gk) R).
        lia. }
  destruct G as [G V].
  apply normal_units_inj; [exact G | exact Gk | lia].
Qed.

(** The sign is put on after rounding. *)
Lemma binary_round_aux_opp (m e : Z) (l : location) :
  binary_round_aux prec emax true m e l
  = SFopp (binary_round_aux prec emax false m e l).
Proof.
  unfold binary_round_aux.
  destruct (shr_fexp prec emax m e l) as [mrs1 e1].
  destruct (shr_fexp prec emax
              (round_nearest_even (shr_m mrs1) (loc_of_shr_record mrs1)) e1
              loc_Exact) as [mrs2 e2].
  destruct (shr_m mrs2) as [ | p | p]; [reflexivity | | reflexivity].
  destruct (e2 <=? emax - prec); reflexivity.
Qed.

Lemma binary_round_opp (m : positive) (e : Z) :
  binary_round prec emax true m e = SFopp (binary_round prec emax false m e).
Proof.
  unfold binary_round.
  destruct (shl_align m e (fexp prec emax (Z.pos (digits2_pos m) + e)))
    as [mz ez].
  apply binary_round_aux_opp.
Qed.

Lemma of_Z_opp (k : Z) : 0 < k -> of_Z (- k) = SFopp (of_Z k).
Proof.
  intros Hk. destruct k as [ | p | p]; try lia.
  unfold of_Z. cbn [Z.opp binary_normalize]. apply binary_round_opp.
Qed.

(** A whole number as a binary64 number: mantissa and exponent. *)
Lemma of_Z_form (k : Z) :
  0 < k < 2 ^ 53 ->
  exists m e, of_Z k = S754_finite false m e /\ -52 <= e <= 0
              /\ Zpos m = k * 2 ^ (- e).
Proof.
  intros Hk. destruct (of_Z_spec k Hk) as [G V].
  pose proof (expo_of_Z k Hk) as E.
  destruct G as (m & e & Em & Hm & He). rewrite Em in *.
  cbn [expo units] in *. exists m, e.
  split; [reflexivity | split; [exact E | ]].
  pose proof (pow2_pos (e + scale) ltac:(unfold scale; lia)) as P.
  assert (EK : 2 ^ scale = 2 ^ (- e) * 2 ^ (e + scale)).
  { rewrite <- Z.pow_add_r by (unfold scale; lia). f_equal; lia. }
  rewrite EK in V. nia.
Qed.

(** The sum of two whole numbers, of any signs, is exact. *)
Lemma add_of_Z_magnitudes (sx sy : bool) (p q : Z) (mx my : positive)
  (ex ey : Z) :
  0 < p < 2 ^ 52 -> 0 < q < 2 ^ 52 ->
  -52 <= ex <= 0 -> Zpos mx = p * 2 ^ (- ex) ->
  -52 <= ey <= 0 -> Zpos my = q * 2 ^ (- ey) ->
  add (S754_finite sx mx ex) (S754_finite sy my ey)
  = of_Z (cond_Zopp sx p + cond_Zopp sy q).
Proof.
  intros Hp Hq Hex Hmx Hey Hmy. unfold add. cbn [SFadd].
  change (IntDef.Z.min ex ey) with (Z.min ex ey).
  set (ez := Z.min ex ey).
  destruct (shl_align_spec mx ex ez ltac:(unfold ez; lia)) as [Sx _].
  destruct (shl_align_spec my ey ez ltac:(unfold ez; lia)) as [Sy _].
  set (ax := fst (shl_align mx ex ez)) in *.
  set (ay := fst (shl_align my ey ez)) in *.
  assert (Hez : -52 <= ez <= 0) by (unfold ez; lia).
  pose proof (pow2_pos (- ez) ltac:(lia)) as Pz.
  assert (Ax : Zpos ax = p * 2 ^ (- ez)).
  { rewrite Sx, Hmx, <- Z.mul_assoc, <- Z.pow_add_r by (unfold ez; lia).
    do 2 f_equal. lia. }
  assert (Ay : Zpos ay = q * 2 ^ (- ez)).
  { rewrite Sy, Hmy, <- Z.mul_assoc, <- Z.pow_add_r by (unfold ez; lia).
    do 2 f_equal. lia. }
  set (S := cond_Zopp sx p + cond_Zopp sy q).
  assert (HM : cond_Zopp sx (Zpos ax) + cond_Zopp sy (Zpos ay)
               = S * 2 ^ (- ez)).
  { unfold S. rewrite Ax, Ay. destruct sx, sy; cbn [cond_Zopp]; ring. }
  rewrite HM.
  assert (HS : - 2 ^ 53 < S < 2 ^ 53)
    by (unfold S; destruct sx, sy; cbn [cond_Zopp]; lia).
  destruct (Z.lt_trichotomy S 0) as [Hneg | [Hzero | Hpos]].
  - destruct (S * 2 ^ (- ez)) as [ | mm | mm] eqn:E; try nia.
    cbn [binary_normalize]. rewrite binary_round_opp.
    rewrite (binary_round_whole mm ez (- S)) by (try lia; nia).
    rewrite <- of_Z_opp by lia. f_equal. lia.
  - rewrite Hzero. reflexivity.
  - destruct (S * 2 ^ (- ez)) as [ | mm | mm] eqn:E; try nia.
    cbn [binary_normalize].
    apply binary_round_whole; lia.
Qed.

Lemma add_of_Z (a b : Z) :
  - 2 ^ 52 < a < 2 ^ 52 -> - 2 ^ 52 < b < 2 ^ 52 ->
  add (of_Z a) (of_Z b) = of_Z (a + b).
Proof.
  intros Ha Hb.
  assert (Hform : forall k, - 2 ^ 52 < k < 2 ^ 52 -> k <> 0 ->
             exists s p m e,
               of_Z k = S754_finite s m e /\ k = cond_Zopp s p
               /\ 0 < p < 2 ^ 52 /\ -52 <= e <= 0
               /\ Zpos m = p * 2 ^ (- e)).
  { intros k Hk Hk0. destruct (Z_lt_le_dec k 0) as [Hn | Hp].
    - destruct (of_Z_form (- k) ltac:(lia)) as (m & e & E & He & Hm).
      exists true, (- k), m, e.
      replace k with (- - k) at 1 by lia.
      rewrite of_Z_opp by lia. rewrite E. cbn [SFopp negb cond_Zopp].
      repeat split; lia.
    - destruct (of_Z_form k ltac:(lia)) as (m & e & E & He & Hm).
      exists false, k, m, e. cbn [cond_Zopp]. repeat split; try lia.
      exact E. }
  destruct (Z.eq_dec a 0) as [-> | Ha0].
  - destruct (Z.eq_dec b 0) as [-> | Hb0]; [reflexivity | ].
    rewrite Z.add_0_l.
    destruct (Hform b Hb Hb0) as (s & p & m & e & -> & _). reflexivity.
  - destruct (Hform a Ha Ha0)
      as (sa & pa & ma & ea & Ea & Va & Hpa & Hea & Hma).
    destruct (Z.eq_dec b 0) as [-> | Hb0].
    + rewrite Z.add_0_r, Ea. reflexivity.
    + destruct (Hform b Hb Hb0)
        as (sb & pb & mb & eb & Eb & Vb & Hpb & Heb & Hmb).
      rewrite Ea, Eb, Va, Vb.
      apply add_of_Z_magnitudes; assumption.
Qed.

(** A quarter of a whole number, as the division computes it. *)
Lemma quarter_of_Z (k : Z) :
  0 < k < 2 ^ 53 ->
  normal (div (of_Z k) (of_Z 4))
  /\ 4 * units (div (of_Z k) (of_Z 4)) = k * 2 ^ scale.
Proof.
  intros Hk. pose proof pow2_scale_pos as PK.
  destruct (of_Z_spec k Hk) as [Gk Vk].
  destruct (of_Z_spec 4 ltac:(lia)) as [G4 V4].
  pose proof (expo_of_Z k Hk). pose proof (expo_of_Z 4 ltac:(lia)).
  destruct (div_spec (of_Z k) (of_Z 4) Gk G4 ltac:(lia)) as (GR & RR & _).
  destruct (quarter_normal k Hk) as (y & Gy & Vy).
  split; [exact GR | ].
  pose proof (normal_units_pos _ G4) as P4.
  assert (E : units y * units (of_Z 4) = units (of_Z k) * 2 ^ scale * 1).
  { rewrite V4, Vk.
    replace (units y * (4 * 2 ^ scale)) with (4 * units y * 2 ^ scale)
      by ring.
    rewrite Vy. ring. }
  pose proof (rounding_mono Z.lt_0_1 P4 (rounding_self _ Gy) RR) as H1.
  pose proof (rounding_mono P4 Z.lt_0_1 RR (rounding_self _ Gy)) as H2.
  specialize (H1 ltac:(lia)). specialize (H2 ltac:(lia)). lia.
Qed.

Lemma div_opp_l (x y : number) :
  normal x -> normal y -> div (SFopp x) y = SFopp (div x y).
Proof.
  intros (mx & ex & -> & _) (my & ey & -> & _).
  unfold div. cbn [SFopp SFdiv negb xorb].
  destruct (SFdiv_core_binary prec emax (Z.pos mx) ex (Z.pos my) ey)
    as [[mz ez] lz].
  apply binary_round_aux_opp.
Qed.

Lemma SFcompare_opp (x y : number) :
  normal x -> normal y ->
  SFcompare (SFopp x) (SFopp y) = SFcompare y x.
Proof.
  intros (mx & ex & -> & _) (my & ey & -> & _).
  rewrite (SFcompare_swap (S754_finite false mx ex)).
  cbn [SFopp negb SFcompare option_map].
  destruct (ex ?= ey); reflexivity.
Qed.

Lemma ltb_opp (x y : number) :
  normal x -> normal y -> ltb (SFopp x) (SFopp y) = ltb y x.
Proof.
  intros Hx Hy. unfold ltb, SFltb. rewrite (SFcompare_opp x y Hx Hy).
  reflexivity.
Qed.

(** The mean of four whole numbers against 5 and -5. *)
Lemma mean_of_four (S : Z) :
  - 2 ^ 53 < S < 2 ^ 53 ->
  gtb (div (of_Z S) (of_Z 4)) (of_Z 5) = (20 <? S)
  /\ ltb (div (of_Z S) (of_Z 4)) (of_Z (-5)) = (S <? -20).
Proof.
  intros HS. pose proof pow2_scale_pos as PK.
  assert (G5 : normal (of_Z 5)) by (apply normal_of_Z; lia).
  assert (V5 : units (of_Z 5) = 5 * 2 ^ scale) by (apply units_of_Z; lia).
  assert (G4 : normal (of_Z 4)) by (apply normal_of_Z; lia).
  assert (Hpos : forall k, 0 < k < 2 ^ 53 ->
             ltb (of_Z 5) (div (of_Z k) (of_Z 4)) = (20 <? k)).
  { intros k Hk. destruct (quarter_of_Z k Hk) as [G V].
    rewrite (normal_ltb _ _ G5 G), V5.
    destruct (Z.ltb_spec 20 k); [apply Z.ltb_lt | apply Z.ltb_ge]; nia. }
  destruct (Z.lt_trichotomy S 0) as [Hneg | [-> | Hp]].
  - replace S with (- - S) at 1 3 by lia.
    rewrite of_Z_opp by lia.
    destruct (quarter_of_Z (- S) ltac:(lia)) as [G V].
    rewrite div_opp_l by (try exact G4; apply normal_of_Z; lia).
    split.
    + transitivity false.
      * destruct G as (m & e & -> & _). reflexivity.
      * symmetry. apply Z.ltb_ge. lia.
    + replace (of_Z (-5)) with (SFopp (of_Z 5)) by reflexivity.
      rewrite (ltb_opp _ _ G G5), (Hpos (- S)) by lia.
      destruct (Z.ltb_spec 20 (- S)); symmetry;
        [apply Z.ltb_lt | apply Z.ltb_ge]; lia.
  - split; reflexivity.
  - destruct (quarter_of_Z S ltac:(lia)) as [G V].
    split.
    + unfold gtb. fold ltb. apply Hpos. lia.
    + transitivity false.
      * destruct G as (m & e & -> & _). reflexivity.
      * symmetry. apply Z.ltb_ge. lia.
Qed.

(** X25: for price changes that are whole numbers, [getMomentum] is
    bullish exactly when their sum is above 20, bearish exactly when it is
    below -20, and neutral otherwise: the sum and the mean are computed
    without rounding, and a mean of exactly 5 or -5 is neutral. *)
Theorem getMomentum_whole (market : Market.MarketData) (c1 c2 c3 c4 : Z) :
  m5 (Market.priceChange market) = of_Z c1 ->
  h1 (Market.priceChange market) = of_Z c2 ->
  h6 (Market.priceChange market) = of_Z c3 ->
  h24 (Market.priceChange market) = of_Z c4 ->
  - 2 ^ 50 < c1 < 2 ^ 50 -> - 2 ^ 50 < c2 < 2 ^ 50 ->
  - 2 ^ 50 < c3 < 2 ^ 50 -> - 2 ^ 50 < c4 < 2 ^ 50 ->
  getMomentum market
  = if 20 <? c1 + c2 + c3 + c4 then bullish
    else if c1 + c2 + c3 + c4 <? -20 then bearish
    else neutral.
Proof.
  intros E1 E2 E3 E4 H1 H2 H3 H4. unfold getMomentum.
  rewrite E1, E2, E3, E4.
  cbn [fold_left List.length Z.of_nat Pos.of_succ_nat Pos.succ].
  rewrite (add_of_Z 0 c1) by lia. cbn [Z.add].
  rewrite (add_of_Z c1 c2) by lia.
  rewrite (add_of_Z (c1 + c2) c3) by lia.
  rewrite (add_of_Z (c1 + c2 + c3) c4) by lia.
  destruct (mean_of_four (c1 + c2 + c3 + c4) ltac:(lia)) as [-> ->].
  reflexivity.
Qed.

Lemma getMomentum_whole_witness :
  let market :=
    Market.mkMarketData (of_Z 1)
      (mkWindows (of_Z (-10)) (of_Z 3) (of_Z 40) (of_Z 7))
      (mkWindows (of_Z 0) (of_Z 0) (of_Z 0) (of_Z 0))
      (mkTransactions (of_Z 0) (of_Z 0)) (of_Z 15000) None None in
  getMomentum market
  = if 20 <? -10 + 3 + 40 + 7 then bullish
    else if -10 + 3 + 40 + 7 <? -20 then bearish
    else neutral.
Proof.
  intros market.
  apply (getMomentum_whole market (-10) 3 40 7); try reflexivity; lia.
Defined.
